(** * Hexrod CNC converter: the hollow-milling, grip and taper generators

    A shallow embedding of [hollowing.py], [griff_generator.py] and
    [taper_gcode.py].

    Python [float] values are read as real numbers ([R]) wherever a
    statement is about geometry or control flow; module [F64] repeats
    [interpolate_dimension] and [compute_steg_positions] over IEEE binary64
    ([PrimFloat]), where the question is whether a result is reproduced bit
    for bit.  Every
    [lines.append] of the generators becomes one constructor of a
    directive type, so the order and number of emitted lines is kept while
    the textual rendering of the numbers is left out.  A [while] loop is a
    [Fixpoint] on a fuel argument; running out of fuel is the outcome
    [OutOfFuel], which no Python run has.  [ZeroDivisionError] and
    [IndexError] are the exceptions a run can end with. *)

From Stdlib Require Import String.
From Stdlib Require Import Reals Lra Lia List Bool ZArith.
From Stdlib Require Import PrimFloat SpecFloat FloatOps FloatAxioms.
Import ListNotations.

Set Warnings "-inexact-float".

(** ** Outcomes of a run *)

Inductive run (A : Type) : Type :=
| Return (a : A)
| ZeroDivisionError
| OutOfFuel
| IndexError.

Arguments Return {A} a.
Arguments ZeroDivisionError {A}.
Arguments OutOfFuel {A}.
Arguments IndexError {A}.

Definition bind {A B : Type} (m : run A) (k : A -> run B) : run B :=
  match m with
  | Return a => k a
  | ZeroDivisionError => ZeroDivisionError
  | OutOfFuel => OutOfFuel
  | IndexError => IndexError
  end.

Notation "x <- m ;; k" := (bind m (fun x => k))
  (at level 61, m at next level, right associativity).

(** ** Comparisons of reals as booleans *)

Definition Rleb (x y : R) : bool := if Rle_dec x y then true else false.
Definition Rltb (x y : R) : bool := if Rlt_dec x y then true else false.
Definition Rgeb (x y : R) : bool := Rleb y x.
Definition Rgtb (x y : R) : bool := Rltb y x.
Definition Reqb (x y : R) : bool := if Req_dec_T x y then true else false.

(** ** Motion directives

    One directive per emitted line: comment, blank and modal set-up lines
    carry their text; a move carries its axis words in the order written,
    its feed word and its trailing comment. *)

Inductive axis : Type := AX | AZ | AA.

Inductive directive : Type :=
| Text (s : string)
| RAPID_MOVE (axes : list (axis * R)) (tag : string)
| LINEAR_MOVE (axes : list (axis * R)) (feed : Z) (tag : string)
| PROGRAM_END.

Definition is_linear (d : directive) : bool :=
  match d with LINEAR_MOVE _ _ _ => true | _ => false end.

Definition is_motion (d : directive) : bool :=
  match d with Text _ => false | _ => true end.

Definition axis_eqb (a b : axis) : bool :=
  match a, b with
  | AX, AX | AZ, AZ | AA, AA => true
  | _, _ => false
  end.

(** The word of axis [a] among the axis words of a move. *)
Fixpoint word (a : axis) (axes : list (axis * R)) : option R :=
  match axes with
  | [] => None
  | (b, v) :: rest => if axis_eqb a b then Some v else word a rest
  end.

Definition linear_word (a : axis) (d : directive) : option R :=
  match d with LINEAR_MOVE axes _ _ => word a axes | _ => None end.

Definition rapid_word (a : axis) (d : directive) : option R :=
  match d with RAPID_MOVE axes _ => word a axes | _ => None end.

(** The values [f] selects from a list, in order. *)
Fixpoint select {A B : Type} (f : A -> option B) (l : list A) : list B :=
  match l with
  | [] => []
  | a :: rest =>
      match f a with
      | Some b => b :: select f rest
      | None => select f rest
      end
  end.

Module Hollowing.

Local Open Scope R_scope.

(** ** Configuration constants of [hollowing.py] *)

Record config : Type := {
  TIP_SOLID_MM : R;
  BUTT_SOLID_MM : R;
  STEG_ABSTAND_MM : R;
  STEG_BREITE_MM : R;
  UEBERGANG_MM : R;
  WANDSTAERKE_MM : R;
  FEED_RATE : Z;
  Z_RAPID : R;
  SCHRITT_MM : R
}.

Definition ZOLL_ZU_MM : R := 25.4.

(** The constants as the file sets them. *)
Definition reference : config := {|
  TIP_SOLID_MM := 80;
  BUTT_SOLID_MM := 60;
  STEG_ABSTAND_MM := 150;
  STEG_BREITE_MM := 12;
  UEBERGANG_MM := 8;
  WANDSTAERKE_MM := 0.4;
  FEED_RATE := 200;
  Z_RAPID := 3;
  SCHRITT_MM := 1
|}.

Definition taper_data : list (R * R) :=
  [ (0, 1.52); (5, 1.78); (10, 2.03); (15, 2.29); (20, 2.54); (25, 2.79);
    (30, 3.05); (35, 3.30); (40, 3.56); (45, 3.81); (50, 4.06); (55, 4.32);
    (60, 4.57) ].

Definition stations_mm : list (R * R) :=
  map (fun sd => (fst sd * ZOLL_ZU_MM, snd sd)) taper_data.

(** ** [interpolate_dimension] *)

(** The scan returns at the first segment [x0 <= x_mm <= x1]; [None] after
    the last one.  A segment of zero width that contains [x_mm] divides by
    zero. *)
Fixpoint interpolate_dimension (x_mm : R) (stations : list (R * R))
  : run (option R) :=
  match stations with
  | (x0, d0) :: (((x1, d1) :: _) as rest) =>
      if Rleb x0 x_mm && Rleb x_mm x1 then
        if Reqb (x1 - x0) 0 then ZeroDivisionError
        else
          let t := (x_mm - x0) / (x1 - x0) in
          Return (Some (d0 + t * (d1 - d0)))
      else interpolate_dimension x_mm rest
  | _ => Return None
  end.

(** Positions of consecutive stations strictly increase. *)
Fixpoint increasing (stations : list (R * R)) : Prop :=
  match stations with
  | a :: ((b :: _) as rest) => fst a < fst b /\ increasing rest
  | _ => True
  end.

Definition first_position (stations : list (R * R)) : R :=
  fst (hd (0, 0) stations).

Definition last_position (stations : list (R * R)) : R :=
  fst (last stations (0, 0)).

(** ** The zone mask *)

Definition sine_transition (t : R) : R := 0.5 * (1 - cos (PI * t)).

(** [t] held in [0, 1]. *)
Definition clamp01 (t : R) : R := Rmax 0 (Rmin 1 t).

(** The eased step from 0 (up to [a]) to 1 (from [a + w] on). *)
Definition ramp (a w x : R) : R := sine_transition (clamp01 ((x - a) / w)).

Section Generator.

Variable cfg : config.

(** The [for steg_center in steg_positions] loop of [compute_factor],
    with the [return 1.0] that follows it. *)
Fixpoint glue_lands (x_mm : R) (steg_positions : list R) : R :=
  match steg_positions with
  | [] => 1
  | steg_center :: rest =>
      let steg_l := steg_center - STEG_BREITE_MM cfg / 2 in
      let steg_r := steg_center + STEG_BREITE_MM cfg / 2 in
      let entry_l := steg_l - UEBERGANG_MM cfg in
      let exit_r := steg_r + UEBERGANG_MM cfg in
      if Rleb steg_l x_mm && Rleb x_mm steg_r then 0
      else if Rleb entry_l x_mm && Rltb x_mm steg_l then
        let t := (x_mm - entry_l) / UEBERGANG_MM cfg in
        1 - sine_transition t
      else if Rltb steg_r x_mm && Rleb x_mm exit_r then
        let t := (x_mm - steg_r) / UEBERGANG_MM cfg in
        sine_transition t
      else glue_lands x_mm rest
  end.

(** No division of [compute_factor] is reached with a zero
    [UEBERGANG_MM]: each one sits in a branch whose guards give
    [UEBERGANG_MM > 0]. *)
Definition compute_factor (x_mm x_total : R) (steg_positions : list R) : R :=
  if Rltb x_mm (TIP_SOLID_MM cfg) then
    if Rltb x_mm (TIP_SOLID_MM cfg - UEBERGANG_MM cfg) then 0
    else
      let t := (x_mm - (TIP_SOLID_MM cfg - UEBERGANG_MM cfg)) / UEBERGANG_MM cfg in
      sine_transition t
  else
    let butt_start := x_total - BUTT_SOLID_MM cfg in
    if Rgtb x_mm butt_start then
      if Rgtb x_mm (butt_start + UEBERGANG_MM cfg) then 0
      else
        let t := (x_mm - butt_start) / UEBERGANG_MM cfg in
        1 - sine_transition t
    else glue_lands x_mm steg_positions.

(** *** The mask of a disjoint layout in closed form

    Each zone contributes a factor that is 1 away from the zone; when the
    zones do not overlap, at most one factor differs from 1 at any
    position, and the first-match scan of [compute_factor] returns the
    product. *)

Definition tip_factor (x : R) : R :=
  ramp (TIP_SOLID_MM cfg - UEBERGANG_MM cfg) (UEBERGANG_MM cfg) x.

Definition butt_factor (x_total x : R) : R :=
  1 - ramp (x_total - BUTT_SOLID_MM cfg) (UEBERGANG_MM cfg) x.

Definition land_factor (steg_center x : R) : R :=
  1 - ramp (steg_center - STEG_BREITE_MM cfg / 2 - UEBERGANG_MM cfg)
        (UEBERGANG_MM cfg) x
    + ramp (steg_center + STEG_BREITE_MM cfg / 2) (UEBERGANG_MM cfg) x.

Definition lands_product (steg_positions : list R) (x : R) : R :=
  fold_right (fun c acc => land_factor c x * acc) 1 steg_positions.

Definition mask_closed_form (x_total : R) (steg_positions : list R) (x : R)
  : R :=
  tip_factor x * (butt_factor x_total x * lands_product steg_positions x).

(** Each land, with its transitions, starts at or after [lo] and the
    previous land's exit. *)
Fixpoint lands_apart (lo : R) (steg_positions : list R) : Prop :=
  match steg_positions with
  | [] => True
  | c :: rest =>
      lo <= c - STEG_BREITE_MM cfg / 2 - UEBERGANG_MM cfg
      /\ lands_apart (c + STEG_BREITE_MM cfg / 2 + UEBERGANG_MM cfg) rest
  end.

(** The zones as the script lays them out: a transition of positive
    width, the tip section before the butt section, and the lands with
    their transitions between the two, one after the other. *)
Definition disjoint_layout (x_total : R) (steg_positions : list R) : Prop :=
  0 < UEBERGANG_MM cfg
  /\ 0 <= STEG_BREITE_MM cfg
  /\ TIP_SOLID_MM cfg <= x_total - BUTT_SOLID_MM cfg
  /\ lands_apart (TIP_SOLID_MM cfg) steg_positions
  /\ Forall
       (fun c => c + STEG_BREITE_MM cfg / 2 + UEBERGANG_MM cfg
                 <= x_total - BUTT_SOLID_MM cfg)
       steg_positions.

(** ** [compute_steg_positions] *)

Fixpoint steg_loop (fuel : nat) (stege : list R) (x hohl_end : R)
  : run (list R) :=
  match fuel with
  | O => OutOfFuel
  | S fuel' =>
      if Rltb x hohl_end then
        steg_loop fuel' (stege ++ [x]) (x + STEG_ABSTAND_MM cfg) hohl_end
      else Return stege
  end.

Definition compute_steg_positions (fuel : nat) (x_total : R) : run (list R) :=
  let hohl_start := TIP_SOLID_MM cfg in
  let hohl_end := x_total - BUTT_SOLID_MM cfg in
  steg_loop fuel [] (hohl_start + STEG_ABSTAND_MM cfg) hohl_end.

(** ** The toolpath loop *)

(** Which [break] ended the loop. *)
Inductive loop_exit : Type :=
| BreakOutOfRange
| BreakAtEnd.

Fixpoint build_loop (fuel : nat) (stations : list (R * R)) (x_total : R)
    (steg_positions : list R) (path : list (R * R)) (x : R)
  : run (list (R * R) * loop_exit) :=
  match fuel with
  | O => OutOfFuel
  | S fuel' =>
      let x := Rmin x x_total in
      dim <- interpolate_dimension x stations ;;
      match dim with
      | None => Return (path, BreakOutOfRange)
      | Some dim =>
          let max_depth := Rmax 0 (dim / 2 - WANDSTAERKE_MM cfg) in
          let factor := compute_factor x x_total steg_positions in
          let z := - max_depth * factor in
          let path := path ++ [(x, z)] in
          if Rgeb x x_total then Return (path, BreakAtEnd)
          else
            build_loop fuel' stations x_total steg_positions path
              (x + SCHRITT_MM cfg)
      end
  end.

Definition build_toolpath (fuel : nat) (stations : list (R * R))
    (x_total : R) (steg_positions : list R)
  : run (list (R * R) * loop_exit) :=
  build_loop fuel stations x_total steg_positions [] 0.

(** What the loop body stores for a position. *)
Definition sample_ok (stations : list (R * R)) (steg_positions : list R)
    (s : R * R) : Prop :=
  exists dim : R,
    interpolate_dimension (fst s) stations = Return (Some dim)
    /\ snd s = - Rmax 0 (dim / 2 - WANDSTAERKE_MM cfg)
               * compute_factor (fst s) (last_position stations)
                   steg_positions.

(** A sample whose position lies in the span of the table. *)
Definition in_span (stations : list (R * R)) (s : R * R) : Prop :=
  first_position stations <= fst s <= last_position stations.

(** ** G-code emission *)

Definition preamble : list directive :=
  [ Text "; Hexrod Hollowing G-Code for LinuxCNC";
    Text "; Tip solid: {TIP_SOLID_MM}mm | Butt solid: {BUTT_SOLID_MM}mm";
    Text "; Glue lands: {steg_positions}";
    Text "; Wall thickness: {WANDSTAERKE_MM}mm | Transition: {UEBERGANG_MM}mm";
    Text "";
    Text "G21  ; metric";
    Text "G90  ; absolute";
    Text "G94  ; feed in mm/min";
    Text "";
    RAPID_MOVE [(AZ, Z_RAPID cfg)] "";
    RAPID_MOVE [(AX, 0)] "";
    Text "";
    Text "; === Hollow milling pass ===";
    Text "" ].

(** The [for x, z in path] loop: the lines so far and the [cutting] flag. *)
Fixpoint emit_path (path : list (R * R)) (lines : list directive)
    (cutting : bool) : list directive * bool :=
  match path with
  | [] => (lines, cutting)
  | (x, z) :: rest =>
      if Rltb z (- 0.01) then
        if negb cutting then
          emit_path rest
            (lines ++ [RAPID_MOVE [(AX, x)] ""]
                   ++ [LINEAR_MOVE [(AZ, z)] (FEED_RATE cfg) ""])
            true
        else
          emit_path rest
            (lines ++ [LINEAR_MOVE [(AX, x); (AZ, z)] (FEED_RATE cfg) ""])
            cutting
      else
        if cutting then
          emit_path rest
            (lines ++ [LINEAR_MOVE [(AX, x); (AZ, z)] (FEED_RATE cfg)
                         "-> land/end"])
            false
        else emit_path rest lines cutting
  end.

Definition closing : list directive :=
  [ Text "";
    RAPID_MOVE [(AZ, Z_RAPID cfg)] "retract";
    RAPID_MOVE [(AX, 0)] "home";
    PROGRAM_END ].

Definition generate_gcode (path : list (R * R)) : list directive :=
  fst (emit_path path preamble false) ++ closing.

(** The whole script on a table in millimetres: [stations_mm[-1]] raises
    [IndexError] on an empty table; the lands are computed first and
    handed, unchanged, to every sample of the toolpath loop. *)
Definition main (fuel : nat) (stations : list (R * R)) : run (list directive) :=
  match stations with
  | [] => IndexError
  | _ :: _ =>
      let x_total := last_position stations in
      steg_positions <- compute_steg_positions fuel x_total ;;
      built <- build_toolpath fuel stations x_total steg_positions ;;
      Return (generate_gcode (fst built))
  end.

End Generator.

End Hollowing.

(** * [griff_generator.py] *)

Module Griff.

Local Open Scope R_scope.

Record config : Type := {
  GRIFFTYP : string;
  GRIFF_LAENGE_MM : R;
  X_START_MM : R;
  ROHLING_RADIUS : R;
  FRAESER_RADIUS : R;
  ZIEL_RADIUS : R;
  RADIUS_TIP : R;
  RADIUS_BUTT : R;
  POLYGON_SEITEN : Z;
  POLYGON_UMKREIS : R;
  FEED_CUT : Z;
  SCHRITT_MM : R
}.

(** The constants as the file sets them. *)
Definition reference : config := {|
  GRIFFTYP := "polygon";
  GRIFF_LAENGE_MM := 200;
  X_START_MM := 0;
  ROHLING_RADIUS := 15;
  FRAESER_RADIUS := 3;
  ZIEL_RADIUS := 10;
  RADIUS_TIP := 8;
  RADIUS_BUTT := 13;
  POLYGON_SEITEN := 8;
  POLYGON_UMKREIS := 11;
  FEED_CUT := 150;
  SCHRITT_MM := 1
|}.

(** The same constants for a grip of no length. *)
Definition zero_length (typ : string) : config := {|
  GRIFFTYP := typ;
  GRIFF_LAENGE_MM := 0;
  X_START_MM := 0;
  ROHLING_RADIUS := 15;
  FRAESER_RADIUS := 3;
  ZIEL_RADIUS := 10;
  RADIUS_TIP := 8;
  RADIUS_BUTT := 13;
  POLYGON_SEITEN := 8;
  POLYGON_UMKREIS := 11;
  FEED_CUT := 150;
  SCHRITT_MM := 1
|}.

(** The same constants with the grip type set to a turned shape. *)
Definition turned (typ : string) : config := {|
  GRIFFTYP := typ;
  GRIFF_LAENGE_MM := 200;
  X_START_MM := 0;
  ROHLING_RADIUS := 15;
  FRAESER_RADIUS := 3;
  ZIEL_RADIUS := 10;
  RADIUS_TIP := 8;
  RADIUS_BUTT := 13;
  POLYGON_SEITEN := 8;
  POLYGON_UMKREIS := 11;
  FEED_CUT := 150;
  SCHRITT_MM := 1
|}.

Section Generator.

Variable cfg : config.

Definition Z_FREIFAHRT : R := ROHLING_RADIUS cfg + FRAESER_RADIUS cfg + 2.

Definition z_for_radius (target_r : R) : R := target_r + FRAESER_RADIUS cfg.

Definition conical_radius (x_mm : R) : run R :=
  if Reqb (GRIFF_LAENGE_MM cfg) 0 then ZeroDivisionError
  else
    let t := (x_mm - X_START_MM cfg) / GRIFF_LAENGE_MM cfg in
    Return (RADIUS_TIP cfg + t * (RADIUS_BUTT cfg - RADIUS_TIP cfg)).

(** *** [generate_turning] *)

Definition rotations_per_mm : R := 3.

(** The [while r >= target_r + 0.5] loop. *)
Fixpoint roughing_loop (fuel : nat) (roughing_steps : list (string * option R))
    (r target_r : R) : run (list (string * option R)) :=
  match fuel with
  | O => OutOfFuel
  | S fuel' =>
      if Rgeb r (target_r + 0.5) then
        roughing_loop fuel' (roughing_steps ++ [("roughing"%string, Some r)])
          (r - 1) target_r
      else Return roughing_steps
  end.

(** The [while True] loop of one pass: the lines and [a_total] so far. *)
Fixpoint pass_loop (fuel : nat) (fixed_r : option R) (lines : list directive)
    (a_total x : R) : run (list directive * R) :=
  match fuel with
  | O => OutOfFuel
  | S fuel' =>
      let x := Rmin x (X_START_MM cfg + GRIFF_LAENGE_MM cfg) in
      r <- match fixed_r with
           | Some fixed => Return fixed
           | None =>
               if String.eqb (GRIFFTYP cfg) "konisch" then conical_radius x
               else Return (ZIEL_RADIUS cfg)
           end ;;
      let z := z_for_radius r in
      let a_total := a_total + 360 * rotations_per_mm * SCHRITT_MM cfg in
      let lines :=
        lines ++ [LINEAR_MOVE [(AX, x); (AZ, z); (AA, a_total)] (FEED_CUT cfg) ""] in
      if Rgeb x (X_START_MM cfg + GRIFF_LAENGE_MM cfg) then
        Return (lines, a_total)
      else pass_loop fuel' fixed_r lines a_total (x + SCHRITT_MM cfg)
  end.

(** Python's truth value of [fixed_r]: [None] and [0.0] are false. *)
Definition truthy (fixed_r : option R) : bool :=
  match fixed_r with
  | Some r => negb (Reqb r 0)
  | None => false
  end.

(** The [for pass_type, fixed_r in roughing_steps] loop. *)
Fixpoint pass_sequence (fuel : nat) (roughing_steps : list (string * option R))
    (lines : list directive) (a_total : R) : run (list directive * R) :=
  match roughing_steps with
  | [] => Return (lines, a_total)
  | (pass_type, fixed_r) :: rest =>
      let label :=
        if truthy fixed_r then Text "; --- roughing r={fixed_r:.1f}mm ---"
        else Text "; --- finishing (contour) ---" in
      let lines :=
        lines ++ [ label;
                   RAPID_MOVE [(AZ, Z_FREIFAHRT)] "";
                   RAPID_MOVE [(AX, X_START_MM cfg)] "" ] in
      done <- pass_loop fuel fixed_r lines a_total (X_START_MM cfg) ;;
      let lines :=
        fst done ++ [ RAPID_MOVE [(AZ, Z_FREIFAHRT)] "";
                      RAPID_MOVE [(AX, X_START_MM cfg)] "";
                      Text "" ] in
      pass_sequence fuel rest lines (snd done)
  end.

Definition turning_header : list directive :=
  [ Text "; === {GRIFFTYP.upper()} GRIP - horizontal spindle, cutting from below ===";
    Text "; Length: {GRIFF_LAENGE_MM}mm";
    (if String.eqb (GRIFFTYP cfg) "zylindrisch"
     then Text "; Radius: {ZIEL_RADIUS}mm"
     else Text "; Radius: {RADIUS_TIP}mm (tip) -> {RADIUS_BUTT}mm (butt)");
    Text "; Z=0 at grip axis";
    Text "";
    Text "G21 G90 G94";
    RAPID_MOVE [(AZ, Z_FREIFAHRT)] "clear of blank";
    RAPID_MOVE [(AX, 0); (AA, 0)] "";
    Text "" ].

Definition turning_footer : list directive :=
  [ RAPID_MOVE [(AZ, Z_FREIFAHRT)] "";
    RAPID_MOVE [(AX, 0)] "";
    PROGRAM_END ].

Definition generate_turning (fuel : nat) : run (list directive) :=
  let lines := turning_header in
  let target_r :=
    if String.eqb (GRIFFTYP cfg) "zylindrisch" then ZIEL_RADIUS cfg
    else Rmin (RADIUS_TIP cfg) (RADIUS_BUTT cfg) in
  roughing_steps <-
    roughing_loop fuel [] (ROHLING_RADIUS cfg - 1) target_r ;;
  let roughing_steps := roughing_steps ++ [("finishing"%string, None)] in
  let a_total := 0 in
  done <- pass_sequence fuel roughing_steps lines a_total ;;
  Return (fst done ++ turning_footer).

(** *** [generate_polygon] *)

Definition polygon_header (inkreis z_cut sektor : R) : list directive :=
  [ Text "; === POLYGON GRIP ({POLYGON_SEITEN}-sided) - horizontal spindle, from below ===";
    Text "; Length: {GRIFF_LAENGE_MM}mm";
    Text "; Circumradius: {POLYGON_UMKREIS:.2f}mm  Inradius: {inkreis:.3f}mm";
    Text "; Z cut position: {z_cut:.4f}mm from axis";
    Text "; {POLYGON_SEITEN} faces, {sektor:.1f} deg apart";
    Text "; Z=0 at grip axis";
    Text "";
    Text "G21 G90 G94";
    RAPID_MOVE [(AZ, Z_FREIFAHRT)] "";
    RAPID_MOVE [(AX, 0); (AA, 0)] "";
    Text "" ].

(** The lines one face adds. *)
Definition face_lines (sektor z_entry z_cut : R) (face : nat) : list directive :=
  let a_angle := INR face * sektor in
  [ Text "; --- Face {face+1}/{POLYGON_SEITEN}  A={a_angle:.1f} deg ---";
    RAPID_MOVE [(AZ, Z_FREIFAHRT)] "retract";
    RAPID_MOVE [(AA, a_angle)] "index: face perpendicular to tool";
    RAPID_MOVE [(AX, X_START_MM cfg)] "start position";
    LINEAR_MOVE [(AZ, z_entry)] (FEED_CUT cfg / 2)%Z "approach blank surface";
    LINEAR_MOVE [(AZ, z_cut)] (FEED_CUT cfg / 3)%Z "plunge to cut depth";
    LINEAR_MOVE [(AX, X_START_MM cfg + GRIFF_LAENGE_MM cfg)] (FEED_CUT cfg)
      "mill face";
    Text "" ].

(** The [for face in range(POLYGON_SEITEN)] loop. *)
Fixpoint face_loop (sektor z_entry z_cut : R) (faces : list nat)
    (lines : list directive) : list directive :=
  match faces with
  | [] => lines
  | face :: rest =>
      face_loop sektor z_entry z_cut rest
        (lines ++ face_lines sektor z_entry z_cut face)
  end.

Definition polygon_footer : list directive :=
  [ RAPID_MOVE [(AZ, Z_FREIFAHRT)] "";
    RAPID_MOVE [(AX, 0); (AA, 0)] "";
    PROGRAM_END ].

Definition generate_polygon : run (list directive) :=
  if (POLYGON_SEITEN cfg =? 0)%Z then ZeroDivisionError
  else
    let sektor := 360 / IZR (POLYGON_SEITEN cfg) in
    let inkreis := POLYGON_UMKREIS cfg * cos (PI / IZR (POLYGON_SEITEN cfg)) in
    let z_cut := z_for_radius inkreis in
    let z_entry := z_for_radius (ROHLING_RADIUS cfg) in
    let lines := polygon_header inkreis z_cut sektor in
    let lines :=
      face_loop sektor z_entry z_cut (seq 0 (Z.to_nat (POLYGON_SEITEN cfg)))
        lines in
    Return (lines ++ polygon_footer).

End Generator.

(** *** Reading a program *)

(** The angle of an indexing move: a rapid move of the A axis alone. *)
Definition index_angle (d : directive) : option R :=
  match d with
  | RAPID_MOVE [(AA, a)] _ => Some a
  | _ => None
  end.

(** The depth of a plunge: a linear move of the Z axis alone, tagged as the
    plunge. *)
Definition plunge_depth (d : directive) : option R :=
  match d with
  | LINEAR_MOVE [(AZ, z)] _ tag =>
      if String.eqb tag "plunge to cut depth" then Some z else None
  | _ => None
  end.

Definition is_mill_face (d : directive) : bool :=
  match d with
  | LINEAR_MOVE [(AX, _)] _ tag => String.eqb tag "mill face"
  | _ => false
  end.

(** The linear moves of [new] carry the A words [a + d], [a + 2 d], ... and
    leave the running total at [a']. *)
Definition accumulates (d a : R) (new : list directive) (a' : R) : Prop :=
  exists m : nat,
    select (linear_word AA) new = map (fun k => a + INR k * d) (seq 1 m)
    /\ a' = a + INR m * d
    /\ length (filter is_linear new) = m.

(** The lines of one pass over the grip: its label, the retract and the
    positioning at the start of the grip, one linear move or more, the
    first at the start of the grip (at its end, when the grip ends before
    it starts) and the last at the end of the grip, then the retract, the
    positioning and a blank line. *)
Definition is_pass (cfg : config) (block : list directive) : Prop :=
  exists (label : string) (moves : list directive),
    block
    = [ Text label;
        RAPID_MOVE [(AZ, Z_FREIFAHRT cfg)] "";
        RAPID_MOVE [(AX, X_START_MM cfg)] "" ]
      ++ moves
      ++ [ RAPID_MOVE [(AZ, Z_FREIFAHRT cfg)] "";
           RAPID_MOVE [(AX, X_START_MM cfg)] "";
           Text "" ]
    /\ moves <> []
    /\ Forall (fun d => is_linear d = true) moves
    /\ linear_word AX (hd PROGRAM_END moves)
       = Some (Rmin (X_START_MM cfg) (X_START_MM cfg + GRIFF_LAENGE_MM cfg))
    /\ linear_word AX (last moves PROGRAM_END)
       = Some (X_START_MM cfg + GRIFF_LAENGE_MM cfg).

(** Each value is the one before it plus [d], the first one [prev] plus
    [d]: the values of a total that [d] is added to again and again. *)
Fixpoint running_total (d prev : R) (l : list R) : Prop :=
  match l with
  | [] => True
  | a :: rest => a = prev + d /\ running_total d a rest
  end.

(** Each value exceeds the one before it. *)
Fixpoint strictly_increasing (l : list R) : Prop :=
  match l with
  | a :: ((b :: _) as rest) => a < b /\ strictly_increasing rest
  | _ => True
  end.

End Griff.

(** * [interpolate_dimension] over binary64

    The same scan with the operations of IEEE binary64, which are those of
    a Python [float]: every sum, difference, product and quotient is
    rounded to nearest, and a comparison with a NaN is false. *)

Module F64.

Local Open Scope float_scope.

Definition ZOLL_ZU_MM : float := 25.4.

Definition taper_data : list (float * float) :=
  [ (0, 1.52); (5, 1.78); (10, 2.03); (15, 2.29); (20, 2.54); (25, 2.79);
    (30, 3.05); (35, 3.30); (40, 3.56); (45, 3.81); (50, 4.06); (55, 4.32);
    (60, 4.57) ].

Definition stations_mm : list (float * float) :=
  map (fun sd => (fst sd * ZOLL_ZU_MM, snd sd)) taper_data.

Fixpoint interpolate_dimension (x_mm : float) (stations : list (float * float))
  : run (option float) :=
  match stations with
  | (x0, d0) :: (((x1, d1) :: _) as rest) =>
      if (x0 <=? x_mm) && (x_mm <=? x1) then
        if x1 - x0 =? 0 then ZeroDivisionError
        else
          let t := (x_mm - x0) / (x1 - x0) in
          Return (Some (d0 + t * (d1 - d0)))
      else interpolate_dimension x_mm rest
  | _ => Return None
  end.

(** The constants [compute_steg_positions] reads. *)
Record config : Type := {
  TIP_SOLID_MM : float;
  BUTT_SOLID_MM : float;
  STEG_ABSTAND_MM : float
}.

(** The constants as the file sets them. *)
Definition reference : config := {|
  TIP_SOLID_MM := 80;
  BUTT_SOLID_MM := 60;
  STEG_ABSTAND_MM := 150
|}.

(** A tip section of three inches and a pitch of six, in millimetres. *)
Definition inch_layout : config := {|
  TIP_SOLID_MM := 76.2;
  BUTT_SOLID_MM := 60;
  STEG_ABSTAND_MM := 152.4
|}.

(** A pitch of 10.1 mm and no butt section. *)
Definition fine_layout : config := {|
  TIP_SOLID_MM := 80;
  BUTT_SOLID_MM := 0;
  STEG_ABSTAND_MM := 10.1
|}.

Fixpoint steg_loop (cfg : config) (fuel : nat) (stege : list float)
    (x hohl_end : float) : run (list float) :=
  match fuel with
  | O => OutOfFuel
  | S fuel' =>
      if x <? hohl_end then
        steg_loop cfg fuel' (stege ++ [x]) (x + STEG_ABSTAND_MM cfg) hohl_end
      else Return stege
  end.

Definition compute_steg_positions (cfg : config) (fuel : nat) (x_total : float)
  : run (list float) :=
  let hohl_start := TIP_SOLID_MM cfg in
  let hohl_end := x_total - BUTT_SOLID_MM cfg in
  steg_loop cfg fuel [] (hohl_start + STEG_ABSTAND_MM cfg) hohl_end.

(** Each centre is the binary64 sum of the one before it and the pitch,
    the first one that of [prev] and the pitch. *)
Fixpoint running_sums (pitch prev : float) (lands : list float) : Prop :=
  match lands with
  | [] => True
  | c :: rest => c = prev + pitch /\ running_sums pitch c rest
  end.

(** Positions of consecutive stations strictly increase. *)
Fixpoint increasing (stations : list (float * float)) : bool :=
  match stations with
  | a :: ((b :: _) as rest) => (fst a <? fst b) && increasing rest
  | _ => true
  end.

Definition first_position (stations : list (float * float)) : float :=
  fst (hd (0, 0) stations).

Definition last_position (stations : list (float * float)) : float :=
  fst (last stations (0, 0)).

(** The position lies in the closed span of the table. *)
Definition within_span (x : float) (stations : list (float * float)) : bool :=
  (first_position stations <=? x) && (x <=? last_position stations).

(** Every station of the table is returned bit for bit. *)
Definition exact_at_stations (stations : list (float * float)) : bool :=
  forallb
    (fun xd =>
       match interpolate_dimension (fst xd) stations with
       | Return (Some d) => d =? snd xd
       | _ => false
       end)
    stations.

(** A table of two of the measured dimensions, sixty inches apart. *)
Definition sparse_data : list (float * float) := [ (0, 1.78); (60, 3.81) ].

Definition sparse_mm : list (float * float) :=
  map (fun sd => (fst sd * ZOLL_ZU_MM, snd sd)) sparse_data.

End F64.

(** * [taper_gcode.py] *)

Module Taper.

Local Open Scope R_scope.

Record config : Type := {
  FEED_RATE : Z;
  Z_RAPID : R;
  Z_OFFSET : R;
  EXTRA_LAENGE_MM : R
}.

Definition ZOLL_ZU_MM : R := 25.4.

(** The constants as the file sets them. *)
Definition reference : config := {|
  FEED_RATE := 300;
  Z_RAPID := 5;
  Z_OFFSET := 0;
  EXTRA_LAENGE_MM := 10
|}.

Section Generator.

Variable cfg : config.

Definition dimension_to_z (dim_mm : R) : R := - (dim_mm / 2) + Z_OFFSET cfg.

(** The [for x, dim in stations[1:]] loop. *)
Fixpoint station_loop (stations : list (R * R)) (lines : list directive)
  : list directive :=
  match stations with
  | [] => lines
  | (x, dim) :: rest =>
      let z := dimension_to_z dim in
      station_loop rest
        (lines ++ [ Text "; Station X={x:.1f}mm, Dim={dim:.3f}mm -> Z={z:.4f}mm";
                    LINEAR_MOVE [(AX, x); (AZ, z)] (FEED_RATE cfg) "" ])
  end.

(** The script on a table in inches; [None] is the [IndexError] that
    [taper_data[0]] raises on an empty table. *)
Definition main (taper_data : list (R * R)) : option (list directive) :=
  let stations := map (fun sd => (fst sd * ZOLL_ZU_MM, snd sd)) taper_data in
  match stations with
  | [] => None
  | (x0, d0) :: later =>
      let lines :=
        [ Text "; Hexrod Taper G-Code for LinuxCNC";
          Text "; Taper: {taper_data[0][1]:.2f}mm (Tip) -> {taper_data[-1][1]:.2f}mm (Butt)";
          Text "; Axes: X=length, Z=depth";
          Text "";
          Text "G21          ; metric";
          Text "G90          ; absolute coordinates";
          Text "G94          ; feed in mm/min";
          Text "";
          Text "; === START ===";
          RAPID_MOVE [(AZ, Z_RAPID cfg)] "rapid to safe height";
          RAPID_MOVE [(AX, 0)] "home X";
          Text "" ] in
      let z0 := dimension_to_z d0 in
      let lines :=
        lines ++ [ Text "; Tip: X={x0:.3f} Dim={d0:.3f}mm Z={z0:.4f}mm";
                   RAPID_MOVE [(AX, x0)] "";
                   LINEAR_MOVE [(AZ, z0)] (FEED_RATE cfg) "";
                   Text "" ] in
      let lines := station_loop later lines in
      let x_end := fst (last stations (x0, d0)) + EXTRA_LAENGE_MM cfg in
      let z_end := dimension_to_z (snd (last stations (x0, d0))) in
      Some (lines ++ [ LINEAR_MOVE [(AX, x_end); (AZ, z_end)] (FEED_RATE cfg)
                         "overshoot";
                       Text "";
                       Text "; === END ===";
                       RAPID_MOVE [(AZ, Z_RAPID cfg)] "";
                       RAPID_MOVE [(AX, 0)] "";
                       PROGRAM_END ])
  end.

End Generator.

End Taper.

(** * Reading tables, paths and programs *)

Module Reading.

Local Open Scope R_scope.

(** Positions of consecutive stations do not decrease. *)
Fixpoint nondecreasing (stations : list (R * R)) : Prop :=
  match stations with
  | a :: ((b :: _) as rest) => fst a <= fst b /\ nondecreasing rest
  | _ => True
  end.

(** The engagement test of the emission loop, [z < -0.01]. *)
Definition engaged (s : R * R) : bool := Rltb (snd s) (- 0.01).

(** How often a sequence of flags turns from false to true, and from true
    to false, when it starts after [prev]. *)
Fixpoint rises (prev : bool) (flags : list bool) : nat :=
  match flags with
  | [] => O
  | b :: rest => (if negb prev && b then 1 else 0) + rises b rest
  end.

Fixpoint falls (prev : bool) (flags : list bool) : nat :=
  match flags with
  | [] => O
  | b :: rest => (if prev && negb b then 1 else 0) + falls b rest
  end.

Definition is_rapid (d : directive) : bool :=
  match d with RAPID_MOVE _ _ => true | _ => false end.

(** The axis words of a line; none for text and for the program end. *)
Definition words (d : directive) : list (axis * R) :=
  match d with
  | RAPID_MOVE axes _ => axes
  | LINEAR_MOVE axes _ _ => axes
  | _ => []
  end.

(** The Z word in effect after a line, when it was [cur] before it: G-code
    coordinates are modal, a move without a Z word keeps the Z it had. *)
Definition z_after (cur : option R) (d : directive) : option R :=
  match word AZ (words d) with
  | Some z => Some z
  | None => cur
  end.

(** Each line of a program with the Z word in effect before it. *)
Fixpoint z_in_effect (cur : option R) (lines : list directive)
  : list (directive * option R) :=
  match lines with
  | [] => []
  | d :: rest => (d, cur) :: z_in_effect (z_after cur d) rest
  end.

(** The same replay for the word of any axis. *)
Definition word_after (a : axis) (cur : option R) (d : directive) : option R :=
  match word a (words d) with
  | Some v => Some v
  | None => cur
  end.

Fixpoint word_in_effect (a : axis) (cur : option R) (lines : list directive)
  : list (directive * option R) :=
  match lines with
  | [] => []
  | d :: rest => (d, cur) :: word_in_effect a (word_after a cur d) rest
  end.

(** The word in effect when a face of the polygon is milled. *)
Definition milled_with (dz : directive * option R) : option (option R) :=
  if Griff.is_mill_face (fst dz) then Some (snd dz) else None.

(** A list of lines keeps [Q] whatever Z word is in effect before it. *)
Definition always (Q : directive * option R -> Prop) (l : list directive)
  : Prop :=
  forall cur : option R, Forall Q (z_in_effect cur l).

(** A rapid move without a Z word is made at the safe height or no deeper
    than the engagement tolerance. *)
Definition near_surface (cfg : Hollowing.config) (dz : directive * option R) : Prop :=
  is_rapid (fst dz) = true ->
  word AZ (words (fst dz)) = None ->
  exists z : R, snd dz = Some z /\ (z = Hollowing.Z_RAPID cfg \/ - 0.01 <= z).

(** A rapid move without a Z word is made at the clearance height. *)
Definition at_clearance (cfg : Griff.config) (dz : directive * option R) : Prop :=
  is_rapid (fst dz) = true ->
  word AZ (words (fst dz)) = None ->
  snd dz = Some (Griff.Z_FREIFAHRT cfg).

(** A rapid move without a Z word is made at the safe height. *)
Definition at_safe_height (cfg : Taper.config) (dz : directive * option R) : Prop :=
  is_rapid (fst dz) = true ->
  word AZ (words (fst dz)) = None ->
  snd dz = Some (Taper.Z_RAPID cfg).

End Reading.

(** * Properties *)

Lemma Return_inj {A : Type} (a b : A) : Return a = Return b -> a = b.
Proof. intro H. inversion H. reflexivity. Qed.

(** ** Boolean comparisons *)

Lemma Rleb_true (x y : R) : Rleb x y = true <-> (x <= y)%R.
Proof. unfold Rleb; destruct (Rle_dec x y); split; auto; discriminate. Qed.

Lemma Rleb_false (x y : R) : Rleb x y = false <-> (y < x)%R.
Proof.
  unfold Rleb; destruct (Rle_dec x y); split; intro; try discriminate;
    try reflexivity; lra.
Qed.

Lemma Rltb_true (x y : R) : Rltb x y = true <-> (x < y)%R.
Proof. unfold Rltb; destruct (Rlt_dec x y); split; auto; discriminate. Qed.

Lemma Rltb_false (x y : R) : Rltb x y = false <-> (y <= x)%R.
Proof.
  unfold Rltb; destruct (Rlt_dec x y); split; intro; try discriminate;
    try reflexivity; lra.
Qed.

Lemma Reqb_true (x y : R) : Reqb x y = true <-> x = y.
Proof. unfold Reqb; destruct (Req_dec_T x y); split; auto; discriminate. Qed.

Lemma Reqb_false (x y : R) : Reqb x y = false <-> x <> y.
Proof.
  unfold Reqb; destruct (Req_dec_T x y); split; intro; try discriminate;
    try reflexivity; try assumption; contradiction.
Qed.

(** ** Loops that advance by a positive step *)

Lemma nat_above (r : R) : exists N : nat, (r <= INR N)%R.
Proof.
  destruct (Rle_dec r 0) as [Hr|Hr].
  - exists O. simpl. lra.
  - destruct (archimed r) as [Hup _].
    exists (Z.to_nat (up r)).
    rewrite INR_IZR_INZ, Z2Nat.id.
    + lra.
    + apply le_IZR. lra.
Qed.

Lemma steps_reach (x target step : R) :
  (0 < step -> exists N : nat, target <= x + INR N * step)%R.
Proof.
  intro Hs. destruct (nat_above ((target - x) / step)) as [N HN].
  exists N. apply (Rmult_le_compat_r step) in HN; [|lra].
  unfold Rdiv in HN. rewrite Rmult_assoc, Rinv_l, Rmult_1_r in HN by lra. lra.
Qed.

(** Settle the comparisons of closed real expressions. *)
Ltac settle :=
  repeat first
    [ match goal with
      | |- context [Rltb ?a ?b] =>
          first [ rewrite (proj2 (Rltb_true a b)) by (simpl; lra)
                | rewrite (proj2 (Rltb_false a b)) by (simpl; lra) ]
      | |- context [Rleb ?a ?b] =>
          first [ rewrite (proj2 (Rleb_true a b)) by (simpl; lra)
                | rewrite (proj2 (Rleb_false a b)) by (simpl; lra) ]
      | |- context [Reqb ?a ?b] =>
          first [ rewrite (proj2 (Reqb_true a b)) by (simpl; lra)
                | rewrite (proj2 (Reqb_false a b)) by (simpl; lra) ]
      end
    | progress cbn [andb negb] ].

Module HollowingFacts.
Import Hollowing.
Local Open Scope R_scope.

(** ** The interpolator *)

Lemma increasing_tail a rest : increasing (a :: rest) -> increasing rest.
Proof. destruct rest; simpl; tauto. Qed.

Lemma increasing_first_le_last a rest :
  increasing (a :: rest) -> fst a <= last_position (a :: rest).
Proof.
  revert a; induction rest as [|b rest IH]; intros a H.
  - unfold last_position; simpl; lra.
  - destruct H as [Hab Hr]. specialize (IH b Hr).
    unfold last_position in *. simpl in *. lra.
Qed.

Lemma interpolate_cons2 x x0 d0 x1 d1 rest :
  interpolate_dimension x ((x0, d0) :: (x1, d1) :: rest)
  = if Rleb x0 x && Rleb x x1 then
      if Reqb (x1 - x0) 0 then ZeroDivisionError
      else Return (Some (d0 + (x - x0) / (x1 - x0) * (d1 - d0)))
    else interpolate_dimension x ((x1, d1) :: rest).
Proof. reflexivity. Qed.

Lemma interpolate_below x stations :
  increasing stations -> x < first_position stations ->
  interpolate_dimension x stations = Return None.
Proof.
  induction stations as [|[x0 d0] rest IH]; intros Hinc Hx; [reflexivity|].
  destruct rest as [|[x1 d1] rest']; [reflexivity|].
  unfold first_position in *. simpl in Hx. simpl in Hinc. destruct Hinc as [H01 Hr].
  rewrite interpolate_cons2.
  assert (E : Rleb x0 x = false) by (apply Rleb_false; lra).
  rewrite E. simpl andb. cbv iota. apply IH; [exact Hr | simpl; lra].
Qed.

Lemma interpolate_spec x stations :
  (2 <= length stations)%nat -> increasing stations ->
  first_position stations <= x <= last_position stations ->
  exists d, interpolate_dimension x stations = Return (Some d).
Proof.
  induction stations as [|[x0 d0] rest IH]; intros Hlen Hinc Hx;
    [simpl in Hlen; lia|].
  destruct rest as [|[x1 d1] rest']; [simpl in Hlen; lia|].
  destruct Hinc as [H01 Hr]. simpl in H01.
  unfold first_position in Hx; simpl in Hx.
  rewrite interpolate_cons2.
  destruct (Rleb x x1) eqn:E1;
    [apply Rleb_true in E1 | apply Rleb_false in E1].
  - assert (E0 : Rleb x0 x = true) by (apply Rleb_true; lra).
    assert (E2 : Reqb (x1 - x0) 0 = false) by (apply Reqb_false; lra).
    rewrite E0, E2. simpl. eexists; reflexivity.
  - rewrite andb_false_r.
    destruct rest' as [|s2 rest''].
    + unfold last_position in Hx; simpl in Hx; lra.
    + apply IH; [simpl; lia | exact Hr |].
      unfold first_position, last_position in *; simpl in *; lra.
Qed.

Lemma interpolate_above x stations :
  increasing stations -> last_position stations < x ->
  (1 <= length stations)%nat ->
  interpolate_dimension x stations = Return None.
Proof.
  induction stations as [|[x0 d0] rest IH]; intros Hinc Hx Hlen; [reflexivity|].
  destruct rest as [|[x1 d1] rest']; [reflexivity|].
  destruct Hinc as [H01 Hr]. simpl in H01.
  pose proof (increasing_first_le_last _ _ Hr) as Hle. simpl in Hle.
  assert (Hl : last_position ((x0, d0) :: (x1, d1) :: rest')
               = last_position ((x1, d1) :: rest')) by reflexivity.
  rewrite Hl in Hx.
  rewrite interpolate_cons2.
  assert (E : Rleb x x1 = false) by (apply Rleb_false; lra).
  rewrite E, andb_false_r. apply IH; [exact Hr | exact Hx | simpl; lia].
Qed.

(** Half way between the stations [(0, 10)] and [(100, 20)]. *)
Example interpolate_half_way :
  exists d : R,
    interpolate_dimension 50 [(0, 10); (100, 20)] = Return (Some d)
    /\ d = 15.
Proof.
  rewrite interpolate_cons2. settle.
  eexists. split; [reflexivity | lra].
Qed.

(** C4: on a table of at least two stations with strictly increasing
    positions, [interpolate_dimension] returns a dimension exactly when the
    position lies in the closed span from the first to the last station, and
    returns [None] (no extrapolation, no exception) outside it. *)
Theorem interpolate_dimension_in_span_iff (x : R) (stations : list (R * R)) :
  (2 <= length stations)%nat ->
  increasing stations ->
  ((exists d, interpolate_dimension x stations = Return (Some d))
     <-> first_position stations <= x <= last_position stations)
  /\ (~ (first_position stations <= x <= last_position stations)
        -> interpolate_dimension x stations = Return None).
Proof.
  intros Hlen Hinc.
  assert (Hout : ~ (first_position stations <= x <= last_position stations)
                 -> interpolate_dimension x stations = Return None).
  { intro Hn.
    destruct (Rlt_dec x (first_position stations)) as [Hlo|Hlo].
    - apply interpolate_below; assumption.
    - apply interpolate_above; [assumption | lra | lia]. }
  split; [split|exact Hout].
  - intros [d Hd].
    destruct (Rle_dec (first_position stations) x) as [H1|H1];
      destruct (Rle_dec x (last_position stations)) as [H2|H2];
      try (split; assumption);
      rewrite Hout in Hd by lra; discriminate.
  - apply interpolate_spec; assumption.
Qed.

Lemma increasing_lt_later a rest xd :
  increasing (a :: rest) -> In xd rest -> fst a < fst xd.
Proof.
  revert a; induction rest as [|b rest IH]; intros a Hinc Hin; [contradiction|].
  destruct Hinc as [Hab Hr]. destruct Hin as [->|Hin]; [exact Hab|].
  specialize (IH b Hr Hin). lra.
Qed.

Lemma interpolate_at_station (stations : list (R * R)) (x d : R) :
  (2 <= length stations)%nat ->
  increasing stations ->
  In (x, d) stations ->
  interpolate_dimension x stations = Return (Some d).
Proof.
  induction stations as [|[x0 d0] rest IH]; intros Hlen Hinc Hin;
    [contradiction|].
  destruct rest as [|[x1 d1] rest']; [simpl in Hlen; lia|].
  pose proof Hinc as [H01 Hr]. simpl in H01.
  rewrite interpolate_cons2.
  destruct Hin as [Heq|[Heq|Hin]].
  - inversion Heq; subst x d.
    assert (E0 : Rleb x0 x0 = true) by (apply Rleb_true; lra).
    assert (E1 : Rleb x0 x1 = true) by (apply Rleb_true; lra).
    assert (E2 : Reqb (x1 - x0) 0 = false) by (apply Reqb_false; lra).
    rewrite E0, E1, E2. simpl. do 2 f_equal. field. lra.
  - inversion Heq; subst x d.
    assert (E0 : Rleb x0 x1 = true) by (apply Rleb_true; lra).
    assert (E1 : Rleb x1 x1 = true) by (apply Rleb_true; lra).
    assert (E2 : Reqb (x1 - x0) 0 = false) by (apply Reqb_false; lra).
    rewrite E0, E1, E2. simpl. do 2 f_equal. field. lra.
  - pose proof (increasing_lt_later _ _ _ Hr Hin) as Hlt. simpl in Hlt.
    assert (E1 : Rleb x x1 = false) by (apply Rleb_false; lra).
    rewrite E1, andb_false_r.
    apply IH; [destruct rest'; [contradiction | simpl; lia] | exact Hr |].
    right; exact Hin.
Qed.

(** ** The easing curve *)

Lemma sine_transition_0 : sine_transition 0 = 0.
Proof. unfold sine_transition. rewrite Rmult_0_r, cos_0. lra. Qed.

Lemma sine_transition_1 : sine_transition 1 = 1.
Proof. unfold sine_transition. rewrite Rmult_1_r, cos_PI. lra. Qed.

Lemma sine_transition_half : sine_transition 0.5 = 0.5.
Proof.
  unfold sine_transition. replace (PI * 0.5) with (PI / 2) by lra.
  rewrite cos_PI2. lra.
Qed.

Lemma sine_transition_range (t : R) : 0 <= sine_transition t <= 1.
Proof. unfold sine_transition. pose proof (COS_bound (PI * t)). lra. Qed.

Lemma sine_transition_increasing (s t : R) :
  0 <= s -> s <= t -> t <= 1 -> sine_transition s <= sine_transition t.
Proof.
  intros Hs Hst Ht. unfold sine_transition.
  pose proof PI_RGT_0 as Hpi.
  assert (cos (PI * t) <= cos (PI * s)); [|lra].
  apply cos_decr_1; nra.
Qed.

Lemma sine_transition_inside (t : R) :
  0 < t < 1 -> 0 < sine_transition t < 1.
Proof.
  intros [H0 H1]. unfold sine_transition.
  pose proof PI_RGT_0 as Hpi.
  assert (Hlo : cos (PI * t) < cos 0) by (apply cos_decreasing_1; nra).
  assert (Hhi : cos PI < cos (PI * t)) by (apply cos_decreasing_1; nra).
  rewrite cos_0 in Hlo. rewrite cos_PI in Hhi. lra.
Qed.

Lemma clamp01_low (t : R) : t <= 0 -> clamp01 t = 0.
Proof.
  intro H. unfold clamp01, Rmax, Rmin.
  repeat destruct (Rle_dec _ _); lra.
Qed.

Lemma clamp01_high (t : R) : 1 <= t -> clamp01 t = 1.
Proof.
  intro H. unfold clamp01, Rmax, Rmin.
  repeat destruct (Rle_dec _ _); lra.
Qed.

Lemma clamp01_mid (t : R) : 0 <= t <= 1 -> clamp01 t = t.
Proof.
  intro H. unfold clamp01, Rmax, Rmin.
  repeat destruct (Rle_dec _ _); lra.
Qed.

Lemma ramp_low (a w x : R) : 0 < w -> x <= a -> ramp a w x = 0.
Proof.
  intros Hw Hx. unfold ramp. rewrite clamp01_low; [apply sine_transition_0|].
  apply Rmult_le_reg_r with w; [exact Hw|]. unfold Rdiv.
  rewrite Rmult_assoc, Rinv_l by lra. lra.
Qed.

Lemma ramp_high (a w x : R) : 0 < w -> a + w <= x -> ramp a w x = 1.
Proof.
  intros Hw Hx. unfold ramp. rewrite clamp01_high; [apply sine_transition_1|].
  apply Rmult_le_reg_r with w; [exact Hw|]. unfold Rdiv.
  rewrite Rmult_assoc, Rinv_l by lra. lra.
Qed.

Lemma ramp_mid (a w x : R) :
  0 < w -> a <= x <= a + w -> ramp a w x = sine_transition ((x - a) / w).
Proof.
  intros Hw Hx. unfold ramp. rewrite clamp01_mid; [reflexivity|].
  split.
  - apply Rmult_le_reg_r with w; [exact Hw|]. unfold Rdiv.
    rewrite Rmult_assoc, Rinv_l by lra. lra.
  - apply Rmult_le_reg_r with w; [exact Hw|]. unfold Rdiv.
    rewrite Rmult_assoc, Rinv_l by lra. lra.
Qed.

(** ** The mask and its closed form *)

Section Mask.

Variable cfg : config.

Let w := UEBERGANG_MM cfg.
Let B := STEG_BREITE_MM cfg.

Hypothesis w_pos : 0 < w.
Hypothesis B_nonneg : 0 <= B.

Lemma land_factor_away (c x : R) :
  x <= c - B / 2 - w \/ c + B / 2 + w <= x -> land_factor cfg c x = 1.
Proof.
  unfold land_factor. fold w B. intros [H|H].
  - rewrite !ramp_low by lra. lra.
  - rewrite !ramp_high by lra. lra.
Qed.

Lemma land_factor_entry (c x : R) :
  c - B / 2 - w <= x <= c - B / 2 ->
  land_factor cfg c x = 1 - sine_transition ((x - (c - B / 2 - w)) / w).
Proof.
  unfold land_factor. fold w B. intro H.
  rewrite ramp_mid by lra. rewrite ramp_low by lra. lra.
Qed.

Lemma land_factor_inside (c x : R) :
  c - B / 2 <= x <= c + B / 2 -> land_factor cfg c x = 0.
Proof.
  unfold land_factor. fold w B. intro H.
  rewrite ramp_high by lra. rewrite ramp_low by lra. lra.
Qed.

Lemma land_factor_exit (c x : R) :
  c + B / 2 <= x <= c + B / 2 + w ->
  land_factor cfg c x = sine_transition ((x - (c + B / 2)) / w).
Proof.
  unfold land_factor. fold w B. intro H.
  rewrite ramp_high by lra. rewrite ramp_mid by lra. lra.
Qed.

Lemma lands_product_before (steg_positions : list R) :
  forall lo x : R,
    lands_apart cfg lo steg_positions -> x <= lo ->
    lands_product cfg steg_positions x = 1.
Proof.
  induction steg_positions as [|c rest IH]; intros lo x Hap Hx;
    [reflexivity|].
  destruct Hap as [Hc Hrest]. fold w B in Hc, Hrest.
  unfold lands_product in *. cbn [fold_right].
  rewrite land_factor_away by lra.
  rewrite (IH (c + B / 2 + w)); [lra | exact Hrest | lra].
Qed.

Lemma lands_product_after (steg_positions : list R) (hi x : R) :
  Forall (fun c => c + B / 2 + w <= hi) steg_positions -> hi <= x ->
  lands_product cfg steg_positions x = 1.
Proof.
  induction 1 as [|c rest Hc _ IH]; intro Hx; [reflexivity|].
  unfold lands_product in *. cbn [fold_right].
  rewrite land_factor_away by lra. rewrite IH by exact Hx. lra.
Qed.

Lemma glue_lands_closed_form (steg_positions : list R) :
  forall lo x : R,
    lands_apart cfg lo steg_positions ->
    glue_lands cfg x steg_positions = lands_product cfg steg_positions x.
Proof.
  induction steg_positions as [|c rest IH]; intros lo x Hap; [reflexivity|].
  destruct Hap as [Hc Hrest]. fold w B in Hc, Hrest.
  unfold lands_product. cbn [glue_lands fold_right].
  fold (lands_product cfg rest x). fold w B.
  destruct (Rleb (c - B / 2) x && Rleb x (c + B / 2)) eqn:Ein.
  { apply andb_prop in Ein. destruct Ein as [E1 E2].
    apply Rleb_true in E1, E2. rewrite land_factor_inside by lra. lra. }
  destruct (Rleb (c - B / 2 - w) x && Rltb x (c - B / 2)) eqn:Eentry.
  { apply andb_prop in Eentry. destruct Eentry as [E1 E2].
    apply Rleb_true in E1. apply Rltb_true in E2.
    rewrite land_factor_entry by lra.
    rewrite (lands_product_before rest (c + B / 2 + w)); [lra | exact Hrest | lra]. }
  destruct (Rltb (c + B / 2) x && Rleb x (c + B / 2 + w)) eqn:Eexit.
  { apply andb_prop in Eexit. destruct Eexit as [E1 E2].
    apply Rltb_true in E1. apply Rleb_true in E2.
    rewrite land_factor_exit by lra.
    rewrite (lands_product_before rest (c + B / 2 + w)); [lra | exact Hrest | lra]. }
  rewrite (IH _ x Hrest).
  rewrite land_factor_away; [lra|].
  apply andb_false_iff in Ein, Eentry, Eexit.
  rewrite !Rleb_false, !Rltb_false in *.
  destruct Ein, Eentry, Eexit; lra.
Qed.

Lemma compute_factor_closed_form (x_total : R) (steg_positions : list R) :
  disjoint_layout cfg x_total steg_positions ->
  forall x : R,
    compute_factor cfg x x_total steg_positions
    = mask_closed_form cfg x_total steg_positions x.
Proof.
  intros [_ [_ [Htb [Hap Hall]]]] x. fold w B in Hall.
  unfold compute_factor, mask_closed_form, tip_factor, butt_factor, Rgtb.
  fold w.
  destruct (Rltb x (TIP_SOLID_MM cfg)) eqn:Etip;
    [apply Rltb_true in Etip | apply Rltb_false in Etip].
  - rewrite (ramp_low (x_total - BUTT_SOLID_MM cfg)) by lra.
    rewrite (lands_product_before _ _ _ Hap) by lra.
    destruct (Rltb x (TIP_SOLID_MM cfg - w)) eqn:E;
      [apply Rltb_true in E | apply Rltb_false in E].
    + rewrite ramp_low by lra. lra.
    + rewrite ramp_mid by lra. lra.
  - rewrite (ramp_high (TIP_SOLID_MM cfg - w)) by lra.
    destruct (Rltb (x_total - BUTT_SOLID_MM cfg) x) eqn:Ebutt;
      [apply Rltb_true in Ebutt | apply Rltb_false in Ebutt].
    + rewrite (lands_product_after _ _ _ Hall) by lra.
      destruct (Rltb (x_total - BUTT_SOLID_MM cfg + w) x) eqn:E;
        [apply Rltb_true in E | apply Rltb_false in E].
      * rewrite ramp_high by lra. lra.
      * rewrite ramp_mid by lra. lra.
    + rewrite ramp_low by lra.
      rewrite (glue_lands_closed_form _ _ _ Hap). lra.
Qed.

Lemma lands_apart_lower (steg_positions : list R) :
  forall lo c : R,
    lands_apart cfg lo steg_positions -> In c steg_positions ->
    lo <= c - B / 2 - w.
Proof.
  induction steg_positions as [|c0 rest IH]; intros lo c Hap Hin;
    [contradiction|].
  destruct Hap as [Hc Hrest]. fold w B in Hc, Hrest.
  destruct Hin as [->|Hin]; [exact Hc|].
  specialize (IH _ _ Hrest Hin). lra.
Qed.

Lemma lands_product_at (steg_positions : list R) :
  forall lo c x : R,
    lands_apart cfg lo steg_positions -> In c steg_positions ->
    c - B / 2 - w <= x <= c + B / 2 + w ->
    lands_product cfg steg_positions x = land_factor cfg c x.
Proof.
  induction steg_positions as [|c0 rest IH]; intros lo c x Hap Hin Hx;
    [contradiction|].
  destruct Hap as [Hc Hrest]. fold w B in Hc, Hrest.
  unfold lands_product. cbn [fold_right]. fold (lands_product cfg rest x).
  destruct Hin as [->|Hin].
  - rewrite (lands_product_before rest (c + B / 2 + w)); [lra | exact Hrest | lra].
  - pose proof (lands_apart_lower _ _ _ Hrest Hin) as Hlow.
    rewrite land_factor_away by lra.
    rewrite (IH _ c x Hrest Hin Hx). lra.
Qed.

Lemma lands_product_outside (steg_positions : list R) (x : R) :
  (forall c : R, In c steg_positions ->
      x <= c - B / 2 - w \/ c + B / 2 + w <= x) ->
  lands_product cfg steg_positions x = 1.
Proof.
  induction steg_positions as [|c0 rest IH]; intro Hout; [reflexivity|].
  unfold lands_product. cbn [fold_right]. fold (lands_product cfg rest x).
  rewrite land_factor_away by (apply Hout; left; reflexivity).
  rewrite IH; [lra|]. intros c Hc. apply Hout. right. exact Hc.
Qed.

End Mask.

(** ** Continuity *)

Lemma continuity_pt_ext (f g : R -> R) (x : R) :
  (forall y : R, f y = g y) -> continuity_pt f x -> continuity_pt g x.
Proof.
  intros Hfg Hf eps Heps. destruct (Hf eps Heps) as [alp [Halp Hlim]].
  exists alp. split; [exact Halp|]. intros y Hy.
  rewrite <- !Hfg. apply Hlim, Hy.
Qed.

Lemma clamp01_lipschitz (s t : R) :
  Rabs (clamp01 s - clamp01 t) <= Rabs (s - t).
Proof.
  assert (Hcases : forall u : R,
             (u <= 0 /\ clamp01 u = 0) \/ (1 <= u /\ clamp01 u = 1)
             \/ (0 <= u <= 1 /\ clamp01 u = u)).
  { intro u. destruct (Rle_dec u 0) as [H0|H0].
    - left. split; [exact H0 | apply clamp01_low, H0].
    - destruct (Rle_dec 1 u) as [H1|H1].
      + right; left. split; [exact H1 | apply clamp01_high, H1].
      + right; right. split; [lra | apply clamp01_mid; lra]. }
  destruct (Hcases s) as [[Hs ->]|[[Hs ->]|[Hs ->]]];
    destruct (Hcases t) as [[Ht ->]|[[Ht ->]|[Ht ->]]];
    unfold Rabs;
    repeat match goal with
           | |- context [Rcase_abs ?a] => destruct (Rcase_abs a)
           end; lra.
Qed.

Lemma continuity_clamp01 : continuity clamp01.
Proof.
  intros t eps Heps. exists eps. split; [exact Heps|].
  intros s [_ Hs]. simpl in *. unfold R_dist in *.
  eapply Rle_lt_trans; [apply clamp01_lipschitz | exact Hs].
Qed.

Lemma continuity_sine_transition : continuity sine_transition.
Proof.
  intro t. unfold sine_transition.
  apply (continuity_pt_ext
           (mult_fct (fct_cte 0.5)
              (minus_fct (fct_cte 1) (comp cos (mult_fct (fct_cte PI) id))))).
  - intro y. reflexivity.
  - apply continuity_pt_mult; [apply continuity_pt_const; intros a b; reflexivity|].
    apply continuity_pt_minus; [apply continuity_pt_const; intros a b; reflexivity|].
    apply continuity_pt_comp; [|apply continuity_cos].
    apply continuity_pt_mult; [apply continuity_pt_const; intros a b; reflexivity|].
    apply derivable_continuous_pt, derivable_pt_id.
Qed.

Lemma continuity_ramp (a w : R) : continuity (ramp a w).
Proof.
  intro x. unfold ramp.
  apply (continuity_pt_ext
           (comp sine_transition
              (comp clamp01
                 (mult_fct (minus_fct id (fct_cte a)) (fct_cte (/ w)))))).
  - intro y. reflexivity.
  - apply continuity_pt_comp; [|apply continuity_sine_transition].
    apply continuity_pt_comp; [|apply continuity_clamp01].
    apply continuity_pt_mult; [|apply continuity_pt_const; intros p q; reflexivity].
    apply continuity_pt_minus;
      [apply derivable_continuous_pt, derivable_pt_id
      |apply continuity_pt_const; intros p q; reflexivity].
Qed.

Lemma continuity_land_factor (cfg : config) (c : R) :
  continuity (land_factor cfg c).
Proof.
  intro x. unfold land_factor.
  apply (continuity_pt_ext
           (plus_fct
              (minus_fct (fct_cte 1)
                 (ramp (c - STEG_BREITE_MM cfg / 2 - UEBERGANG_MM cfg)
                    (UEBERGANG_MM cfg)))
              (ramp (c + STEG_BREITE_MM cfg / 2) (UEBERGANG_MM cfg)))).
  - intro y. reflexivity.
  - apply continuity_pt_plus; [|apply continuity_ramp].
    apply continuity_pt_minus;
      [apply continuity_pt_const; intros p q; reflexivity
      |apply continuity_ramp].
Qed.

Lemma continuity_lands_product (cfg : config) (steg_positions : list R) :
  continuity (lands_product cfg steg_positions).
Proof.
  induction steg_positions as [|c rest IH]; intro x.
  - apply continuity_pt_const. intros p q. reflexivity.
  - apply (continuity_pt_ext
             (mult_fct (land_factor cfg c) (lands_product cfg rest))).
    + intro y. reflexivity.
    + apply continuity_pt_mult; [apply continuity_land_factor | apply IH].
Qed.

Lemma continuity_mask_closed_form
    (cfg : config) (x_total : R) (steg_positions : list R) :
  continuity (mask_closed_form cfg x_total steg_positions).
Proof.
  intro x. unfold mask_closed_form, tip_factor, butt_factor.
  apply (continuity_pt_ext
           (mult_fct
              (ramp (TIP_SOLID_MM cfg - UEBERGANG_MM cfg) (UEBERGANG_MM cfg))
              (mult_fct
                 (minus_fct (fct_cte 1)
                    (ramp (x_total - BUTT_SOLID_MM cfg) (UEBERGANG_MM cfg)))
                 (lands_product cfg steg_positions)))).
  - intro y. reflexivity.
  - apply continuity_pt_mult; [apply continuity_ramp|].
    apply continuity_pt_mult; [|apply continuity_lands_product].
    apply continuity_pt_minus;
      [apply continuity_pt_const; intros p q; reflexivity
      |apply continuity_ramp].
Qed.

(** ** Range of the mask *)

Lemma glue_lands_range (cfg : config) (x : R) (steg_positions : list R) :
  0 <= glue_lands cfg x steg_positions <= 1.
Proof.
  induction steg_positions as [|c rest IH]; cbn [glue_lands]; [lra|].
  repeat match goal with
         | |- context [if ?b then _ else _] => destruct b
         end;
    try exact IH;
    match goal with
    | |- context [sine_transition ?t] =>
        pose proof (sine_transition_range t); lra
    | _ => lra
    end.
Qed.

Lemma compute_factor_range
    (cfg : config) (x x_total : R) (steg_positions : list R) :
  0 <= compute_factor cfg x x_total steg_positions <= 1.
Proof.
  unfold compute_factor.
  repeat match goal with
         | |- context [if ?b then _ else _] => destruct b
         end;
    try apply glue_lands_range;
    match goal with
    | |- context [sine_transition ?t] =>
        pose proof (sine_transition_range t); lra
    | _ => lra
    end.
Qed.

(** ** The mask, zone by zone *)

(** C1, as amended: a glue land [steg_l, steg_r] has mask 0 on the land,
    eases from 1 to 0 over the transition before it and from 0 to 1 over
    the transition after it, and the mask is 1 in the hollow region outside
    every land and its transitions.  A terminal section carries its
    transition inside its own length: the mask is 0 up to
    [TIP_SOLID_MM - UEBERGANG_MM], eases from 0 to 1 over the last
    [UEBERGANG_MM] of the tip section and is 1 at [TIP_SOLID_MM]; it eases
    from 1 to 0 over the first [UEBERGANG_MM] of the butt section and is 0
    after that.  With no lands, the mask half a transition before the end
    of the tip section is strictly between 0 and 1, it is 1 at the end of
    the tip section and one transition later, and it does not decrease
    between those two positions. *)
Theorem mask_zone_by_zone
    (cfg : config) (x_total : R) (steg_positions : list R) :
  disjoint_layout cfg x_total steg_positions ->
  (forall c x : R, In c steg_positions ->
      (c - STEG_BREITE_MM cfg / 2 <= x <= c + STEG_BREITE_MM cfg / 2 ->
       compute_factor cfg x x_total steg_positions = 0)
      /\ (c - STEG_BREITE_MM cfg / 2 - UEBERGANG_MM cfg <= x
            <= c - STEG_BREITE_MM cfg / 2 ->
          compute_factor cfg x x_total steg_positions
          = 1 - sine_transition
                  ((x - (c - STEG_BREITE_MM cfg / 2 - UEBERGANG_MM cfg))
                   / UEBERGANG_MM cfg))
      /\ (c + STEG_BREITE_MM cfg / 2 <= x
            <= c + STEG_BREITE_MM cfg / 2 + UEBERGANG_MM cfg ->
          compute_factor cfg x x_total steg_positions
          = sine_transition
              ((x - (c + STEG_BREITE_MM cfg / 2)) / UEBERGANG_MM cfg)))
  /\ (forall x : R,
        TIP_SOLID_MM cfg <= x <= x_total - BUTT_SOLID_MM cfg ->
        (forall c : R, In c steg_positions ->
            x <= c - STEG_BREITE_MM cfg / 2 - UEBERGANG_MM cfg
            \/ c + STEG_BREITE_MM cfg / 2 + UEBERGANG_MM cfg <= x) ->
        compute_factor cfg x x_total steg_positions = 1)
  /\ (forall x : R, x <= TIP_SOLID_MM cfg - UEBERGANG_MM cfg ->
        compute_factor cfg x x_total steg_positions = 0)
  /\ (forall x : R,
        TIP_SOLID_MM cfg - UEBERGANG_MM cfg <= x < TIP_SOLID_MM cfg ->
        compute_factor cfg x x_total steg_positions
        = sine_transition
            ((x - (TIP_SOLID_MM cfg - UEBERGANG_MM cfg)) / UEBERGANG_MM cfg))
  /\ compute_factor cfg (TIP_SOLID_MM cfg) x_total steg_positions = 1
  /\ (forall x : R,
        x_total - BUTT_SOLID_MM cfg <= x
          <= x_total - BUTT_SOLID_MM cfg + UEBERGANG_MM cfg ->
        compute_factor cfg x x_total steg_positions
        = 1 - sine_transition
                ((x - (x_total - BUTT_SOLID_MM cfg)) / UEBERGANG_MM cfg))
  /\ (forall x : R,
        x_total - BUTT_SOLID_MM cfg + UEBERGANG_MM cfg <= x ->
        compute_factor cfg x x_total steg_positions = 0)
  /\ (sine_transition 0 = 0 /\ sine_transition 1 = 1
      /\ forall s t : R, 0 <= s -> s <= t -> t <= 1 ->
           sine_transition s <= sine_transition t)
  /\ (steg_positions = [] ->
      TIP_SOLID_MM cfg + UEBERGANG_MM cfg <= x_total - BUTT_SOLID_MM cfg ->
      0 < compute_factor cfg (TIP_SOLID_MM cfg - UEBERGANG_MM cfg / 2)
            x_total steg_positions < 1
      /\ compute_factor cfg (TIP_SOLID_MM cfg + UEBERGANG_MM cfg)
           x_total steg_positions = 1
      /\ forall x y : R,
           TIP_SOLID_MM cfg <= x -> x <= y ->
           y <= TIP_SOLID_MM cfg + UEBERGANG_MM cfg ->
           compute_factor cfg x x_total steg_positions
           <= compute_factor cfg y x_total steg_positions).
Proof.
  intro Hlay. pose proof Hlay as [Hw [HB [Htb [Hap Hall]]]].
  pose proof (compute_factor_closed_form cfg Hw HB x_total steg_positions Hlay)
    as Hcf.
  assert (Hhollow : forall x : R,
             TIP_SOLID_MM cfg <= x <= x_total - BUTT_SOLID_MM cfg ->
             compute_factor cfg x x_total steg_positions
             = lands_product cfg steg_positions x).
  { intros x Hx. rewrite Hcf. unfold mask_closed_form, tip_factor, butt_factor.
    rewrite ramp_high by lra. rewrite ramp_low by lra. lra. }
  assert (Hone : forall x : R,
             TIP_SOLID_MM cfg <= x <= x_total - BUTT_SOLID_MM cfg ->
             (forall c : R, In c steg_positions ->
                 x <= c - STEG_BREITE_MM cfg / 2 - UEBERGANG_MM cfg
                 \/ c + STEG_BREITE_MM cfg / 2 + UEBERGANG_MM cfg <= x) ->
             compute_factor cfg x x_total steg_positions = 1).
  { intros x Hx Hout. rewrite Hhollow by exact Hx.
    apply lands_product_outside; assumption. }
  assert (Htip : compute_factor cfg (TIP_SOLID_MM cfg) x_total steg_positions
                 = 1).
  { rewrite Hhollow by lra.
    apply (lands_product_before cfg Hw HB _ (TIP_SOLID_MM cfg)); [exact Hap | lra]. }
  split; [|split; [|split; [|split; [|split; [|split; [|split; [|split]]]]]]].
  - intros c x Hin.
    pose proof (lands_apart_lower cfg Hw HB _ _ _ Hap Hin) as Hlow.
    pose proof (proj1 (Forall_forall _ _) Hall c Hin) as Hhigh. simpl in Hhigh.
    assert (Hland : c - STEG_BREITE_MM cfg / 2 - UEBERGANG_MM cfg <= x
                      <= c + STEG_BREITE_MM cfg / 2 + UEBERGANG_MM cfg ->
                    compute_factor cfg x x_total steg_positions
                    = land_factor cfg c x).
    { intro Hx. rewrite Hhollow by lra.
      apply (lands_product_at cfg Hw HB _ (TIP_SOLID_MM cfg)); assumption. }
    split; [|split]; intro Hx; rewrite Hland by lra.
    + apply land_factor_inside; assumption.
    + apply land_factor_entry; assumption.
    + apply land_factor_exit; assumption.
  - exact Hone.
  - intros x Hx. rewrite Hcf. unfold mask_closed_form, tip_factor.
    rewrite ramp_low by lra. lra.
  - intros x Hx. rewrite Hcf. unfold mask_closed_form, tip_factor, butt_factor.
    rewrite ramp_mid by lra. rewrite ramp_low by lra.
    rewrite (lands_product_before cfg Hw HB _ (TIP_SOLID_MM cfg))
      by (try exact Hap; lra).
    lra.
  - exact Htip.
  - intros x Hx. rewrite Hcf. unfold mask_closed_form, tip_factor, butt_factor.
    rewrite ramp_high by lra. rewrite ramp_mid by lra.
    rewrite (lands_product_after cfg Hw HB _ (x_total - BUTT_SOLID_MM cfg))
      by (try exact Hall; lra).
    lra.
  - intros x Hx. rewrite Hcf. unfold mask_closed_form, tip_factor, butt_factor.
    rewrite ramp_high by lra. rewrite ramp_high by lra. lra.
  - split; [apply sine_transition_0|].
    split; [apply sine_transition_1|]. apply sine_transition_increasing.
  - intros Hnil Hroom.
    assert (Hflat : forall x : R,
               TIP_SOLID_MM cfg <= x <= TIP_SOLID_MM cfg + UEBERGANG_MM cfg ->
               compute_factor cfg x x_total steg_positions = 1).
    { intros x Hx. apply Hone; [lra|]. rewrite Hnil. intros c []. }
    split; [|split].
    + rewrite Hcf. unfold mask_closed_form, tip_factor, butt_factor.
      rewrite ramp_mid by lra. rewrite ramp_low by lra.
      rewrite (lands_product_before cfg Hw HB _ (TIP_SOLID_MM cfg))
        by (try exact Hap; lra).
      assert (Hhalf : (TIP_SOLID_MM cfg - UEBERGANG_MM cfg / 2
                       - (TIP_SOLID_MM cfg - UEBERGANG_MM cfg))
                      / UEBERGANG_MM cfg = / 2) by (field; lra).
      rewrite Hhalf.
      pose proof (sine_transition_inside (/ 2)) as Hin.
      lra.
    + apply Hflat. lra.
    + intros x y Hx Hxy Hy. rewrite !Hflat by lra. lra.
Qed.

(** C2: when the zones are laid out apart, the mask lies in [0, 1] at
    every position and is continuous at every position, zone boundaries
    included. *)
Theorem mask_in_unit_interval_and_continuous
    (cfg : config) (x_total : R) (steg_positions : list R) :
  disjoint_layout cfg x_total steg_positions ->
  forall x : R,
    0 <= compute_factor cfg x x_total steg_positions <= 1
    /\ continuity_pt (fun y => compute_factor cfg y x_total steg_positions) x.
Proof.
  intros Hlay x. split; [apply compute_factor_range|].
  pose proof Hlay as [Hw [HB _]].
  apply (continuity_pt_ext (mask_closed_form cfg x_total steg_positions)).
  - intro y. symmetry.
    apply (compute_factor_closed_form cfg Hw HB x_total steg_positions Hlay).
  - apply continuity_mask_closed_form.
Qed.

(** ** Glue-land centres *)

Section Lands.

Variable cfg : config.
Hypothesis pitch_pos : 0 < STEG_ABSTAND_MM cfg.

Lemma steg_loop_spec (hohl_end : R) (N : nat) :
  forall x : R,
    hohl_end <= x + INR N * STEG_ABSTAND_MM cfg ->
    exists n : nat,
      (forall (stege : list R) (fuel : nat),
          (N < fuel)%nat ->
          steg_loop cfg fuel stege x hohl_end
          = Return (stege ++ map (fun k => x + INR k * STEG_ABSTAND_MM cfg)
                                 (seq 0 n)))
      /\ (forall k : nat,
            x + INR k * STEG_ABSTAND_MM cfg < hohl_end <-> (k < n)%nat).
Proof.
  induction N as [|N IH]; intros x Hreach.
  - simpl in Hreach.
    assert (E : Rltb x hohl_end = false) by (apply Rltb_false; lra).
    exists O. split.
    + intros stege [|fuel] Hfuel; [lia|]. cbn [steg_loop].
      rewrite E. simpl. rewrite app_nil_r. reflexivity.
    + intro k. split; [|lia]. intro Hk. pose proof (pos_INR k). nra.
  - destruct (Rltb x hohl_end) eqn:E;
      [apply Rltb_true in E | apply Rltb_false in E].
    + destruct (IH (x + STEG_ABSTAND_MM cfg)) as [n [Hrun Hcount]];
        [rewrite S_INR in Hreach; lra|].
      exists (S n). split.
      * intros stege [|fuel] Hfuel; [lia|]. cbn [steg_loop].
        apply Rltb_true in E. rewrite E.
        rewrite Hrun by lia. rewrite <- app_assoc. f_equal. cbn [seq map app].
        apply (f_equal2 (fun a l => stege ++ a :: l)).
        { simpl. lra. }
        rewrite <- seq_shift, map_map. apply map_ext. intro k.
        rewrite S_INR. lra.
      * intro k. destruct k as [|k].
        { simpl. split; [lia|]. intros _. lra. }
        rewrite <- Nat.succ_lt_mono, <- Hcount, S_INR. split; intro; lra.
    + exists O. split.
      * intros stege [|fuel] Hfuel; [lia|]. cbn [steg_loop].
        apply Rltb_false in E. rewrite E. simpl. rewrite app_nil_r. reflexivity.
      * intro k. split; [|lia]. intro Hk. pose proof (pos_INR k). nra.
Qed.

End Lands.

(** ** The toolpath loop *)

Section Toolpath.

Variable cfg : config.
Variable stations : list (R * R).
Variable steg_positions : list R.

Let x_total : R := last_position stations.

Hypothesis step_pos : 0 < SCHRITT_MM cfg.
Hypothesis two_stations : (2 <= length stations)%nat.
Hypothesis sorted : increasing stations.

Lemma first_le_total : first_position stations <= x_total.
Proof.
  unfold x_total. destruct stations as [|a rest]; [simpl in two_stations; lia|].
  apply increasing_first_le_last, sorted.
Qed.

Lemma build_loop_spec (N : nat) :
  forall x : R,
    first_position stations <= x ->
    x_total <= x + INR N * SCHRITT_MM cfg ->
    exists samples : list (R * R),
      (forall (path : list (R * R)) (fuel : nat),
          (N < fuel)%nat ->
          build_loop cfg fuel stations x_total steg_positions path x
          = Return (path ++ samples, BreakAtEnd))
      /\ samples <> []
      /\ fst (last samples (0, 0)) = x_total
      /\ Forall (sample_ok cfg stations steg_positions) samples
      /\ map fst samples
         = map (fun k => Rmin (x + INR k * SCHRITT_MM cfg) x_total)
             (seq 0 (length samples))
      /\ (forall k : nat, (S k < length samples)%nat ->
            x + INR k * SCHRITT_MM cfg < x_total).
Proof.
  pose proof first_le_total as Hft.
  assert (Hend : forall x path fuel,
             first_position stations <= x -> x_total <= Rmin x x_total ->
             exists z,
               sample_ok cfg stations steg_positions (x_total, z)
               /\ build_loop cfg (S fuel) stations x_total steg_positions path x
                  = Return (path ++ [(x_total, z)], BreakAtEnd)).
  { intros x path fuel Hlo Hge.
    assert (Hmin : Rmin x x_total = x_total)
      by (pose proof (Rmin_r x x_total); lra).
    destruct (interpolate_spec x_total stations two_stations sorted)
      as [dim Hdim]; [fold x_total; lra|].
    exists (- Rmax 0 (dim / 2 - WANDSTAERKE_MM cfg)
            * compute_factor cfg x_total x_total steg_positions).
    split.
    - exists dim. split; [exact Hdim | reflexivity].
    - cbn [build_loop]. rewrite Hmin, Hdim. cbn [bind fst snd].
      assert (E : Rgeb x_total x_total = true) by (apply Rleb_true; lra).
      rewrite E. reflexivity. }
  assert (Hstop : forall x, first_position stations <= x ->
             x_total <= Rmin x x_total ->
             exists samples : list (R * R),
               (forall path fuel, (0 < fuel)%nat ->
                   build_loop cfg fuel stations x_total steg_positions path x
                   = Return (path ++ samples, BreakAtEnd))
               /\ samples <> []
               /\ fst (last samples (0, 0)) = x_total
               /\ Forall (sample_ok cfg stations steg_positions) samples
               /\ map fst samples
                  = map (fun k => Rmin (x + INR k * SCHRITT_MM cfg) x_total)
                      (seq 0 (length samples))
               /\ (forall k : nat, (S k < length samples)%nat ->
                     x + INR k * SCHRITT_MM cfg < x_total)).
  { intros x Hlo Hge.
    destruct (Hend x [] O Hlo Hge) as [z [Hz _]].
    exists [(x_total, z)]. split.
    - intros path [|fuel] Hfuel; [lia|].
      destruct (Hend x path fuel Hlo Hge) as [z' [Hz' Hrun]].
      rewrite Hrun. do 3 f_equal.
      destruct Hz as [d [Hd Hzd]], Hz' as [d' [Hd' Hzd']]. simpl in *.
      rewrite Hd in Hd'. inversion Hd'; subst d'. f_equal. congruence.
    - split; [discriminate|]. split; [reflexivity|]. split.
      + constructor; [exact Hz | constructor].
      + split.
        * simpl. f_equal. rewrite Rmult_0_l, Rplus_0_r.
          pose proof (Rmin_r x x_total); lra.
        * simpl. intros k Hk. lia. }
  induction N as [|N IH]; intros x Hlo Hreach.
  - simpl in Hreach.
    destruct (Hstop x Hlo) as [samples [Hrun Hrest]];
      [rewrite Rmin_right; lra|].
    exists samples. split; [|exact Hrest].
    intros path fuel Hfuel. apply Hrun. lia.
  - destruct (Rle_dec x_total (Rmin x x_total)) as [Hge|Hlt].
    + destruct (Hstop x Hlo Hge) as [samples [Hrun Hrest]].
      exists samples. split; [|exact Hrest].
      intros path fuel Hfuel. apply Hrun. lia.
    + assert (Hx : x < x_total).
      { unfold Rmin in Hlt. destruct (Rle_dec x x_total); lra. }
      assert (Hmin : Rmin x x_total = x) by (apply Rmin_left; lra).
      destruct (interpolate_spec x stations two_stations sorted)
        as [dim Hdim]; [fold x_total; lra|].
      destruct (IH (x + SCHRITT_MM cfg))
        as [samples [Hrun [Hne [Hlast [Hok [Hpos Hbelow]]]]]];
        [lra | rewrite S_INR in Hreach; lra |].
      exists ((x, - Rmax 0 (dim / 2 - WANDSTAERKE_MM cfg)
                  * compute_factor cfg x x_total steg_positions) :: samples).
      split.
      { intros path [|fuel] Hfuel; [lia|]. cbn [build_loop].
        rewrite Hmin, Hdim. cbn [bind].
        assert (E : Rgeb x x_total = false) by (apply Rleb_false; lra).
        rewrite E, Hrun by lia. rewrite <- app_assoc. reflexivity. }
      split; [discriminate|]. split.
      { destruct samples; [contradiction | exact Hlast]. }
      split.
      { constructor; [|exact Hok]. exists dim. simpl. split; [exact Hdim|reflexivity]. }
      split.
      { cbn [map length seq fst].
        apply (f_equal2 (fun a l => a :: l)).
        - simpl. rewrite Rmult_0_l, Rplus_0_r. symmetry; exact Hmin.
        - rewrite Hpos, <- seq_shift, map_map. apply map_ext. intro k.
          rewrite S_INR. f_equal. lra. }
      { intros k Hk. simpl in Hk. destruct k as [|k]; [simpl; lra|].
        assert (Hk' : (S k < length samples)%nat) by lia.
        specialize (Hbelow k Hk'). rewrite S_INR. lra. }
Qed.

Lemma build_loop_safe (fuel : nat) :
  forall (x : R) (path : list (R * R)),
    first_position stations <= x ->
    Forall (in_span stations) path ->
    match build_loop cfg fuel stations x_total steg_positions path x with
    | OutOfFuel => True
    | Return (p, BreakAtEnd) => Forall (in_span stations) p
    | Return (_, BreakOutOfRange) => False
    | ZeroDivisionError => False
    | IndexError => False
    end.
Proof.
  pose proof first_le_total as Hft.
  induction fuel as [|fuel IH]; intros x path Hlo Hpath; cbn [build_loop];
    [exact I|].
  assert (Hin : first_position stations <= Rmin x x_total <= x_total)
    by (split; [apply Rmin_glb; lra | apply Rmin_r]).
  destruct (interpolate_spec (Rmin x x_total) stations two_stations sorted)
    as [dim Hdim]; [exact Hin|].
  rewrite Hdim. cbn [bind].
  assert (Hpath' : Forall (in_span stations)
            (path ++ [(Rmin x x_total,
                       - Rmax 0 (dim / 2 - WANDSTAERKE_MM cfg)
                       * compute_factor cfg (Rmin x x_total) x_total
                           steg_positions)])).
  { apply Forall_app. split; [exact Hpath|]. constructor; [exact Hin|constructor]. }
  destruct (Rgeb (Rmin x x_total) x_total); [exact Hpath'|].
  apply IH; [lra | exact Hpath'].
Qed.

End Toolpath.

(** A table whose first station lies after position 0 gives no sample: the
    first position asked for is outside the span. *)
Lemma toolpath_empty_when_table_starts_late
    (cfg : config) (stations : list (R * R)) (steg_positions : list R)
    (fuel : nat) :
  increasing stations ->
  (1 <= length stations)%nat ->
  0 < first_position stations ->
  build_toolpath cfg (S fuel) stations (last_position stations) steg_positions
  = Return ([], BreakOutOfRange).
Proof.
  intros Hinc Hlen Hlate.
  assert (Hft : first_position stations <= last_position stations).
  { destruct stations as [|a rest]; [simpl in Hlen; lia|].
    apply increasing_first_le_last, Hinc. }
  unfold build_toolpath. cbn [build_loop].
  rewrite Rmin_left by lra.
  rewrite interpolate_below by assumption. reflexivity.
Qed.

(** On a table that is not empty the script computes the lands once, from
    the last station, and hands the list to the toolpath loop. *)
Lemma main_on_table (cfg : config) (fuel : nat) (stations : list (R * R)) :
  stations <> [] ->
  main cfg fuel stations
  = (steg_positions <-
       compute_steg_positions cfg fuel (last_position stations) ;;
     built <-
       build_toolpath cfg fuel stations (last_position stations)
         steg_positions ;;
     Return (generate_gcode cfg (fst built))).
Proof.
  intro Hne. destruct stations as [|s rest]; [contradiction | reflexivity].
Qed.

(** C5, as amended: with a positive step, on a table of at least two
    stations with increasing positions.  When the table starts at or
    before position 0, the toolpath loop ends (every large enough fuel
    gives the same path, left through the end-of-length [break]); the path
    is not empty, its last sample sits exactly on the total length and
    every sample before it lies strictly below the total length; every
    sample's depth is [- max(0, dim/2 - wall) * compute_factor(position)].
    When the table starts after position 0, the loop is left at once
    through the out-of-range [break] and stores no sample. *)
Theorem toolpath_ends_on_total_length
    (cfg : config) (stations : list (R * R)) (steg_positions : list R) :
  0 < SCHRITT_MM cfg ->
  (2 <= length stations)%nat ->
  increasing stations ->
  (first_position stations <= 0 ->
   exists (fuel0 : nat) (path : list (R * R)),
     (forall fuel : nat, (fuel0 <= fuel)%nat ->
         build_toolpath cfg fuel stations (last_position stations)
           steg_positions
         = Return (path, BreakAtEnd))
     /\ path <> []
     /\ fst (last path (0, 0)) = last_position stations
     /\ (forall k : nat, (S k < length path)%nat ->
           fst (nth k path (0, 0)) < last_position stations)
     /\ Forall (sample_ok cfg stations steg_positions) path)
  /\ (0 < first_position stations ->
      forall fuel : nat,
        build_toolpath cfg (S fuel) stations (last_position stations)
          steg_positions
        = Return ([], BreakOutOfRange)).
Proof.
  intros Hstep Hlen Hinc. split.
  - intro Hfirst.
    destruct (steps_reach 0 (last_position stations) (SCHRITT_MM cfg) Hstep)
      as [N HN].
    destruct (build_loop_spec cfg stations steg_positions Hstep Hlen Hinc N 0
                Hfirst HN)
      as [samples [Hrun [Hne [Hlast [Hok [Hpos Hbelow]]]]]].
    exists (S N), samples. split.
    + intros fuel Hfuel. unfold build_toolpath. rewrite Hrun by lia.
      reflexivity.
    + split; [exact Hne|]. split; [exact Hlast|]. split; [|exact Hok].
      intros k Hk. specialize (Hbelow k Hk).
      rewrite <- (map_nth fst samples (0, 0) k). cbn [fst].
      rewrite Hpos.
      rewrite (nth_indep _ 0
                 (Rmin (0 + INR 0 * SCHRITT_MM cfg) (last_position stations)))
        by (rewrite length_map, length_seq; lia).
      rewrite (map_nth
                 (fun k => Rmin (0 + INR k * SCHRITT_MM cfg)
                             (last_position stations))).
      rewrite seq_nth by lia. cbn [Nat.add].
      rewrite Rmin_left by lra. lra.
  - intros Hlate fuel.
    apply toolpath_empty_when_table_starts_late; [exact Hinc | lia | exact Hlate].
Qed.

(** C5, as stated, fails on a table that starts after position 0: with
    stations at 10 and 20 the first position asked for, 0, is outside the
    table, the loop leaves through the out-of-range [break] and stores no
    sample, so no sample sits on the total length 20; the script still
    returns a program, which holds no cutting move. *)
Lemma toolpath_of_a_late_table_is_empty :
  0 < SCHRITT_MM reference
  /\ increasing [(10, 2); (20, 3)]
  /\ last_position [(10, 2); (20, 3)] = 20
  /\ (forall fuel : nat,
        build_toolpath reference (S fuel) [(10, 2); (20, 3)] 20 []
        = Return ([], BreakOutOfRange))
  /\ (forall fuel : nat,
        main reference (S fuel) [(10, 2); (20, 3)]
        = Return (preamble reference ++ closing reference)).
Proof.
  assert (Hinc : increasing [(10, 2); (20, 3)]) by (simpl; lra).
  assert (Hlate : forall (fuel : nat) (lands : list R),
             build_toolpath reference (S fuel) [(10, 2); (20, 3)] 20 lands
             = Return ([], BreakOutOfRange)).
  { intros fuel lands.
    apply (toolpath_empty_when_table_starts_late reference
             [(10, 2); (20, 3)] lands fuel Hinc);
      [simpl; lia | unfold first_position; cbn [hd fst]; lra]. }
  split; [cbn [SCHRITT_MM reference]; lra|].
  split; [exact Hinc|]. split; [reflexivity|].
  split; [intro fuel; apply Hlate|].
  intro fuel. rewrite main_on_table by discriminate.
  change (last_position [(10, 2); (20, 3)]) with 20.
  unfold compute_steg_positions. cbn [steg_loop].
  assert (E : Rltb (TIP_SOLID_MM reference + STEG_ABSTAND_MM reference)
                (20 - BUTT_SOLID_MM reference) = false)
    by (apply Rltb_false; simpl; lra).
  rewrite E. cbn [bind]. rewrite Hlate. reflexivity.
Qed.

(** C8: under the same conditions the loop never leaves through the
    out-of-range [break] and never divides by zero, whatever the fuel: a
    run that ends has ended at the total length, and every position it
    sampled lies in the span of the table. *)
Theorem out_of_range_break_unreachable
    (cfg : config) (stations : list (R * R)) (steg_positions : list R)
    (fuel : nat) :
  0 < SCHRITT_MM cfg ->
  (2 <= length stations)%nat ->
  increasing stations ->
  first_position stations <= 0 ->
  (forall x : R, 0 <= x ->
      first_position stations <= Rmin x (last_position stations)
      <= last_position stations)
  /\ (forall path : list (R * R),
        build_toolpath cfg fuel stations (last_position stations) steg_positions
        <> Return (path, BreakOutOfRange))
  /\ build_toolpath cfg fuel stations (last_position stations) steg_positions
     <> ZeroDivisionError
  /\ (forall (path : list (R * R)) (e : loop_exit),
        build_toolpath cfg fuel stations (last_position stations) steg_positions
        = Return (path, e) ->
        e = BreakAtEnd /\ Forall (in_span stations) path).
Proof.
  intros Hstep Hlen Hinc Hfirst.
  pose proof (build_loop_safe cfg stations steg_positions Hstep Hlen Hinc
                fuel 0 [] Hfirst (Forall_nil _)) as Hsafe.
  pose proof (first_le_total stations Hlen Hinc) as Hft.
  unfold build_toolpath.
  destruct (build_loop cfg fuel stations (last_position stations)
              steg_positions [] 0) as [[p e]| | |].
  - destruct e; [contradiction|].
    split; [|split; [|split]].
    + intros x Hx. split; [apply Rmin_glb; lra | apply Rmin_r].
    + intros path H. discriminate.
    + discriminate.
    + intros path e H. inversion H; subst. split; [reflexivity | exact Hsafe].
  - contradiction.
  - split; [|split; [|split]].
    + intros x Hx. split; [apply Rmin_glb; lra | apply Rmin_r].
    + intros path H. discriminate.
    + discriminate.
    + intros path e H. discriminate.
  - contradiction.
Qed.

(** Over the reals, with a positive pitch, the land centres are, in
    order, exactly [TIP_SOLID_MM + k * STEG_ABSTAND_MM] for [k = 1 .. n],
    where [n] counts the multiples that stay strictly below the end of the
    hollow region [x_total - BUTT_SOLID_MM]; the loop ends for every large
    enough fuel. *)
Lemma pitch_multiples_in_exact_arithmetic (cfg : config) (x_total : R) :
  0 < STEG_ABSTAND_MM cfg ->
  exists n fuel0 : nat,
    (forall fuel : nat, (fuel0 <= fuel)%nat ->
        compute_steg_positions cfg fuel x_total
        = Return (map (fun k => TIP_SOLID_MM cfg + INR k * STEG_ABSTAND_MM cfg)
                      (seq 1 n)))
    /\ (forall k : nat, (1 <= k)%nat ->
          (TIP_SOLID_MM cfg + INR k * STEG_ABSTAND_MM cfg
             < x_total - BUTT_SOLID_MM cfg
           <-> (k <= n)%nat)).
Proof.
  intro Hpitch.
  destruct (steps_reach (TIP_SOLID_MM cfg + STEG_ABSTAND_MM cfg)
              (x_total - BUTT_SOLID_MM cfg) (STEG_ABSTAND_MM cfg) Hpitch)
    as [N HN].
  destruct (steg_loop_spec cfg Hpitch (x_total - BUTT_SOLID_MM cfg) N
              (TIP_SOLID_MM cfg + STEG_ABSTAND_MM cfg) HN)
    as [n [Hrun Hcount]].
  exists n, (S N). split.
  - intros fuel Hfuel. unfold compute_steg_positions.
    rewrite Hrun by lia. simpl app. f_equal.
    rewrite <- seq_shift, map_map. apply map_ext. intro k.
    rewrite S_INR. lra.
  - intros k Hk. destruct k as [|k]; [lia|].
    change (S k <= n)%nat with (k < n)%nat.
    rewrite <- Hcount, S_INR. split; intro; lra.
Qed.

(** ** Emission *)

Lemma emit_path_retracted (cfg : config) (path : list (R * R)) :
  Forall (fun s => - 0.01 <= snd s) path ->
  forall lines : list directive,
    emit_path cfg path lines false = (lines, false).
Proof.
  induction 1 as [|[x z] rest Hz _ IH]; intro lines; cbn [emit_path];
    [reflexivity|].
  simpl in Hz.
  assert (E : Rltb z (- 0.01) = false) by (apply Rltb_false; lra).
  rewrite E. apply IH.
Qed.

(** C6, as amended: when no sample is deeper than the engagement tolerance
    (as when the mask is 0 at every sample), the generator returns a
    stream, and that stream is the preamble followed by the closing lines:
    the loop adds nothing.  It holds no linear (cutting) move; its moves
    are four rapid moves and the program end: to the safe height and to X0
    before the pass, the retract to the safe height and the homing to X0
    after it. *)
Theorem all_suppressed_stream (cfg : config) (path : list (R * R)) :
  Forall (fun s => - 0.01 <= snd s) path ->
  generate_gcode cfg path = preamble cfg ++ closing cfg
  /\ filter is_linear (generate_gcode cfg path) = []
  /\ filter is_motion (generate_gcode cfg path)
     = [ RAPID_MOVE [(AZ, Z_RAPID cfg)] "";
         RAPID_MOVE [(AX, 0)] "";
         RAPID_MOVE [(AZ, Z_RAPID cfg)] "retract";
         RAPID_MOVE [(AX, 0)] "home";
         PROGRAM_END ]
  /\ length (filter Reading.is_rapid (generate_gcode cfg path)) = 4%nat.
Proof.
  intro Hpath.
  assert (Hgen : generate_gcode cfg path = preamble cfg ++ closing cfg).
  { unfold generate_gcode. rewrite emit_path_retracted by exact Hpath.
    reflexivity. }
  rewrite Hgen. repeat split.
Qed.

(** C6, as stated, fails in the count: for two samples at the surface the
    stream holds four rapid moves, two before the pass and two after it,
    and five motion lines with the program end, not one rapid positioning
    and one retract. *)
Lemma suppressed_stream_has_four_rapids :
  Forall (fun s : R * R => - 0.01 <= snd s) [(0, 0); (1, 0)]
  /\ filter is_linear (generate_gcode reference [(0, 0); (1, 0)]) = []
  /\ length (filter Reading.is_rapid (generate_gcode reference [(0, 0); (1, 0)]))
     = 4%nat
  /\ length (filter Reading.is_rapid (generate_gcode reference [(0, 0); (1, 0)]))
     <> 2%nat
  /\ length (filter is_motion (generate_gcode reference [(0, 0); (1, 0)]))
     = 5%nat.
Proof.
  assert (Hflat : Forall (fun s : R * R => - 0.01 <= snd s) [(0, 0); (1, 0)])
    by (repeat constructor; simpl; lra).
  assert (Hgen : generate_gcode reference [(0, 0); (1, 0)]
                 = preamble reference ++ closing reference).
  { unfold generate_gcode. rewrite emit_path_retracted by exact Hflat.
    reflexivity. }
  rewrite Hgen. split; [exact Hflat|]. split; [reflexivity|].
  split; [reflexivity|]. split; [cbn; lia | reflexivity].
Qed.

(** A cut between two retracted samples: one approach, one plain cutting
    move, one closing move. *)
Example emit_path_single_cut :
  emit_path reference [(0, 0); (1, -1); (2, -1); (3, 0)] [] false
  = ([ RAPID_MOVE [(AX, 1)] "";
       LINEAR_MOVE [(AZ, -1)] 200 "";
       LINEAR_MOVE [(AX, 2); (AZ, -1)] 200 "";
       LINEAR_MOVE [(AX, 3); (AZ, 0)] 200 "-> land/end" ],
     false).
Proof. cbn [emit_path]. settle. reflexivity. Qed.

(** ** The reference configuration *)

(** The taper table of the file, in millimetres. *)
Lemma reference_table_well_formed :
  (2 <= length stations_mm)%nat
  /\ increasing stations_mm
  /\ first_position stations_mm <= 0
  /\ last_position stations_mm = 1524.
Proof.
  unfold stations_mm, taper_data, ZOLL_ZU_MM, first_position, last_position.
  cbn [map fst snd hd last length increasing].
  repeat split; try lra. lia.
Defined.

Lemma reference_layout_without_lands : disjoint_layout reference 1524 [].
Proof.
  unfold disjoint_layout. cbn. repeat split; try lra. constructor.
Defined.

(** C1, as stated, fails at the end of the tip section: with a tip section
    of 80, a transition of 8 and no lands, the mask at 80 is 1 and not 0,
    and at 76, inside the section, it is 0.5 and not 0. *)
Lemma mask_at_tip_section_end :
  compute_factor reference 80 1524 [] = 1
  /\ compute_factor reference 80 1524 [] <> 0
  /\ compute_factor reference 76 1524 [] = 0.5.
Proof.
  assert (H80 : compute_factor reference 80 1524 [] = 1).
  { unfold compute_factor, Rgtb. cbn [TIP_SOLID_MM UEBERGANG_MM BUTT_SOLID_MM
      reference glue_lands]. settle. reflexivity. }
  split; [exact H80|]. split; [rewrite H80; lra|].
  unfold compute_factor, Rgtb. cbn [TIP_SOLID_MM UEBERGANG_MM BUTT_SOLID_MM
    reference glue_lands]. settle.
  replace ((76 - (80 - 8)) / 8) with 0.5 by lra.
  apply sine_transition_half.
Qed.

(** The tip section of 80 with a transition of 8 and no lands. *)
Lemma mask_zone_by_zone_reference :
  disjoint_layout reference 1524 []
  /\ 0 < compute_factor reference 76 1524 [] < 1
  /\ compute_factor reference 80 1524 [] = 1
  /\ compute_factor reference 88 1524 [] = 1
  /\ (forall x y : R, 80 <= x -> x <= y -> y <= 88 ->
        compute_factor reference x 1524 [] <= compute_factor reference y 1524 []).
Proof.
  pose proof (mask_zone_by_zone reference 1524 []
                reference_layout_without_lands) as H.
  destruct H as [_ [_ [_ [_ [Htip [_ [_ [_ Hscenario]]]]]]]].
  cbn [TIP_SOLID_MM UEBERGANG_MM BUTT_SOLID_MM reference] in Htip, Hscenario.
  destruct (Hscenario eq_refl) as [Hmid [Hafter Hmono]]; [lra|].
  replace (80 - 8 / 2) with 76 in Hmid by lra.
  replace (80 + 8) with 88 in Hafter, Hmono by lra.
  split; [exact reference_layout_without_lands|].
  split; [exact Hmid|]. split; [exact Htip|]. split; [exact Hafter|].
  exact Hmono.
Defined.

Lemma reference_layout_with_lands :
  disjoint_layout reference 1524 (map (fun k => 80 + INR k * 150) (seq 1 9)).
Proof.
  unfold disjoint_layout. cbn. repeat split; try lra.
  repeat constructor; lra.
Defined.

(** The reference rod with its nine lands. *)
Lemma mask_continuous_reference :
  disjoint_layout reference 1524 (map (fun k => 80 + INR k * 150) (seq 1 9))
  /\ forall x : R,
       0 <= compute_factor reference x 1524
              (map (fun k => 80 + INR k * 150) (seq 1 9)) <= 1
       /\ continuity_pt
            (fun y => compute_factor reference y 1524
                        (map (fun k => 80 + INR k * 150) (seq 1 9))) x.
Proof.
  split; [exact reference_layout_with_lands|].
  exact (mask_in_unit_interval_and_continuous reference 1524 _
           reference_layout_with_lands).
Defined.

(** The nine lands of the reference rod. *)
Lemma reference_steg_positions :
  0 < STEG_ABSTAND_MM reference
  /\ exists fuel0 : nat,
       forall fuel : nat, (fuel0 <= fuel)%nat ->
         compute_steg_positions reference fuel 1524
         = Return (map (fun k => 80 + INR k * 150) (seq 1 9)).
Proof.
  assert (Hpitch : 0 < STEG_ABSTAND_MM reference) by (simpl; lra).
  split; [exact Hpitch|].
  destruct (pitch_multiples_in_exact_arithmetic reference 1524 Hpitch)
    as [n [fuel0 [Hrun Hcount]]].
  assert (Hn : n = 9%nat).
  { pose proof (Hcount 9%nat) as H9. pose proof (Hcount 10%nat) as H10.
    cbn in H9, H10.
    assert (Hge : (9 <= n)%nat) by (apply H9; [lia | lra]).
    assert (Hlt : ~ (10 <= n)%nat)
      by (intro Hten; apply H10 in Hten; [lra | lia]).
    lia. }
  subst n. exists fuel0. exact Hrun.
Defined.

(** The reference table at 762 mm. *)
Lemma interpolate_dimension_in_span_reference :
  ((exists d, interpolate_dimension 762 stations_mm = Return (Some d))
     <-> first_position stations_mm <= 762 <= last_position stations_mm)
  /\ (~ (first_position stations_mm <= 762 <= last_position stations_mm)
        -> interpolate_dimension 762 stations_mm = Return None).
Proof.
  destruct reference_table_well_formed as [Hlen [Hinc _]].
  exact (interpolate_dimension_in_span_iff 762 stations_mm Hlen Hinc).
Defined.

(** The reference table sampled at 1 mm. *)
Lemma toolpath_ends_reference :
  exists (fuel0 : nat) (path : list (R * R)),
    (forall fuel : nat, (fuel0 <= fuel)%nat ->
        build_toolpath reference fuel stations_mm (last_position stations_mm) []
        = Return (path, BreakAtEnd))
    /\ path <> []
    /\ fst (last path (0, 0)) = last_position stations_mm
    /\ (forall k : nat, (S k < length path)%nat ->
          fst (nth k path (0, 0)) < last_position stations_mm)
    /\ Forall (sample_ok reference stations_mm []) path.
Proof.
  destruct reference_table_well_formed as [Hlen [Hinc [Hfirst _]]].
  assert (Hstep : 0 < SCHRITT_MM reference) by (simpl; lra).
  destruct (toolpath_ends_on_total_length reference stations_mm []
              Hstep Hlen Hinc) as [Hends _].
  exact (Hends Hfirst).
Defined.

(** The reference table, ten iterations of fuel. *)
Lemma out_of_range_break_unreachable_reference :
  (forall x : R, 0 <= x ->
      first_position stations_mm <= Rmin x (last_position stations_mm)
      <= last_position stations_mm)
  /\ (forall path : list (R * R),
        build_toolpath reference 10 stations_mm (last_position stations_mm) []
        <> Return (path, BreakOutOfRange))
  /\ build_toolpath reference 10 stations_mm (last_position stations_mm) []
     <> ZeroDivisionError
  /\ (forall (path : list (R * R)) (e : loop_exit),
        build_toolpath reference 10 stations_mm (last_position stations_mm) []
        = Return (path, e) ->
        e = BreakAtEnd /\ Forall (in_span stations_mm) path).
Proof.
  destruct reference_table_well_formed as [Hlen [Hinc [Hfirst _]]].
  apply (out_of_range_break_unreachable reference stations_mm [] 10);
    [simpl; lra | exact Hlen | exact Hinc | exact Hfirst].
Defined.

(** Two samples at the surface. *)
Lemma all_suppressed_stream_flat :
  Forall (fun s : R * R => - 0.01 <= snd s) [(0, 0); (1, 0)]
  /\ generate_gcode reference [(0, 0); (1, 0)]
     = preamble reference ++ closing reference
  /\ filter is_linear (generate_gcode reference [(0, 0); (1, 0)]) = []
  /\ length (filter Reading.is_rapid (generate_gcode reference [(0, 0); (1, 0)]))
     = 4%nat.
Proof.
  assert (Hflat : Forall (fun s : R * R => - 0.01 <= snd s) [(0, 0); (1, 0)])
    by (repeat constructor; simpl; lra).
  destruct (all_suppressed_stream reference _ Hflat)
    as [Hgen [Hlin [_ Hrapid]]].
  split; [exact Hflat|]. split; [exact Hgen|].
  split; [exact Hlin | exact Hrapid].
Defined.

End HollowingFacts.

Module F64Facts.
Import F64.

(** ** The order of binary64 *)

Lemma SFcompare_antisym (a b : spec_float) :
  SFcompare b a = option_map CompOpp (SFcompare a b).
Proof.
  destruct a as [sa|sa| |sa ma ea], b as [sb|sb| |sb mb eb]; simpl;
    try reflexivity;
    try (destruct sa; reflexivity); try (destruct sb; reflexivity);
    try (destruct sa, sb; reflexivity).
  destruct sa, sb; try reflexivity;
    rewrite (Z.compare_antisym ea eb);
    destruct (ea ?= eb)%Z eqn:E; simpl; try reflexivity;
    change (Pos.compare_cont Eq mb ma) with (Pos.compare mb ma);
    change (Pos.compare_cont Eq ma mb) with (Pos.compare ma mb);
    rewrite (Pos.compare_antisym ma mb); destruct (ma ?= mb)%positive; reflexivity.
Qed.

Lemma SFcompare_refl (a : spec_float) :
  a <> S754_nan -> SFcompare a a = Some Eq.
Proof.
  destruct a as [s|s| |s m e]; simpl; intro H; try reflexivity;
    try (destruct s; reflexivity); try contradiction.
  destruct s; rewrite Z.compare_refl;
    change (Pos.compare_cont Eq m m) with (Pos.compare m m);
    rewrite Pos.compare_refl; reflexivity.
Qed.

Lemma SFcompare_lt_trans (a b c : spec_float) :
  SFcompare a b = Some Lt -> SFcompare b c = Some Lt -> SFcompare a c = Some Lt.
Proof.
  destruct a as [sa|sa| |sa ma ea], b as [sb|sb| |sb mb eb],
    c as [sc|sc| |sc mc ec]; simpl;
    try discriminate; try (intros; reflexivity);
    try (destruct sa; discriminate); try (destruct sb; discriminate);
    try (destruct sc; discriminate);
    try (destruct sa, sb; try discriminate; destruct sc; try discriminate; intros; reflexivity).
  all: try (destruct sa, sc; try discriminate; intros; try reflexivity; destruct sb; discriminate).
  change (Pos.compare_cont Eq ma mb) with (Pos.compare ma mb);
  change (Pos.compare_cont Eq mb mc) with (Pos.compare mb mc);
  change (Pos.compare_cont Eq ma mc) with (Pos.compare ma mc).
  destruct sa, sb, sc; try discriminate; try (intros; reflexivity);
    destruct (Z.compare_spec ea eb), (Z.compare_spec eb ec), (Z.compare_spec ea ec);
    try discriminate; try lia; try (intros; reflexivity);
    destruct (Pos.compare_spec ma mb), (Pos.compare_spec mb mc), (Pos.compare_spec ma mc);
    simpl; try discriminate; try lia; try (intros; reflexivity).
Qed.

Lemma ltb_leb (a b : float) : (a <? b)%float = true -> (a <=? b)%float = true.
Proof.
  rewrite ltb_spec, leb_spec. unfold SFltb, SFleb.
  destruct (SFcompare (Prim2SF a) (Prim2SF b)) as [[| |]|];
    intro H; try discriminate; reflexivity.
Qed.

Lemma ltb_not_leb (a b : float) :
  (a <? b)%float = true -> (b <=? a)%float = false.
Proof.
  rewrite ltb_spec, leb_spec. unfold SFltb, SFleb.
  rewrite (SFcompare_antisym (Prim2SF a) (Prim2SF b)).
  destruct (SFcompare (Prim2SF a) (Prim2SF b)) as [[| |]|];
    intro H; try discriminate; reflexivity.
Qed.

Lemma ltb_trans (a b c : float) :
  (a <? b)%float = true -> (b <? c)%float = true -> (a <? c)%float = true.
Proof.
  rewrite !ltb_spec. unfold SFltb.
  destruct (SFcompare (Prim2SF a) (Prim2SF b)) as [[| |]|] eqn:Hab;
    try discriminate.
  destruct (SFcompare (Prim2SF b) (Prim2SF c)) as [[| |]|] eqn:Hbc;
    try discriminate.
  rewrite (SFcompare_lt_trans _ _ _ Hab Hbc). reflexivity.
Qed.

Lemma ltb_leb_refl (a b : float) :
  (a <? b)%float = true -> (a <=? a)%float = true /\ (b <=? b)%float = true.
Proof.
  rewrite ltb_spec, !leb_spec. unfold SFltb, SFleb. intro H.
  destruct (SFcompare (Prim2SF a) (Prim2SF b)) as [[| |]|] eqn:Hab;
    try discriminate.
  assert (Ha : Prim2SF a <> S754_nan)
    by (intro E; rewrite E in Hab; discriminate).
  assert (Hb : Prim2SF b <> S754_nan)
    by (intro E; rewrite E in Hab; destruct (Prim2SF a); discriminate).
  rewrite !SFcompare_refl by assumption. split; reflexivity.
Qed.

Lemma SFcompare_defined (a b : spec_float) :
  a <> S754_nan -> b <> S754_nan -> exists c, SFcompare a b = Some c.
Proof.
  destruct a, b; simpl; intros Ha Hb; try contradiction; eexists; reflexivity.
Qed.

Lemma leb_not_nan (a b : float) :
  (a <=? b)%float = true ->
  Prim2SF a <> S754_nan /\ Prim2SF b <> S754_nan.
Proof.
  rewrite leb_spec. unfold SFleb. intro H.
  split; intro E; rewrite E in H; simpl in H;
    [|destruct (Prim2SF a)]; discriminate.
Qed.

Lemma ltb_not_nan (a b : float) :
  (a <? b)%float = true ->
  Prim2SF a <> S754_nan /\ Prim2SF b <> S754_nan.
Proof. intro H. apply leb_not_nan, ltb_leb, H. Qed.

Lemma leb_or_gtb (a b : float) :
  Prim2SF a <> S754_nan -> Prim2SF b <> S754_nan ->
  (a <=? b)%float = true \/ (b <? a)%float = true.
Proof.
  intros Ha Hb. rewrite leb_spec, ltb_spec. unfold SFleb, SFltb.
  rewrite (SFcompare_antisym (Prim2SF a) (Prim2SF b)).
  destruct (SFcompare_defined _ _ Ha Hb) as [[| |] ->]; simpl; auto.
Qed.

(** A position below (or not comparable with) a station is below every
    later one. *)
Lemma leb_false_above (a b x : float) :
  (a <? b)%float = true -> (a <=? x)%float = false -> (b <=? x)%float = false.
Proof.
  intros Hab Hax. destruct (b <=? x)%float eqn:Hbx; [|reflexivity].
  exfalso. destruct (ltb_not_nan _ _ Hab) as [Ha _].
  destruct (leb_not_nan _ _ Hbx) as [_ Hx].
  destruct (leb_or_gtb a x Ha Hx) as [H|H]; [congruence|].
  pose proof (ltb_not_leb _ _ (ltb_trans _ _ _ H Hab)). congruence.
Qed.

(** A position above (or not comparable with) a station is above every
    earlier one. *)
Lemma leb_false_below (a b x : float) :
  (a <? b)%float = true -> (x <=? b)%float = false -> (x <=? a)%float = false.
Proof.
  intros Hab Hxb. destruct (x <=? a)%float eqn:Hxa; [|reflexivity].
  exfalso. destruct (ltb_not_nan _ _ Hab) as [_ Hb].
  destruct (leb_not_nan _ _ Hxa) as [Hx _].
  destruct (leb_or_gtb x b Hx Hb) as [H|H]; [congruence|].
  pose proof (ltb_not_leb _ _ (ltb_trans _ _ _ Hab H)). congruence.
Qed.

(** ** The scan at a station *)

Lemma scan_first_segment x x0 d0 x1 d1 rest :
  interpolate_dimension x ((x0, d0) :: (x1, d1) :: rest)
  = if ((x0 <=? x) && (x <=? x1))%float then
      if (x1 - x0 =? 0)%float then ZeroDivisionError
      else Return (Some (d0 + (x - x0) / (x1 - x0) * (d1 - d0))%float)
    else interpolate_dimension x ((x1, d1) :: rest).
Proof. reflexivity. Qed.

Lemma increasing_reaches (before : list (float * float)) :
  forall (a b : float * float) (after : list (float * float)),
    increasing (a :: before ++ b :: after) = true ->
    (fst a <? fst b)%float = true.
Proof.
  induction before as [|c before IH]; intros a b after Hinc.
  - simpl in Hinc. apply andb_prop in Hinc. tauto.
  - cbn [app increasing] in Hinc. apply andb_prop in Hinc.
    destruct Hinc as [Hac Hrest].
    apply (ltb_trans _ (fst c)); [exact Hac|].
    apply (IH c b after). exact Hrest.
Qed.

Lemma interpolate_at_later_station (before : list (float * float)) :
  forall (x0 d0 x1 d1 : float) (after : list (float * float)),
    increasing (before ++ (x0, d0) :: (x1, d1) :: after) = true ->
    interpolate_dimension x1 (before ++ (x0, d0) :: (x1, d1) :: after)
    = if (x1 - x0 =? 0)%float then ZeroDivisionError
      else Return (Some (d0 + (x1 - x0) / (x1 - x0) * (d1 - d0))%float).
Proof.
  induction before as [|[xa da] before IH]; intros x0 d0 x1 d1 after Hinc.
  - cbn [app] in *. rewrite scan_first_segment.
    cbn [increasing fst] in Hinc. apply andb_prop in Hinc.
    destruct Hinc as [H01 _].
    rewrite (ltb_leb _ _ H01). destruct (ltb_leb_refl _ _ H01) as [_ H11].
    rewrite H11. reflexivity.
  - assert (Hrest : increasing (before ++ (x0, d0) :: (x1, d1) :: after) = true).
    { cbn [app] in Hinc. destruct (before ++ (x0, d0) :: (x1, d1) :: after);
        [reflexivity|]. cbn [increasing] in Hinc.
      apply andb_prop in Hinc. tauto. }
    specialize (IH x0 d0 x1 d1 after Hrest).
    destruct before as [|[xb db] before].
    + cbn [app] in *. rewrite scan_first_segment.
      cbn [increasing fst] in Hrest. apply andb_prop in Hrest.
      destruct Hrest as [H01 _].
      rewrite (ltb_not_leb _ _ H01), andb_false_r. exact IH.
    + cbn [app] in *. rewrite scan_first_segment.
      assert (Hb1 : (xb <? x1)%float = true).
      { apply (increasing_reaches (before ++ [(x0, d0)]) (xb, db) (x1, d1) after).
        rewrite <- app_assoc. cbn [app]. exact Hrest. }
      rewrite (ltb_not_leb _ _ Hb1), andb_false_r. exact IH.
Qed.

(** ** The scan and the span of the table *)

Lemma increasing_tail_binary64 (a : float * float)
    (rest : list (float * float)) :
  increasing (a :: rest) = true -> increasing rest = true.
Proof.
  destruct rest as [|b rest]; [reflexivity|]. cbn [increasing].
  intro H. apply andb_prop in H. tauto.
Qed.

Lemma scan_below (x : float) (stations : list (float * float)) :
  increasing stations = true ->
  (first_position stations <=? x)%float = false ->
  interpolate_dimension x stations = Return None.
Proof.
  induction stations as [|[x0 d0] rest IH]; intros Hinc Hx; [reflexivity|].
  destruct rest as [|[x1 d1] rest]; [reflexivity|].
  unfold first_position in *. cbn [hd fst] in *.
  rewrite scan_first_segment, Hx. cbn [andb].
  pose proof Hinc as Hinc'. cbn [increasing fst] in Hinc'.
  apply andb_prop in Hinc'. destruct Hinc' as [H01 Hrest].
  apply IH; [exact Hrest|]. cbn [hd fst].
  apply (leb_false_above x0); assumption.
Qed.

Lemma last_position_reached (a : float * float)
    (rest : list (float * float)) :
  increasing (a :: rest) = true ->
  fst a = last_position (a :: rest)
  \/ (fst a <? last_position (a :: rest))%float = true.
Proof.
  revert a. induction rest as [|b rest IH]; intros a Hinc; [left; reflexivity|].
  right. cbn [increasing] in Hinc. apply andb_prop in Hinc.
  destruct Hinc as [Hab Hrest].
  change (last_position (a :: b :: rest)) with (last_position (b :: rest)).
  destruct (IH b Hrest) as [<-|Hlt]; [exact Hab|].
  apply (ltb_trans _ (fst b)); assumption.
Qed.

Lemma scan_above (x : float) (stations : list (float * float)) :
  increasing stations = true ->
  (x <=? last_position stations)%float = false ->
  interpolate_dimension x stations = Return None.
Proof.
  induction stations as [|[x0 d0] rest IH]; intros Hinc Hx; [reflexivity|].
  destruct rest as [|[x1 d1] rest]; [reflexivity|].
  pose proof (increasing_tail_binary64 _ _ Hinc) as Hrest.
  change (last_position ((x0, d0) :: (x1, d1) :: rest))
    with (last_position ((x1, d1) :: rest)) in Hx.
  rewrite scan_first_segment.
  assert (Hx1 : (x <=? x1)%float = false).
  { destruct (last_position_reached _ _ Hrest) as [E|Hlt]; cbn [fst] in *.
    - rewrite E. exact Hx.
    - apply (leb_false_below _ _ _ Hlt Hx). }
  rewrite Hx1, andb_false_r. apply IH; assumption.
Qed.

Lemma scan_inside (x : float) (stations : list (float * float)) :
  (2 <= length stations)%nat ->
  increasing stations = true ->
  within_span x stations = true ->
  interpolate_dimension x stations <> Return None.
Proof.
  induction stations as [|[x0 d0] rest IH]; intros Hlen Hinc Hx;
    [simpl in Hlen; lia|].
  destruct rest as [|[x1 d1] rest]; [simpl in Hlen; lia|].
  pose proof (increasing_tail_binary64 _ _ Hinc) as Hrest.
  cbn [increasing fst] in Hinc. apply andb_prop in Hinc.
  destruct Hinc as [H01 _].
  unfold within_span, first_position in Hx. cbn [hd fst] in Hx.
  apply andb_prop in Hx. destruct Hx as [Hlo Hhi].
  change (last_position ((x0, d0) :: (x1, d1) :: rest))
    with (last_position ((x1, d1) :: rest)) in Hhi.
  rewrite scan_first_segment, Hlo. cbn [andb].
  destruct (x <=? x1)%float eqn:Hx1.
  - destruct (x1 - x0 =? 0)%float; discriminate.
  - destruct rest as [|s2 rest].
    + unfold last_position in Hhi. cbn [last fst] in Hhi. congruence.
    + apply IH; [simpl; lia | exact Hrest |].
      unfold within_span, first_position. cbn [hd fst]. rewrite Hhi, andb_true_r.
      destruct (leb_not_nan _ _ Hlo) as [_ Hx].
      destruct (ltb_not_nan _ _ H01) as [_ Hn1].
      destruct (leb_or_gtb x x1 Hx Hn1) as [H|H]; [congruence|].
      apply ltb_leb, H.
Qed.

(** In binary64 as well the scan answers [None] exactly outside the span
    of the table; a NaN position is outside it. *)
Lemma scan_none_iff_outside (x : float) (stations : list (float * float)) :
  (2 <= length stations)%nat ->
  increasing stations = true ->
  interpolate_dimension x stations = Return None
  <-> within_span x stations = false.
Proof.
  intros Hlen Hinc. split.
  - intro Hnone. destruct (within_span x stations) eqn:Hin; [|reflexivity].
    exfalso. exact (scan_inside x stations Hlen Hinc Hin Hnone).
  - intro Hout. unfold within_span in Hout. apply andb_false_iff in Hout.
    destruct Hout as [Hlo|Hhi].
    + apply scan_below; assumption.
    + apply scan_above; assumption.
Qed.

Lemma interpolate_at_first_station
    (x0 d0 x1 d1 : float) (after : list (float * float)) :
  increasing ((x0, d0) :: (x1, d1) :: after) = true ->
  interpolate_dimension x0 ((x0, d0) :: (x1, d1) :: after)
  = if (x1 - x0 =? 0)%float then ZeroDivisionError
    else Return (Some (d0 + (x0 - x0) / (x1 - x0) * (d1 - d0))%float).
Proof.
  intro Hinc. rewrite scan_first_segment.
  cbn [increasing fst] in Hinc. apply andb_prop in Hinc.
  destruct Hinc as [H01 _].
  rewrite (ltb_leb _ _ H01). destruct (ltb_leb_refl _ _ H01) as [H00 _].
  rewrite H00. reflexivity.
Qed.

(** In binary64 the nine lands of the reference rod are the exact
    multiples [80 + k * 150]. *)
Lemma reference_lands_binary64 :
  compute_steg_positions reference 20 (60 * ZOLL_ZU_MM)
  = Return (map (fun k => 80 + k * 150)%float
              [1; 2; 3; 4; 5; 6; 7; 8; 9]%float).
Proof. vm_compute. reflexivity. Qed.

(** What the binary64 loop returns, whatever the constants: running sums
    below the end of the hollow region, up to the first sum that is not
    below it. *)
Lemma steg_loop_running_sums (cfg : config) (hohl_end : float) (fuel : nat) :
  forall (stege : list float) (x prev : float) (lands : list float),
    x = (prev + STEG_ABSTAND_MM cfg)%float ->
    steg_loop cfg fuel stege x hohl_end = Return lands ->
    exists new : list float,
      lands = stege ++ new
      /\ running_sums (STEG_ABSTAND_MM cfg) prev new
      /\ Forall (fun c => (c <? hohl_end)%float = true) new
      /\ (last new prev + STEG_ABSTAND_MM cfg <? hohl_end)%float = false.
Proof.
  induction fuel as [|fuel IH]; intros stege x prev lands Hx Hrun;
    [discriminate|].
  cbn [steg_loop] in Hrun. destruct (x <? hohl_end)%float eqn:E.
  - destruct (IH _ _ x _ eq_refl Hrun) as [new [Hl [Hsum [Hlt Hstop]]]].
    exists (x :: new). split; [rewrite Hl, <- app_assoc; reflexivity|].
    split; [split; [exact Hx | exact Hsum]|].
    split; [constructor; [exact E | exact Hlt]|].
    destruct new as [|c new]; [exact Hstop|].
    change (last (x :: c :: new) prev) with (last (c :: new) prev).
    assert (Hd : forall (l : list float) (a d d' : float),
               last (a :: l) d = last (a :: l) d').
    { induction l as [|b l IHl]; intros a d d'; [reflexivity|].
      change (last (a :: b :: l) d) with (last (b :: l) d).
      change (last (a :: b :: l) d') with (last (b :: l) d').
      apply IHl. }
    rewrite (Hd new c prev x). exact Hstop.
  - apply Return_inj in Hrun. subst lands. exists [].
    split; [rewrite app_nil_r; reflexivity|].
    split; [exact I|]. split; [constructor|].
    cbn [last]. rewrite <- Hx. exact E.
Qed.

Lemma reference_stations_exact : exact_at_stations stations_mm = true.
Proof. vm_compute. reflexivity. Qed.

(** C3, as stated, fails in binary64: on the two-station table
    [(0, 1.78), (1524, 3.81)] the value at the last station is
    [1.78 + 1.0 * (3.81 - 1.78)], which rounds to 3.8100000000000005 and
    not to the stored 3.81. *)
Lemma last_station_not_reproduced :
  length sparse_mm = 2%nat
  /\ increasing sparse_mm = true
  /\ In (1524, 3.81)%float sparse_mm
  /\ interpolate_dimension 1524 sparse_mm
     = Return (Some 3.8100000000000005%float)
  /\ interpolate_dimension 1524 sparse_mm <> Return (Some 3.81%float).
Proof.
  split; [reflexivity|]. split; [vm_compute; reflexivity|].
  split; [|split].
  - right; left. vm_compute. reflexivity.
  - vm_compute. reflexivity.
  - vm_compute. intro H. discriminate H.
Qed.

(** C3, as amended: with exact real arithmetic every station of a table
    of at least two stations with strictly increasing positions is
    returned exactly.  In binary64 the scan stops, for the first station, at
    the segment that starts there and, for a later station, at the segment
    that ends there, and returns the rounded value of
    [d0 + (x - x0) / (x1 - x0) * (d1 - d0)] on that segment; for the
    stations of the reference table that value is the stored dimension, bit
    for bit. *)
Theorem station_dimension_reproduced :
  (forall (stations : list (R * R)) (x d : R),
      (2 <= length stations)%nat ->
      Hollowing.increasing stations ->
      In (x, d) stations ->
      Hollowing.interpolate_dimension x stations = Return (Some d))
  /\ (forall (x0 d0 x1 d1 : float) (after : list (float * float)),
        increasing ((x0, d0) :: (x1, d1) :: after) = true ->
        interpolate_dimension x0 ((x0, d0) :: (x1, d1) :: after)
        = if (x1 - x0 =? 0)%float then ZeroDivisionError
          else Return (Some (d0 + (x0 - x0) / (x1 - x0) * (d1 - d0))%float))
  /\ (forall (before : list (float * float)) (x0 d0 x1 d1 : float)
             (after : list (float * float)),
        increasing (before ++ (x0, d0) :: (x1, d1) :: after) = true ->
        interpolate_dimension x1 (before ++ (x0, d0) :: (x1, d1) :: after)
        = if (x1 - x0 =? 0)%float then ZeroDivisionError
          else Return (Some (d0 + (x1 - x0) / (x1 - x0) * (d1 - d0))%float))
  /\ exact_at_stations stations_mm = true.
Proof.
  split; [|split; [|split]].
  - apply HollowingFacts.interpolate_at_station.
  - apply interpolate_at_first_station.
  - intros before x0 d0 x1 d1 after. apply interpolate_at_later_station.
  - apply reference_stations_exact.
Qed.

(** C7, as stated, fails in binary64.  With a tip section of 76.2 and a
    pitch of 152.4 the third centre is the running sum
    [76.2 + 152.4 + 152.4 + 152.4], which is 533.39999999999998 and not
    [76.2 + 3 * 152.4], which is 533.40000000000009.  With a tip section of
    80, a pitch of 10.1 and a hollow region that ends at 110.3 the loop
    returns three centres, the third being 110.29999999999998, although
    [80 + 3 * 10.1] is 110.3 and so not below the end of the region. *)
Lemma third_land_is_not_a_pitch_multiple :
  (exists lands : list float,
      compute_steg_positions inch_layout 20 1524 = Return lands
      /\ nth 2 lands 0%float = 533.39999999999998%float
      /\ (76.2 + 3 * 152.4 = 533.40000000000009)%float
      /\ (nth 2 lands 0 =? 76.2 + 3 * 152.4)%float = false)
  /\ compute_steg_positions fine_layout 20 110.3
     = Return [90.099999999999994; 100.19999999999999;
               110.29999999999998]%float
  /\ (80 + 3 * 10.1 <? 110.3 - 0)%float = false.
Proof.
  split; [|split].
  - eexists. split; [vm_compute; reflexivity|].
    split; [vm_compute; reflexivity|].
    split; vm_compute; reflexivity.
  - vm_compute. reflexivity.
  - vm_compute. reflexivity.
Qed.

(** C7, as amended.  With exact real arithmetic and a positive pitch the
    centres are, in order, exactly [TIP_SOLID_MM + k * STEG_ABSTAND_MM] for
    [k = 1 .. n], where [n] counts the multiples strictly below the end of
    the hollow region, and the loop ends.  In binary64 the centres the loop
    returns are running sums: the first is [TIP_SOLID_MM + STEG_ABSTAND_MM],
    each later one is the one before it plus the pitch, every one of them
    is below the end of the hollow region and the next sum is not; for the
    constants of the file these are the nine multiples [80 + k * 150].
    On a table that is not empty the script computes the list once, before
    the toolpath loop, which receives it unchanged. *)
Theorem land_centres_are_running_sums :
  (forall (cfg : Hollowing.config) (x_total : R),
      (0 < Hollowing.STEG_ABSTAND_MM cfg)%R ->
      exists n fuel0 : nat,
        (forall fuel : nat, (fuel0 <= fuel)%nat ->
            Hollowing.compute_steg_positions cfg fuel x_total
            = Return
                (map (fun k =>
                        (Hollowing.TIP_SOLID_MM cfg
                         + INR k * Hollowing.STEG_ABSTAND_MM cfg)%R)
                   (seq 1 n)))
        /\ (forall k : nat, (1 <= k)%nat ->
              ((Hollowing.TIP_SOLID_MM cfg
                + INR k * Hollowing.STEG_ABSTAND_MM cfg
                < x_total - Hollowing.BUTT_SOLID_MM cfg)%R
               <-> (k <= n)%nat)))
  /\ (forall (cfg : config) (fuel : nat) (x_total : float)
             (lands : list float),
        compute_steg_positions cfg fuel x_total = Return lands ->
        running_sums (STEG_ABSTAND_MM cfg) (TIP_SOLID_MM cfg) lands
        /\ Forall
             (fun c => (c <? x_total - BUTT_SOLID_MM cfg)%float = true) lands
        /\ (last lands (TIP_SOLID_MM cfg) + STEG_ABSTAND_MM cfg
            <? x_total - BUTT_SOLID_MM cfg)%float = false)
  /\ compute_steg_positions reference 20 (60 * ZOLL_ZU_MM)
     = Return (map (fun k => 80 + k * 150)%float
                 [1; 2; 3; 4; 5; 6; 7; 8; 9]%float)
  /\ (forall (cfg : Hollowing.config) (fuel : nat) (stations : list (R * R)),
        stations <> [] ->
        Hollowing.main cfg fuel stations
        = (steg_positions <-
             Hollowing.compute_steg_positions cfg fuel
               (Hollowing.last_position stations) ;;
           built <-
             Hollowing.build_toolpath cfg fuel stations
               (Hollowing.last_position stations) steg_positions ;;
           Return (Hollowing.generate_gcode cfg (fst built)))).
Proof.
  split; [|split; [|split]].
  - intros cfg x_total Hpitch.
    apply HollowingFacts.pitch_multiples_in_exact_arithmetic. exact Hpitch.
  - intros cfg fuel x_total lands Hrun. unfold compute_steg_positions in Hrun.
    destruct (steg_loop_running_sums cfg _ fuel [] _ (TIP_SOLID_MM cfg) lands
                eq_refl Hrun)
      as [new [Hl Hrest]].
    cbn [app] in Hl. subst new. exact Hrest.
  - apply reference_lands_binary64.
  - intros cfg fuel stations Hne. apply HollowingFacts.main_on_table, Hne.
Qed.

End F64Facts.


Module GriffFacts.
Import Griff.
Local Open Scope R_scope.

(** ** Selections *)

Lemma select_app {A B : Type} (f : A -> option B) (l1 l2 : list A) :
  select f (l1 ++ l2) = select f l1 ++ select f l2.
Proof.
  induction l1 as [|a l1 IH]; simpl; [reflexivity|].
  destruct (f a); simpl; rewrite IH; reflexivity.
Qed.

Lemma select_flat_map {A B C : Type} (f : A -> option B) (g : C -> list A)
    (l : list C) :
  select f (flat_map g l) = flat_map (fun c => select f (g c)) l.
Proof.
  induction l as [|c l IH]; simpl; [reflexivity|].
  rewrite select_app, IH. reflexivity.
Qed.

Lemma flat_map_singleton {A B : Type} (h : A -> B) (l : list A) :
  flat_map (fun a => [h a]) l = map h l.
Proof. induction l as [|a l IH]; simpl; [|rewrite IH]; reflexivity. Qed.

Lemma flat_map_nil {A B : Type} (l : list A) :
  flat_map (fun _ : A => @nil B) l = [].
Proof. induction l as [|a l IH]; simpl; [|rewrite IH]; reflexivity. Qed.

Lemma seq_add_shift (n s m : nat) :
  seq (s + m) n = map (fun k => (k + m)%nat) (seq s n).
Proof.
  revert s; induction n as [|n IH]; intro s; simpl; [reflexivity|].
  f_equal. apply (IH (S s)).
Qed.

(** ** Accumulation of the rotary coordinate *)

Lemma accumulates_app (d a a1 a2 : R) (l1 l2 : list directive) :
  accumulates d a l1 a1 -> accumulates d a1 l2 a2 ->
  accumulates d a (l1 ++ l2) a2.
Proof.
  intros [m1 [Hs1 [Ha1 Hc1]]] [m2 [Hs2 [Ha2 Hc2]]].
  exists (m1 + m2)%nat. split; [|split].
  - rewrite select_app, Hs1, Hs2, seq_app, map_app. f_equal.
    rewrite (seq_add_shift m2 1 m1), map_map. apply map_ext. intro k.
    rewrite Ha1, plus_INR. lra.
  - rewrite Ha2, Ha1, plus_INR. lra.
  - rewrite filter_app, length_app, Hc1, Hc2. reflexivity.
Qed.

Lemma accumulates_still (d a : R) (l : list directive) :
  filter is_linear l = [] -> accumulates d a l a.
Proof.
  intro Hl. exists O. split; [|split].
  - induction l as [|x l IH]; [reflexivity|].
    simpl in Hl. destruct x; simpl in *; try discriminate; apply IH, Hl.
  - simpl. lra.
  - rewrite Hl. reflexivity.
Qed.

Lemma accumulates_move (d a : R) (x z : R) (feed : Z) (tag : string) :
  accumulates d a [LINEAR_MOVE [(AX, x); (AZ, z); (AA, a + d)] feed tag]
    (a + d).
Proof.
  exists 1%nat. split; [|split]; simpl; try reflexivity.
  - f_equal. lra.
  - lra.
Qed.

Lemma strictly_increasing_multiples (d a : R) (m s : nat) :
  0 < d -> strictly_increasing (map (fun k => a + INR k * d) (seq s m)).
Proof.
  intro Hd. revert s. induction m as [|m IH]; intro s; [exact I|].
  cbn [seq map]. specialize (IH (S s)).
  destruct m as [|m]; [exact I|].
  cbn [seq map] in *. split; [|exact IH].
  rewrite S_INR. lra.
Qed.

Lemma running_total_multiples (d : R) (m : nat) :
  forall s : nat,
    running_total d (INR s * d) (map (fun k => INR k * d) (seq (S s) m)).
Proof.
  induction m as [|m IH]; intro s; [exact I|].
  cbn [seq map running_total]. split; [rewrite S_INR; lra | apply IH].
Qed.

Section Turning.

Variable cfg : config.

Let d : R := 360 * rotations_per_mm * SCHRITT_MM cfg.

Lemma pass_loop_accumulates (fuel : nat) (fixed_r : option R) :
  forall (lines : list directive) (a x : R) (lines' : list directive) (a' : R),
    pass_loop cfg fuel fixed_r lines a x = Return (lines', a') ->
    exists new : list directive,
      lines' = lines ++ new /\ accumulates d a new a'.
Proof.
  induction fuel as [|fuel IH]; intros lines a x lines' a' Hrun;
    [discriminate|].
  cbn [pass_loop] in Hrun.
  destruct (match fixed_r with
            | Some fixed => Return fixed
            | None =>
                if String.eqb (GRIFFTYP cfg) "konisch"
                then conical_radius cfg
                       (Rmin x (X_START_MM cfg + GRIFF_LAENGE_MM cfg))
                else Return (ZIEL_RADIUS cfg)
            end) as [r| | |]; cbn [bind] in Hrun; try discriminate.
  fold d in Hrun.
  destruct (Rgeb (Rmin x (X_START_MM cfg + GRIFF_LAENGE_MM cfg))
              (X_START_MM cfg + GRIFF_LAENGE_MM cfg)).
  - inversion Hrun; subst. eexists. split; [reflexivity|].
    apply accumulates_move.
  - apply IH in Hrun. destruct Hrun as [new [Hl Hacc]].
    eexists. split; [rewrite Hl, <- app_assoc; reflexivity|].
    eapply accumulates_app; [apply accumulates_move | exact Hacc].
Qed.

Lemma pass_sequence_accumulates (fuel : nat)
    (roughing_steps : list (string * option R)) :
  forall (lines : list directive) (a : R) (lines' : list directive) (a' : R),
    pass_sequence cfg fuel roughing_steps lines a = Return (lines', a') ->
    exists new : list directive,
      lines' = lines ++ new /\ accumulates d a new a'.
Proof.
  induction roughing_steps as [|[pass_type fixed_r] rest IH];
    intros lines a lines' a' Hrun; cbn [pass_sequence] in Hrun.
  - inversion Hrun; subst. exists []. split; [rewrite app_nil_r; reflexivity|].
    apply accumulates_still. reflexivity.
  - destruct (pass_loop cfg fuel fixed_r _ a (X_START_MM cfg))
      as [[l1 a1]| | |] eqn:Hpass; cbn [bind fst snd] in Hrun; try discriminate.
    apply pass_loop_accumulates in Hpass. destruct Hpass as [new1 [Hl1 Hacc1]].
    apply IH in Hrun. destruct Hrun as [new2 [Hl2 Hacc2]].
    eexists. split.
    + rewrite Hl2, Hl1, <- !app_assoc. reflexivity.
    + eapply accumulates_app;
        [apply accumulates_still; destruct (truthy fixed_r); reflexivity|].
      eapply accumulates_app; [exact Hacc1|].
      eapply accumulates_app; [apply accumulates_still; reflexivity|].
      exact Hacc2.
Qed.

Lemma generate_turning_accumulates (fuel : nat) (lines : list directive) :
  generate_turning cfg fuel = Return lines -> exists a', accumulates d 0 lines a'.
Proof.
  unfold generate_turning. intro Hrun.
  destruct (roughing_loop fuel [] _ _) as [steps| | |];
    cbn [bind] in Hrun; try discriminate.
  destruct (pass_sequence cfg fuel _ _ 0) as [[l a']| | |] eqn:Hseq;
    cbn [bind fst] in Hrun; try discriminate.
  inversion Hrun; subst lines.
  apply pass_sequence_accumulates in Hseq. destruct Hseq as [new [Hl Hacc]].
  exists a'. rewrite Hl, <- app_assoc.
  eapply accumulates_app.
  { apply (accumulates_still d 0). unfold turning_header.
    destruct (String.eqb (GRIFFTYP cfg) "zylindrisch"); reflexivity. }
  eapply accumulates_app; [exact Hacc|].
  apply accumulates_still. reflexivity.
Qed.

(** *** The passes of a turning program *)

Lemma pass_loop_moves (fuel : nat) (fixed_r : option R) :
  forall (lines : list directive) (a x : R) (lines' : list directive) (a' : R),
    pass_loop cfg fuel fixed_r lines a x = Return (lines', a') ->
    exists moves : list directive,
      lines' = lines ++ moves
      /\ moves <> []
      /\ Forall (fun m => is_linear m = true) moves
      /\ linear_word AX (hd PROGRAM_END moves)
         = Some (Rmin x (X_START_MM cfg + GRIFF_LAENGE_MM cfg))
      /\ linear_word AX (last moves PROGRAM_END)
         = Some (X_START_MM cfg + GRIFF_LAENGE_MM cfg).
Proof.
  induction fuel as [|fuel IH]; intros lines a x lines' a' Hrun;
    [discriminate|].
  cbn [pass_loop] in Hrun.
  destruct (match fixed_r with
            | Some fixed => Return fixed
            | None =>
                if String.eqb (GRIFFTYP cfg) "konisch"
                then conical_radius cfg
                       (Rmin x (X_START_MM cfg + GRIFF_LAENGE_MM cfg))
                else Return (ZIEL_RADIUS cfg)
            end) as [r| | |]; cbn [bind] in Hrun; try discriminate.
  destruct (Rgeb (Rmin x (X_START_MM cfg + GRIFF_LAENGE_MM cfg))
              (X_START_MM cfg + GRIFF_LAENGE_MM cfg)) eqn:E.
  - apply Return_inj in Hrun. inversion Hrun; subst lines' a'.
    eexists. split; [reflexivity|]. split; [discriminate|].
    split; [constructor; [reflexivity | constructor]|].
    split; [reflexivity|]. cbn [last linear_word word axis_eqb]. f_equal.
    unfold Rgeb in E. apply Rleb_true in E.
    pose proof (Rmin_r x (X_START_MM cfg + GRIFF_LAENGE_MM cfg)). lra.
  - apply IH in Hrun.
    destruct Hrun as [moves [Hl [Hne [Hlin [_ Hlast]]]]].
    eexists. split; [rewrite Hl, <- app_assoc; reflexivity|].
    split; [discriminate|].
    split; [constructor; [reflexivity | exact Hlin]|].
    split; [reflexivity|].
    destruct moves as [|m moves]; [contradiction | exact Hlast].
Qed.

Lemma pass_sequence_passes (fuel : nat)
    (roughing_steps : list (string * option R)) :
  forall (lines : list directive) (a : R) (lines' : list directive) (a' : R),
    pass_sequence cfg fuel roughing_steps lines a = Return (lines', a') ->
    exists passes : list (list directive),
      lines' = lines ++ concat passes
      /\ length passes = length roughing_steps
      /\ Forall (is_pass cfg) passes.
Proof.
  induction roughing_steps as [|[pass_type fixed_r] rest IH];
    intros lines a lines' a' Hrun; cbn [pass_sequence] in Hrun.
  - apply Return_inj in Hrun. inversion Hrun; subst lines' a'.
    exists []. split; [rewrite app_nil_r; reflexivity|].
    split; [reflexivity | constructor].
  - destruct (pass_loop cfg fuel fixed_r _ a (X_START_MM cfg))
      as [[l1 a1]| | |] eqn:Hpass; cbn [bind fst snd] in Hrun;
      try discriminate.
    apply pass_loop_moves in Hpass.
    destruct Hpass as [moves [Hl1 [Hne [Hlin [Hfirst Hlast]]]]].
    apply IH in Hrun. destruct Hrun as [passes [Hl2 [Hcount Hpasses]]].
    set (label := if truthy fixed_r
                  then "; --- roughing r={fixed_r:.1f}mm ---"%string
                  else "; --- finishing (contour) ---"%string).
    exists (([ Text label;
               RAPID_MOVE [(AZ, Z_FREIFAHRT cfg)] "";
               RAPID_MOVE [(AX, X_START_MM cfg)] "" ]
             ++ moves
             ++ [ RAPID_MOVE [(AZ, Z_FREIFAHRT cfg)] "";
                  RAPID_MOVE [(AX, X_START_MM cfg)] "";
                  Text "" ])
            :: passes).
    split; [|split].
    + rewrite Hl2, Hl1. cbn [concat]. unfold label.
      destruct (truthy fixed_r); rewrite <- !app_assoc; reflexivity.
    + cbn [length]. rewrite Hcount. reflexivity.
    + constructor; [|exact Hpasses].
      exists label, moves.
      split; [reflexivity|].
      split; [exact Hne|]. split; [exact Hlin|].
      split; [exact Hfirst | exact Hlast].
Qed.

Lemma generate_turning_passes (fuel : nat) (lines : list directive) :
  generate_turning cfg fuel = Return lines ->
  exists (steps : list (string * option R)) (passes : list (list directive)),
    roughing_loop fuel [] (ROHLING_RADIUS cfg - 1)
      (if String.eqb (GRIFFTYP cfg) "zylindrisch" then ZIEL_RADIUS cfg
       else Rmin (RADIUS_TIP cfg) (RADIUS_BUTT cfg))
    = Return steps
    /\ lines = turning_header cfg ++ concat passes ++ turning_footer cfg
    /\ length passes = S (length steps)
    /\ Forall (is_pass cfg) passes.
Proof.
  unfold generate_turning. intro Hrun.
  destruct (roughing_loop fuel [] _ _) as [steps| | |];
    cbn [bind] in Hrun; try discriminate.
  destruct (pass_sequence cfg fuel _ _ 0) as [[l a']| | |] eqn:Hseq;
    cbn [bind fst] in Hrun; try discriminate.
  apply Return_inj in Hrun. subst lines.
  apply pass_sequence_passes in Hseq.
  destruct Hseq as [passes [Hl [Hcount Hpasses]]].
  exists steps, passes. split; [reflexivity|]. split; [|split].
  - rewrite Hl, <- app_assoc. reflexivity.
  - rewrite Hcount, length_app. cbn [length]. lia.
  - exact Hpasses.
Qed.

Lemma passes_have_moves (passes : list (list directive)) :
  Forall (is_pass cfg) passes ->
  (length passes <= length (filter is_linear (concat passes)))%nat.
Proof.
  induction 1 as [|block rest Hblock _ IH]; [apply Nat.le_refl|].
  cbn [concat length]. rewrite filter_app, length_app.
  destruct Hblock as [label [moves [Hb [Hne [Hlin _]]]]]. subst block.
  cbn [app filter is_linear]. rewrite filter_app, length_app.
  destruct moves as [|m moves]; [contradiction|].
  assert (Hone : (1 <= length (filter is_linear (m :: moves)))%nat).
  { inversion Hlin as [|m' moves' Hm _]; subst.
    cbn [filter]. rewrite Hm. cbn [length]. lia. }
  lia.
Qed.

Lemma roughing_loop_ends (target_r : R) (N : nat) :
  forall r : R,
    r - INR N < target_r + 0.5 ->
    exists steps : list (string * option R),
      forall (fuel : nat) (roughing_steps : list (string * option R)),
        (N < fuel)%nat ->
        roughing_loop fuel roughing_steps r target_r
        = Return (roughing_steps ++ steps).
Proof.
  induction N as [|N IH]; intros r Hr.
  - exists []. intros [|fuel] acc Hfuel; [lia|]. cbn [roughing_loop].
    simpl in Hr.
    assert (E : Rgeb r (target_r + 0.5) = false) by (apply Rleb_false; lra).
    rewrite E, app_nil_r. reflexivity.
  - destruct (Rgeb r (target_r + 0.5)) eqn:E.
    + destruct (IH (r - 1)) as [steps Hsteps]; [rewrite S_INR in Hr; lra|].
      exists (("roughing"%string, Some r) :: steps).
      intros [|fuel] acc Hfuel; [lia|]. cbn [roughing_loop].
      rewrite E, Hsteps by lia. rewrite <- app_assoc. reflexivity.
    + exists []. intros [|fuel] acc Hfuel; [lia|]. cbn [roughing_loop].
      rewrite E, app_nil_r. reflexivity.
Qed.

Hypothesis step_pos : 0 < SCHRITT_MM cfg.
Hypothesis length_nonzero : GRIFF_LAENGE_MM cfg <> 0.

Lemma pass_loop_ends (fixed_r : option R) (N : nat) :
  forall x a : R,
    X_START_MM cfg + GRIFF_LAENGE_MM cfg <= x + INR N * SCHRITT_MM cfg ->
    exists (new : list directive) (a' : R),
      forall (fuel : nat) (lines : list directive),
        (N < fuel)%nat ->
        pass_loop cfg fuel fixed_r lines a x = Return (lines ++ new, a').
Proof.
  assert (Hradius : forall x, exists r,
             match fixed_r with
             | Some fixed => Return fixed
             | None =>
                 if String.eqb (GRIFFTYP cfg) "konisch"
                 then conical_radius cfg x
                 else Return (ZIEL_RADIUS cfg)
             end = Return r).
  { intro x. destruct fixed_r as [fixed|]; [eexists; reflexivity|].
    destruct (String.eqb (GRIFFTYP cfg) "konisch"); [|eexists; reflexivity].
    unfold conical_radius.
    assert (E : Reqb (GRIFF_LAENGE_MM cfg) 0 = false)
      by (apply Reqb_false; exact length_nonzero).
    rewrite E. eexists; reflexivity. }
  induction N as [|N IH]; intros x a Hreach;
    destruct (Hradius (Rmin x (X_START_MM cfg + GRIFF_LAENGE_MM cfg)))
      as [r Hr];
    destruct (Rgeb (Rmin x (X_START_MM cfg + GRIFF_LAENGE_MM cfg))
                (X_START_MM cfg + GRIFF_LAENGE_MM cfg)) eqn:E.
  - do 2 eexists. intros [|fuel] lines Hfuel; [lia|]. cbn [pass_loop].
    rewrite Hr. cbn [bind]. rewrite E. reflexivity.
  - exfalso. unfold Rgeb in E. apply Rleb_false in E. simpl in Hreach.
    rewrite Rmin_right in E by lra. lra.
  - do 2 eexists. intros [|fuel] lines Hfuel; [lia|]. cbn [pass_loop].
    rewrite Hr. cbn [bind]. rewrite E. reflexivity.
  - unfold Rgeb in E. pose proof E as E'. apply Rleb_false in E'.
    assert (Hx : x < X_START_MM cfg + GRIFF_LAENGE_MM cfg).
    { unfold Rmin in E'. destruct (Rle_dec x _); lra. }
    assert (Hmin : Rmin x (X_START_MM cfg + GRIFF_LAENGE_MM cfg) = x)
      by (apply Rmin_left; lra).
    destruct (IH (x + SCHRITT_MM cfg)
                (a + 360 * rotations_per_mm * SCHRITT_MM cfg))
      as [new [a' Hrun]]; [rewrite S_INR in Hreach; lra|].
    exists (LINEAR_MOVE
              [(AX, x); (AZ, z_for_radius cfg r);
               (AA, a + 360 * rotations_per_mm * SCHRITT_MM cfg)]
              (FEED_CUT cfg) "" :: new), a'.
    intros [|fuel] lines Hfuel; [lia|]. cbn [pass_loop].
    rewrite Hr. cbn [bind]. unfold Rgeb. rewrite E, Hmin.
    rewrite Hrun by lia. rewrite <- app_assoc. reflexivity.
Qed.

Lemma pass_sequence_ends (N : nat)
    (roughing_steps : list (string * option R)) :
  X_START_MM cfg + GRIFF_LAENGE_MM cfg
    <= X_START_MM cfg + INR N * SCHRITT_MM cfg ->
  forall a : R,
    exists (new : list directive) (a' : R),
      forall (fuel : nat) (lines : list directive),
        (N < fuel)%nat ->
        pass_sequence cfg fuel roughing_steps lines a
        = Return (lines ++ new, a').
Proof.
  intro Hreach.
  induction roughing_steps as [|[pass_type fixed_r] rest IH]; intro a.
  - exists [], a. intros fuel lines _. cbn [pass_sequence].
    rewrite app_nil_r. reflexivity.
  - destruct (pass_loop_ends fixed_r N (X_START_MM cfg) a Hreach)
      as [new1 [a1 Hpass]].
    destruct (IH a1) as [new2 [a2 Hrest]].
    do 2 eexists. intros fuel lines Hfuel. cbn [pass_sequence].
    rewrite Hpass by exact Hfuel. cbn [bind fst snd].
    rewrite Hrest by exact Hfuel. rewrite <- !app_assoc. reflexivity.
Qed.

Lemma generate_turning_ends :
  exists (fuel0 : nat) (lines : list directive),
    forall fuel : nat, (fuel0 <= fuel)%nat ->
      generate_turning cfg fuel = Return lines.
Proof.
  set (target_r := if String.eqb (GRIFFTYP cfg) "zylindrisch"
                   then ZIEL_RADIUS cfg
                   else Rmin (RADIUS_TIP cfg) (RADIUS_BUTT cfg)).
  destruct (nat_above (ROHLING_RADIUS cfg - 1 - target_r)) as [N1 HN1].
  destruct (roughing_loop_ends target_r N1 (ROHLING_RADIUS cfg - 1))
    as [steps Hsteps]; [lra|].
  destruct (steps_reach (X_START_MM cfg)
              (X_START_MM cfg + GRIFF_LAENGE_MM cfg) (SCHRITT_MM cfg) step_pos)
    as [N2 HN2].
  destruct (pass_sequence_ends N2 (steps ++ [("finishing"%string, None)])
              HN2 0)
    as [new [a' Hseq]].
  exists (S (N1 + N2)), (turning_header cfg ++ new ++ turning_footer cfg).
  intros fuel Hfuel. unfold generate_turning. fold target_r.
  rewrite Hsteps by lia. cbn [bind app].
  rewrite Hseq by lia. cbn [bind fst]. rewrite <- app_assoc. reflexivity.
Qed.

End Turning.

(** ** The polygon program *)

Lemma face_loop_flat_map (cfg : config) (sektor z_entry z_cut : R)
    (faces : list nat) :
  forall lines : list directive,
    face_loop cfg sektor z_entry z_cut faces lines
    = lines ++ flat_map (face_lines cfg sektor z_entry z_cut) faces.
Proof.
  induction faces as [|face rest IH]; intro lines; cbn [face_loop flat_map].
  - rewrite app_nil_r. reflexivity.
  - rewrite IH, <- app_assoc. reflexivity.
Qed.

Lemma mill_face_count (cfg : config) (sektor z_entry z_cut : R)
    (faces : list nat) :
  length (filter is_mill_face
            (flat_map (face_lines cfg sektor z_entry z_cut) faces))
  = length faces.
Proof.
  induction faces as [|face rest IH]; [reflexivity|].
  cbn [flat_map]. rewrite filter_app, length_app, IH. reflexivity.
Qed.

Lemma generate_polygon_program (cfg : config) :
  (POLYGON_SEITEN cfg <> 0)%Z ->
  generate_polygon cfg
  = Return
      (polygon_header cfg
         (POLYGON_UMKREIS cfg * cos (PI / IZR (POLYGON_SEITEN cfg)))
         (POLYGON_UMKREIS cfg * cos (PI / IZR (POLYGON_SEITEN cfg))
          + FRAESER_RADIUS cfg)
         (360 / IZR (POLYGON_SEITEN cfg))
       ++ flat_map
            (face_lines cfg (360 / IZR (POLYGON_SEITEN cfg))
               (ROHLING_RADIUS cfg + FRAESER_RADIUS cfg)
               (POLYGON_UMKREIS cfg * cos (PI / IZR (POLYGON_SEITEN cfg))
                + FRAESER_RADIUS cfg))
            (seq 0 (Z.to_nat (POLYGON_SEITEN cfg)))
       ++ polygon_footer cfg).
Proof.
  intro HN. unfold generate_polygon.
  apply Z.eqb_neq in HN. rewrite HN.
  rewrite face_loop_flat_map, <- app_assoc. reflexivity.
Qed.

(** C9: a turning program is the header, one pass for every roughing
    radius and one finishing pass, and the footer; every pass holds at
    least one linear move and runs to the end of the grip.  Every linear
    move carries an A word: the first is [0 + 360 * 3 * SCHRITT_MM] and
    each later one is the A word of the linear move before it plus
    [360 * 3 * SCHRITT_MM], also from the last move of a pass to the first
    move of the next, so the coordinate goes on from pass to pass; with a
    positive step it strictly increases and never starts over; and such a
    program is produced for every large enough fuel.  The polygon program
    puts no A word on a linear move; its indexing moves carry the
    absolute angles [face * (360 / POLYGON_SEITEN)], one per face. *)
Theorem rotary_coordinate_accumulates (cfg : config) :
  0 < SCHRITT_MM cfg ->
  GRIFF_LAENGE_MM cfg <> 0 ->
  (exists (fuel0 : nat) (lines : list directive),
      forall fuel : nat, (fuel0 <= fuel)%nat ->
        generate_turning cfg fuel = Return lines)
  /\ (forall (fuel : nat) (lines : list directive),
        generate_turning cfg fuel = Return lines ->
        exists (steps : list (string * option R))
               (passes : list (list directive)),
          roughing_loop fuel [] (ROHLING_RADIUS cfg - 1)
            (if String.eqb (GRIFFTYP cfg) "zylindrisch" then ZIEL_RADIUS cfg
             else Rmin (RADIUS_TIP cfg) (RADIUS_BUTT cfg))
          = Return steps
          /\ lines = turning_header cfg ++ concat passes ++ turning_footer cfg
          /\ length passes = S (length steps)
          /\ Forall (is_pass cfg) passes
          /\ (length passes <= length (filter is_linear lines))%nat
          /\ length (select (linear_word AA) lines)
             = length (filter is_linear lines)
          /\ running_total (360 * 3 * SCHRITT_MM cfg) 0
               (select (linear_word AA) lines)
          /\ strictly_increasing (select (linear_word AA) lines))
  /\ (forall lines : list directive,
        generate_polygon cfg = Return lines ->
        select (linear_word AA) lines = []
        /\ select index_angle lines
           = map (fun face => INR face * (360 / IZR (POLYGON_SEITEN cfg)))
               (seq 0 (Z.to_nat (POLYGON_SEITEN cfg)))).
Proof.
  intros Hstep Hlen. split; [|split].
  - apply generate_turning_ends; assumption.
  - intros fuel lines Hrun.
    destruct (generate_turning_accumulates cfg fuel lines Hrun)
      as [a' [m [Hsel [_ Hcount]]]].
    destruct (generate_turning_passes cfg fuel lines Hrun)
      as [steps [passes [Hsteps [Hlines [Hpasses Hall]]]]].
    unfold rotations_per_mm in Hsel.
    exists steps, passes.
    split; [exact Hsteps|]. split; [exact Hlines|].
    assert (Hsel' : select (linear_word AA) lines
                    = map (fun k => INR k * (360 * 3 * SCHRITT_MM cfg))
                        (seq 1 m)).
    { rewrite Hsel. apply map_ext. intro k. lra. }
    split; [exact Hpasses|]. split; [exact Hall|].
    split; [|split; [|split]].
    + pose proof (passes_have_moves cfg passes Hall) as Hmoves.
      rewrite Hlines, !filter_app, !length_app.
      assert (Hh : filter is_linear (turning_header cfg) = []).
      { unfold turning_header.
        destruct (String.eqb (GRIFFTYP cfg) "zylindrisch"); reflexivity. }
      rewrite Hh. cbn [length]. lia.
    + rewrite Hsel', length_map, length_seq, Hcount. reflexivity.
    + rewrite Hsel'.
      replace 0 with (INR 0 * (360 * 3 * SCHRITT_MM cfg)) at 1
        by (simpl; lra).
      apply running_total_multiples.
    + rewrite Hsel. apply strictly_increasing_multiples. lra.
  - intros lines Hrun.
    destruct (Z.eq_dec (POLYGON_SEITEN cfg) 0) as [H0|H0].
    { unfold generate_polygon in Hrun. apply Z.eqb_eq in H0.
      rewrite H0 in Hrun. discriminate. }
    rewrite generate_polygon_program in Hrun by exact H0.
    apply Return_inj in Hrun. subst lines.
    rewrite !select_app, !select_flat_map. cbn [face_lines select linear_word
      index_angle word axis_eqb polygon_header polygon_footer app].
    split.
    + rewrite flat_map_nil. reflexivity.
    + rewrite flat_map_singleton, app_nil_r. reflexivity.
Qed.

(** *** The words in effect when a face is milled *)

Lemma z_in_effect_word (lines : list directive) :
  forall cur : option R,
    Reading.z_in_effect cur lines = Reading.word_in_effect AZ cur lines.
Proof.
  induction lines as [|l rest IH]; intro cur; [reflexivity|].
  cbn [Reading.z_in_effect Reading.word_in_effect]. rewrite IH. reflexivity.
Qed.

Lemma word_in_effect_app (a : axis) (l1 l2 : list directive) :
  forall cur : option R,
    Reading.word_in_effect a cur (l1 ++ l2)
    = Reading.word_in_effect a cur l1
      ++ Reading.word_in_effect a (fold_left (Reading.word_after a) l1 cur) l2.
Proof.
  induction l1 as [|l l1 IH]; intro cur;
    cbn [app Reading.word_in_effect fold_left]; [reflexivity|].
  rewrite IH. reflexivity.
Qed.

Lemma milled_in_blocks {A : Type} (a : axis) (g : A -> list directive)
    (h : A -> option R) (l : list A) :
  (forall (x : A) (cur : option R),
      select Reading.milled_with (Reading.word_in_effect a cur (g x))
      = [h x]) ->
  forall cur : option R,
    select Reading.milled_with (Reading.word_in_effect a cur (flat_map g l))
    = map h l.
Proof.
  intro Hg. induction l as [|x l IH]; intro cur; [reflexivity|].
  cbn [flat_map map]. rewrite word_in_effect_app, select_app, Hg, IH.
  reflexivity.
Qed.

Lemma faces_milled_with (cfg : config) (a : axis) (h : nat -> option R) :
  (POLYGON_SEITEN cfg <> 0)%Z ->
  (forall (face : nat) (cur : option R),
      select Reading.milled_with
        (Reading.word_in_effect a cur
           (face_lines cfg (360 / IZR (POLYGON_SEITEN cfg))
              (ROHLING_RADIUS cfg + FRAESER_RADIUS cfg)
              (POLYGON_UMKREIS cfg * cos (PI / IZR (POLYGON_SEITEN cfg))
               + FRAESER_RADIUS cfg)
              face))
      = [h face]) ->
  forall lines : list directive,
    generate_polygon cfg = Return lines ->
    select Reading.milled_with (Reading.word_in_effect a None lines)
    = map h (seq 0 (Z.to_nat (POLYGON_SEITEN cfg))).
Proof.
  intros HN Hface lines Hrun.
  rewrite generate_polygon_program in Hrun by exact HN.
  apply Return_inj in Hrun. subst lines.
  rewrite !word_in_effect_app, !select_app.
  rewrite (milled_in_blocks a _ h _ Hface).
  match goal with
  | |- _ ++ _ ++ select _ (Reading.word_in_effect _ ?c _) = _ => generalize c
  end.
  intro cur. destruct a; cbn; rewrite app_nil_r; reflexivity.
Qed.

(** C10: with a positive face count [N] the polygon program is the header,
    one block of lines per face [k = 0 .. N-1] and the footer; it mills
    exactly [N] faces and indexes face [k] to the absolute angle
    [k * (360 / N)].  Every face is plunged to, and then milled with, the
    same Z word in effect,
    [POLYGON_UMKREIS * cos (PI / N) + FRAESER_RADIUS], the inradius plus the
    tool radius, and face [k] is milled with the A word [k * (360 / N)] in
    effect; for a positive circumradius that Z lies below the
    circumradius plus the tool radius. *)
Theorem polygon_faces_at_inradius (cfg : config) :
  (0 < POLYGON_SEITEN cfg)%Z ->
  exists lines : list directive,
    generate_polygon cfg = Return lines
    /\ length (filter is_mill_face lines) = Z.to_nat (POLYGON_SEITEN cfg)
    /\ INR (Z.to_nat (POLYGON_SEITEN cfg)) = IZR (POLYGON_SEITEN cfg)
    /\ select index_angle lines
       = map (fun k => INR k * (360 / IZR (POLYGON_SEITEN cfg)))
           (seq 0 (Z.to_nat (POLYGON_SEITEN cfg)))
    /\ select plunge_depth lines
       = map (fun _ => POLYGON_UMKREIS cfg * cos (PI / IZR (POLYGON_SEITEN cfg))
                       + FRAESER_RADIUS cfg)
           (seq 0 (Z.to_nat (POLYGON_SEITEN cfg)))
    /\ select Reading.milled_with (Reading.z_in_effect None lines)
       = map (fun _ =>
                Some (POLYGON_UMKREIS cfg
                      * cos (PI / IZR (POLYGON_SEITEN cfg))
                      + FRAESER_RADIUS cfg))
           (seq 0 (Z.to_nat (POLYGON_SEITEN cfg)))
    /\ select Reading.milled_with (Reading.word_in_effect AA None lines)
       = map (fun k => Some (INR k * (360 / IZR (POLYGON_SEITEN cfg))))
           (seq 0 (Z.to_nat (POLYGON_SEITEN cfg)))
    /\ (0 < POLYGON_UMKREIS cfg ->
        POLYGON_UMKREIS cfg * cos (PI / IZR (POLYGON_SEITEN cfg))
          + FRAESER_RADIUS cfg
        < POLYGON_UMKREIS cfg + FRAESER_RADIUS cfg).
Proof.
  intro HN.
  assert (HN0 : (POLYGON_SEITEN cfg <> 0)%Z) by lia.
  eexists. split; [apply generate_polygon_program; exact HN0|].
  split; [|split; [|split; [|split; [|split; [|split]]]]].
  - rewrite !filter_app, !length_app. cbn [polygon_header polygon_footer filter
      is_mill_face length]. rewrite Nat.add_0_r. cbn [Nat.add].
    rewrite mill_face_count, length_seq. reflexivity.
  - rewrite INR_IZR_INZ, Z2Nat.id by lia. reflexivity.
  - rewrite !select_app, !select_flat_map. cbn [face_lines select
      index_angle polygon_header polygon_footer app].
    rewrite flat_map_singleton, app_nil_r. reflexivity.
  - rewrite !select_app, !select_flat_map. cbn [face_lines select
      plunge_depth polygon_header polygon_footer app String.eqb Ascii.eqb
      Bool.eqb].
    rewrite flat_map_singleton, app_nil_r. reflexivity.
  - rewrite z_in_effect_word.
    apply (faces_milled_with cfg AZ
             (fun _ => Some (POLYGON_UMKREIS cfg
                             * cos (PI / IZR (POLYGON_SEITEN cfg))
                             + FRAESER_RADIUS cfg)) HN0).
    + intros face cur. reflexivity.
    + apply generate_polygon_program. exact HN0.
  - apply (faces_milled_with cfg AA
             (fun k => Some (INR k * (360 / IZR (POLYGON_SEITEN cfg)))) HN0).
    + intros face cur. reflexivity.
    + apply generate_polygon_program. exact HN0.
  - intro Hr.
    assert (Hcos : cos (PI / IZR (POLYGON_SEITEN cfg)) < cos 0).
    { pose proof PI_RGT_0 as Hpi.
      assert (H1 : 1 <= IZR (POLYGON_SEITEN cfg)) by (apply IZR_le; lia).
      assert (Hq : 0 < PI / IZR (POLYGON_SEITEN cfg) <= PI).
      { split.
        - apply Rdiv_lt_0_compat; lra.
        - apply Rmult_le_reg_r with (IZR (POLYGON_SEITEN cfg)); [lra|].
          unfold Rdiv. rewrite Rmult_assoc, Rinv_l by lra. nra. }
      apply cos_decreasing_1; lra. }
    rewrite cos_0 in Hcos. nra.
Qed.

(** The cylindrical grip with the constants of the file. *)
Lemma rotary_coordinate_accumulates_cylinder :
  0 < SCHRITT_MM (turned "zylindrisch")
  /\ GRIFF_LAENGE_MM (turned "zylindrisch") <> 0
  /\ exists (fuel0 : nat) (lines : list directive),
       (forall fuel : nat, (fuel0 <= fuel)%nat ->
           generate_turning (turned "zylindrisch") fuel = Return lines)
       /\ strictly_increasing (select (linear_word AA) lines)
       /\ (1 <= length (filter is_linear lines))%nat.
Proof.
  assert (Hstep : 0 < SCHRITT_MM (turned "zylindrisch")) by (simpl; lra).
  assert (Hlen : GRIFF_LAENGE_MM (turned "zylindrisch") <> 0)
    by (simpl; lra).
  destruct (rotary_coordinate_accumulates (turned "zylindrisch") Hstep Hlen)
    as [[fuel0 [lines Hrun]] [Hturn _]].
  split; [exact Hstep|]. split; [exact Hlen|].
  exists fuel0, lines. split; [exact Hrun|].
  destruct (Hturn fuel0 lines (Hrun fuel0 (Nat.le_refl fuel0)))
    as [steps [passes [_ [_ [Hcount [_ [Hm [_ [_ Hinc]]]]]]]]].
  split; [exact Hinc|]. rewrite Hcount in Hm. lia.
Defined.

(** The octagon of the file. *)
Lemma polygon_faces_reference :
  exists lines : list directive,
    generate_polygon reference = Return lines
    /\ length (filter is_mill_face lines) = 8%nat
    /\ select index_angle lines
       = map (fun k => INR k * (360 / 8)) (seq 0 8)
    /\ select plunge_depth lines
       = map (fun _ => 11 * cos (PI / 8) + 3) (seq 0 8)
    /\ select Reading.milled_with (Reading.z_in_effect None lines)
       = map (fun _ => Some (11 * cos (PI / 8) + 3)) (seq 0 8)
    /\ select Reading.milled_with (Reading.word_in_effect AA None lines)
       = map (fun k => Some (INR k * (360 / 8))) (seq 0 8).
Proof.
  destruct (polygon_faces_at_inradius reference)
    as [lines [Hrun [Hcount [_ [Hidx [Hplunge [Hz [Ha _]]]]]]]];
    [simpl; lia|].
  exists lines. split; [exact Hrun|]. split; [exact Hcount|].
  split; [exact Hidx|]. split; [exact Hplunge|].
  split; [exact Hz | exact Ha].
Defined.

End GriffFacts.

(** * Replaying the modal Z word *)

Module Replay.
Import Reading.

Lemma z_in_effect_app (l1 l2 : list directive) :
  forall cur : option R,
    z_in_effect cur (l1 ++ l2)
    = z_in_effect cur l1 ++ z_in_effect (fold_left z_after l1 cur) l2.
Proof.
  induction l1 as [|d l1 IH]; intro cur; cbn [app z_in_effect fold_left];
    [reflexivity|].
  rewrite IH. reflexivity.
Qed.

Lemma always_app (Q : directive * option R -> Prop) (l1 l2 : list directive) :
  always Q l1 -> always Q l2 -> always Q (l1 ++ l2).
Proof.
  intros H1 H2 cur. rewrite z_in_effect_app. apply Forall_app.
  split; [apply H1 | apply H2].
Qed.

Lemma always_flat_map {A : Type} (Q : directive * option R -> Prop)
    (g : A -> list directive) (l : list A) :
  (forall a, always Q (g a)) -> always Q (flat_map g l).
Proof.
  intro Hg. induction l as [|a l IH]; cbn [flat_map].
  - intro cur. constructor.
  - apply always_app; [apply Hg | exact IH].
Qed.

Lemma always_not_rapid (Q : directive * option R -> Prop)
    (l : list directive) :
  (forall d cur, is_rapid d = false -> Q (d, cur)) ->
  Forall (fun d => is_rapid d = false) l -> always Q l.
Proof.
  intros HQ Hl. induction Hl as [|d l Hd _ IH]; intro cur;
    cbn [z_in_effect]; constructor; [apply HQ, Hd | apply IH].
Qed.

End Replay.

(** * Further properties of [hollowing.py] *)

Module HollowingMore.
Import Hollowing Reading HollowingFacts Replay.
Local Open Scope R_scope.

(** ** The interpolator *)

Lemma interpolate_no_division (stations : list (R * R)) (x : R) :
  nondecreasing stations ->
  match stations with
  | a :: b :: _ => x < fst a \/ fst a < x \/ fst a <> fst b
  | _ => True
  end ->
  interpolate_dimension x stations <> ZeroDivisionError.
Proof.
  induction stations as [|[x0 d0] rest IH]; intros Hmono Hhead;
    [discriminate|].
  destruct rest as [|[x1 d1] rest]; [discriminate|].
  destruct Hmono as [H01 Hrest]. simpl in H01, Hhead.
  rewrite interpolate_cons2.
  destruct (Rleb x0 x && Rleb x x1) eqn:Eseg.
  - apply andb_prop in Eseg. destruct Eseg as [E0 E1].
    apply Rleb_true in E0, E1.
    assert (Ez : Reqb (x1 - x0) 0 = false)
      by (apply Reqb_false; destruct Hhead as [H|[H|H]]; lra).
    rewrite Ez. discriminate.
  - apply IH; [exact Hrest|].
    destruct rest as [|[x2 d2] rest]; [exact I|].
    destruct Hrest as [H12 _]. simpl in H12 |- *.
    apply andb_false_iff in Eseg.
    rewrite !Rleb_false in Eseg. destruct Eseg as [E|E]; lra.
Qed.

(** X2: on a table whose positions never decrease and whose first two
    positions differ the scan divides by zero at no position: a repeated
    position further on is answered from the segment that ends there.
    When the first two positions are equal, asking for that position
    raises [ZeroDivisionError]. *)
Theorem interpolate_division_by_zero
    (x0 d0 x1 d1 : R) (rest : list (R * R)) :
  nondecreasing ((x0, d0) :: (x1, d1) :: rest) ->
  (x0 <> x1 ->
   forall x : R,
     interpolate_dimension x ((x0, d0) :: (x1, d1) :: rest)
     <> ZeroDivisionError)
  /\ (x0 = x1 ->
      interpolate_dimension x0 ((x0, d0) :: (x1, d1) :: rest)
      = ZeroDivisionError).
Proof.
  intro Hmono. split.
  - intros Hne x. apply interpolate_no_division; [exact Hmono|].
    simpl. right; right. exact Hne.
  - intros <-. rewrite interpolate_cons2.
    assert (E : Rleb x0 x0 = true) by (apply Rleb_true; lra).
    assert (Ez : Reqb (x0 - x0) 0 = true) by (apply Reqb_true; lra).
    rewrite E, Ez. reflexivity.
Qed.

(** A table that measures the position 100 twice. *)
Lemma interpolate_division_by_zero_repeated :
  nondecreasing [(0, 10); (100, 20); (100, 22); (200, 30)]
  /\ (forall x : R,
        interpolate_dimension x [(0, 10); (100, 20); (100, 22); (200, 30)]
        <> ZeroDivisionError).
Proof.
  assert (Hmono : nondecreasing [(0, 10); (100, 20); (100, 22); (200, 30)])
    by (simpl; repeat split; lra).
  split; [exact Hmono|].
  apply (proj1 (interpolate_division_by_zero 0 10 100 20 _ Hmono)). lra.
Defined.

(** ** The toolpath *)

Section ToolpathInvariant.

Variable cfg : config.
Variable stations : list (R * R).
Variable x_total : R.
Variable steg_positions : list R.
Variable P : R * R -> Prop.

Hypothesis body_keeps :
  forall x dim : R,
    interpolate_dimension x stations = Return (Some dim) ->
    P (x, - Rmax 0 (dim / 2 - WANDSTAERKE_MM cfg)
            * compute_factor cfg x x_total steg_positions).

Lemma build_loop_invariant (fuel : nat) :
  forall (path : list (R * R)) (x : R) (p : list (R * R)) (e : loop_exit),
    build_loop cfg fuel stations x_total steg_positions path x
    = Return (p, e) ->
    Forall P path -> Forall P p.
Proof.
  induction fuel as [|fuel IH]; intros path x p e Hrun Hpath;
    [discriminate|].
  cbn [build_loop] in Hrun.
  destruct (interpolate_dimension (Rmin x x_total) stations)
    as [[dim|]| | |] eqn:Hdim; cbn [bind] in Hrun; try discriminate.
  - assert (Hpath' : Forall P
              (path ++ [(Rmin x x_total,
                         - Rmax 0 (dim / 2 - WANDSTAERKE_MM cfg)
                         * compute_factor cfg (Rmin x x_total) x_total
                             steg_positions)])).
    { apply Forall_app. split; [exact Hpath|].
      constructor; [apply body_keeps, Hdim | constructor]. }
    destruct (Rgeb (Rmin x x_total) x_total).
    + apply Return_inj in Hrun. inversion Hrun; subst. exact Hpath'.
    + eapply IH; eassumption.
  - apply Return_inj in Hrun. inversion Hrun; subst. exact Hpath.
Qed.

End ToolpathInvariant.


(** A complete run on the reference table. *)
Lemma reference_run (steg_positions : list R) :
  exists (fuel : nat) (path : list (R * R)),
    build_toolpath reference fuel stations_mm (last_position stations_mm)
      steg_positions
    = Return (path, BreakAtEnd).
Proof.
  destruct reference_table_well_formed as [Hlen [Hinc [Hfirst _]]].
  assert (Hstep : 0 < SCHRITT_MM reference) by (simpl; lra).
  destruct (steps_reach 0 (last_position stations_mm) (SCHRITT_MM reference)
              Hstep) as [N HN].
  destruct (build_loop_spec reference stations_mm steg_positions Hstep Hlen
              Hinc N 0 Hfirst HN) as [samples [Hrun _]].
  exists (S N), samples. unfold build_toolpath.
  rewrite Hrun by lia. reflexivity.
Qed.


(** X4: with a transition width that is not negative, a sample before the
    tip transition, or after the butt transition, has depth 0 and is not
    engaged: the solid ends of the strip are never cut, whatever the table
    and the lands. *)
Theorem solid_ends_are_not_cut
    (cfg : config) (stations : list (R * R)) (x_total : R)
    (steg_positions : list R) (fuel : nat)
    (path : list (R * R)) (e : loop_exit) :
  0 <= UEBERGANG_MM cfg ->
  build_toolpath cfg fuel stations x_total steg_positions = Return (path, e) ->
  Forall
    (fun s =>
       fst s < TIP_SOLID_MM cfg - UEBERGANG_MM cfg
       \/ (TIP_SOLID_MM cfg <= fst s
           /\ x_total - BUTT_SOLID_MM cfg + UEBERGANG_MM cfg < fst s) ->
       snd s = 0 /\ engaged s = false)
    path.
Proof.
  intros Hw Hrun. unfold build_toolpath in Hrun.
  eapply build_loop_invariant; [|exact Hrun|constructor].
  intros x dim _. cbn [fst snd]. intro Hsolid.
  assert (Hmask : compute_factor cfg x x_total steg_positions = 0).
  { unfold compute_factor, Rgtb. destruct Hsolid as [Htip|[Hge Hbutt]].
    - assert (E0 : Rltb x (TIP_SOLID_MM cfg) = true)
        by (apply Rltb_true; lra).
      assert (E1 : Rltb x (TIP_SOLID_MM cfg - UEBERGANG_MM cfg) = true)
        by (apply Rltb_true; exact Htip).
      rewrite E0, E1. reflexivity.
    - assert (E0 : Rltb x (TIP_SOLID_MM cfg) = false)
        by (apply Rltb_false; exact Hge).
      assert (E1 : Rltb (x_total - BUTT_SOLID_MM cfg) x = true)
        by (apply Rltb_true; lra).
      assert (E2 : Rltb (x_total - BUTT_SOLID_MM cfg + UEBERGANG_MM cfg) x
                   = true)
        by (apply Rltb_true; exact Hbutt).
      rewrite E0, E1, E2. reflexivity. }
  rewrite Hmask. unfold engaged. cbn [snd]. rewrite Rmult_0_r.
  split; [reflexivity|]. apply Rltb_false. lra.
Qed.

Lemma solid_ends_are_not_cut_reference :
  exists (fuel : nat) (path : list (R * R)),
    build_toolpath reference fuel stations_mm (last_position stations_mm) []
    = Return (path, BreakAtEnd)
    /\ Forall
         (fun s =>
            fst s < TIP_SOLID_MM reference - UEBERGANG_MM reference
            \/ (TIP_SOLID_MM reference <= fst s
                /\ last_position stations_mm - BUTT_SOLID_MM reference
                   + UEBERGANG_MM reference < fst s) ->
            snd s = 0 /\ engaged s = false)
         path.
Proof.
  destruct (reference_run []) as [fuel [path Hrun]].
  exists fuel, path. split; [exact Hrun|].
  apply (solid_ends_are_not_cut reference stations_mm _ [] fuel path
           BreakAtEnd); [simpl; lra | exact Hrun].
Defined.

(** ** The emission loop *)

Lemma emit_path_frame (cfg : config) (path : list (R * R)) :
  forall (lines : list directive) (cutting : bool),
    emit_path cfg path lines cutting
    = (lines ++ fst (emit_path cfg path [] cutting),
       snd (emit_path cfg path [] cutting)).
Proof.
  induction path as [|[x z] rest IH]; intros lines cutting;
    cbn [emit_path].
  - rewrite app_nil_r. reflexivity.
  - destruct (Rltb z (- 0.01)), cutting; cbn [negb];
      rewrite IH; symmetry; rewrite IH; cbn [fst snd];
      rewrite <- ?app_assoc; reflexivity.
Qed.

Lemma emit_path_app (cfg : config) (p1 p2 : list (R * R)) :
  forall (lines : list directive) (cutting : bool),
    emit_path cfg (p1 ++ p2) lines cutting
    = emit_path cfg p2 (fst (emit_path cfg p1 lines cutting))
        (snd (emit_path cfg p1 lines cutting)).
Proof.
  induction p1 as [|[x z] rest IH]; intros lines cutting;
    cbn [app emit_path]; [reflexivity|].
  destruct (Rltb z (- 0.01)), cutting; cbn [negb]; apply IH.
Qed.

Lemma last_cons_default {A : Type} (l : list A) :
  forall a d : A, last (a :: l) d = last l a.
Proof.
  induction l as [|b l IH]; intros a d; [reflexivity|].
  change (last (a :: b :: l) d) with (last (b :: l) d).
  rewrite !IH. reflexivity.
Qed.

Lemma emit_path_counts (cfg : config) (path : list (R * R)) :
  forall cutting : bool,
    length (filter is_rapid (fst (emit_path cfg path [] cutting)))
    = rises cutting (map engaged path)
    /\ length (filter is_linear (fst (emit_path cfg path [] cutting)))
       = (length (filter engaged path)
          + falls cutting (map engaged path))%nat
    /\ snd (emit_path cfg path [] cutting)
       = last (map engaged path) cutting.
Proof.
  induction path as [|[x z] rest IH]; intro cutting;
    [repeat split|].
  cbn [emit_path map filter rises falls].
  change (engaged (x, z)) with (Rltb z (- 0.01)).
  rewrite last_cons_default.
  destruct (Rltb z (- 0.01)), cutting; cbn [negb andb];
    rewrite emit_path_frame; cbn [fst snd];
    rewrite ?filter_app, ?length_app; cbn [filter is_rapid is_linear length app];
    destruct (IH true) as [Hr1 [Hl1 Hs1]];
    destruct (IH false) as [Hr0 [Hl0 Hs0]];
    repeat split; try assumption; lia.
Qed.

(** X5: for every path the program is the preamble, the lines of the
    emission loop and the closing lines.  The loop emits moves only: one
    positioning rapid for each change from retracted to engaged, and one
    linear move for each engaged sample plus one for each change from
    engaged to retracted; a retracted sample that follows a retracted one
    emits nothing. *)
Theorem emission_accounting (cfg : config) (path : list (R * R)) :
  exists body : list directive,
    generate_gcode cfg path = preamble cfg ++ body ++ closing cfg
    /\ length (filter is_rapid body) = rises false (map engaged path)
    /\ length (filter is_linear body)
       = (length (filter engaged path) + falls false (map engaged path))%nat
    /\ length body
       = (length (filter is_rapid body) + length (filter is_linear body))%nat.
Proof.
  exists (fst (emit_path cfg path [] false)).
  destruct (emit_path_counts cfg path false) as [Hr [Hl _]].
  split; [|split; [exact Hr|split; [exact Hl|]]].
  - unfold generate_gcode. rewrite emit_path_frame. cbn [fst].
    rewrite <- app_assoc. reflexivity.
  - clear Hr Hl. generalize false.
    induction path as [|[x z] rest IH]; intro cutting; [reflexivity|].
    cbn [emit_path].
    destruct (Rltb z (- 0.01)), cutting; cbn [negb];
      rewrite emit_path_frame; cbn [fst];
      rewrite ?filter_app, ?length_app;
      cbn [filter is_rapid is_linear length app];
      try rewrite (IH true); try rewrite (IH false); lia.
Qed.

(** X6: a path whose last sample is engaged ends the loop with the
    cutting flag set; the last line before the retract is then a plain
    cutting move at that sample's depth, with no land/end move. *)
Theorem path_ending_engaged
    (cfg : config) (rest : list (R * R)) (x z : R) :
  z < - 0.01 ->
  snd (emit_path cfg (rest ++ [(x, z)]) (preamble cfg) false) = true
  /\ exists (body : list directive) (axes : list (axis * R)),
       generate_gcode cfg (rest ++ [(x, z)])
       = preamble cfg ++ body
         ++ [LINEAR_MOVE axes (FEED_RATE cfg) ""] ++ closing cfg
       /\ word AZ axes = Some z.
Proof.
  intro Hz.
  assert (E : Rltb z (- 0.01) = true) by (apply Rltb_true; exact Hz).
  unfold generate_gcode. rewrite emit_path_app.
  rewrite (emit_path_frame cfg rest (preamble cfg) false). cbn [fst snd].
  set (body := fst (emit_path cfg rest [] false)).
  cbn [emit_path]. rewrite E.
  destruct (snd (emit_path cfg rest [] false)); cbn [negb fst snd].
  - split; [reflexivity|].
    exists body, [(AX, x); (AZ, z)]. split; [|reflexivity].
    rewrite <- !app_assoc. reflexivity.
  - split; [reflexivity|].
    exists (body ++ [RAPID_MOVE [(AX, x)] ""]), [(AZ, z)].
    split; [|reflexivity]. rewrite <- !app_assoc. reflexivity.
Qed.

(** A single engaged sample. *)
Lemma path_ending_engaged_single :
  -1 < - 0.01
  /\ snd (emit_path reference ([] ++ [(5, -1)]) (preamble reference) false)
     = true.
Proof.
  assert (Hz : -1 < - 0.01) by lra.
  split; [exact Hz|].
  exact (proj1 (path_ending_engaged reference [] 5 (-1) Hz)).
Defined.

Lemma emit_body_near_surface (cfg : config) (path : list (R * R)) :
  forall (cutting : bool) (cur : option R),
    (cutting = false ->
     exists z : R, cur = Some z /\ (z = Z_RAPID cfg \/ - 0.01 <= z)) ->
    Forall (near_surface cfg)
      (z_in_effect cur (fst (emit_path cfg path [] cutting))).
Proof.
  induction path as [|[x z] rest IH]; intros cutting cur Hcur;
    [constructor|].
  cbn [emit_path].
  destruct (Rltb z (- 0.01)) eqn:E, cutting; cbn [negb];
    try rewrite emit_path_frame; cbn [fst app];
    cbn [z_in_effect z_after words word axis_eqb].
  - constructor; [intros Hr _; discriminate Hr|].
    apply IH. discriminate.
  - constructor; [intros _ _; cbn [snd]; apply Hcur; reflexivity|].
    constructor; [intros Hr _; discriminate Hr|].
    apply IH. discriminate.
  - constructor; [intros Hr _; discriminate Hr|].
    apply IH. intros _. exists z. split; [reflexivity|].
    right. apply Rltb_false in E. exact E.
  - apply IH. exact Hcur.
Qed.

(** X7: in every hollowing program a rapid move that carries no Z word
    (the homing moves and the positioning before a cut) is made with a Z
    word in effect that is the safe height or not deeper than the
    engagement tolerance of 0.01: the tool never travels at a depth the
    emission loop counts as engaged. *)
Theorem hollowing_traverses_near_the_surface
    (cfg : config) (path : list (R * R)) :
  Forall (near_surface cfg) (z_in_effect None (generate_gcode cfg path)).
Proof.
  unfold generate_gcode. rewrite emit_path_frame. cbn [fst].
  rewrite <- app_assoc, !z_in_effect_app.
  apply Forall_app. split; [|apply Forall_app; split].
  - cbn [preamble z_in_effect z_after words word axis_eqb].
    repeat (apply Forall_cons;
            [intros Hr Hw; cbn [fst snd] in *;
             first [discriminate Hr | discriminate Hw
                   | eexists; split; [reflexivity | left; reflexivity]] |]).
    apply Forall_nil.
  - apply emit_body_near_surface. intros _.
    exists (Z_RAPID cfg). split; [reflexivity | left; reflexivity].
  - cbn [closing z_in_effect z_after words word axis_eqb].
    repeat (apply Forall_cons;
            [intros Hr Hw; cbn [fst snd] in *;
             first [discriminate Hr | discriminate Hw
                   | eexists; split; [reflexivity | left; reflexivity]] |]).
    apply Forall_nil.
Qed.

(** ** The lands *)




(** X9: with a positive transition width and a tip section that ends no
    later than the butt section starts, when the scan of the lands does
    not answer 1 at the start of the butt section (a land or one of its
    transitions reaches it), the mask is not continuous there: just after
    that position it is the butt transition, which starts at 1. *)
Theorem mask_jumps_where_a_land_meets_the_butt
    (cfg : config) (x_total : R) (steg_positions : list R) :
  0 < UEBERGANG_MM cfg ->
  TIP_SOLID_MM cfg <= x_total - BUTT_SOLID_MM cfg ->
  glue_lands cfg (x_total - BUTT_SOLID_MM cfg) steg_positions <> 1 ->
  ~ continuity_pt (fun x => compute_factor cfg x x_total steg_positions)
      (x_total - BUTT_SOLID_MM cfg).
Proof.
  intros Hw Htb Hland Hcont.
  set (bs := x_total - BUTT_SOLID_MM cfg) in *.
  set (f := fun x => compute_factor cfg x x_total steg_positions) in *.
  assert (Hat : f bs = glue_lands cfg bs steg_positions).
  { unfold f, compute_factor, Rgtb. fold bs.
    assert (E0 : Rltb bs (TIP_SOLID_MM cfg) = false)
      by (apply Rltb_false; lra).
    assert (E1 : Rltb bs bs = false) by (apply Rltb_false; lra).
    rewrite E0, E1. reflexivity. }
  assert (Hafter : forall h : R, 0 < h <= UEBERGANG_MM cfg ->
             f (bs + h) = 1 - sine_transition (h / UEBERGANG_MM cfg)).
  { intros h Hh. unfold f, compute_factor, Rgtb. fold bs.
    assert (E0 : Rltb (bs + h) (TIP_SOLID_MM cfg) = false)
      by (apply Rltb_false; lra).
    assert (E1 : Rltb bs (bs + h) = true) by (apply Rltb_true; lra).
    assert (E2 : Rltb (bs + UEBERGANG_MM cfg) (bs + h) = false)
      by (apply Rltb_false; lra).
    rewrite E0, E1, E2. do 3 f_equal. lra. }
  pose proof (glue_lands_range cfg bs steg_positions) as Hrange.
  set (v := glue_lands cfg bs steg_positions) in *.
  assert (Hv : v < 1) by lra.
  set (eps := (1 - v) / 2).
  assert (Heps : eps > 0) by (unfold eps; lra).
  destruct (Hcont eps Heps) as [del [Hdel Hnear]].
  destruct (continuity_sine_transition 0 eps Heps) as [del' [Hdel' Hnear']].
  set (h := Rmin (del / 2) (UEBERGANG_MM cfg * Rmin (del' / 2) 1)).
  assert (Hq : 0 < Rmin (del' / 2) 1 <= 1 /\ Rmin (del' / 2) 1 < del').
  { unfold Rmin. destruct (Rle_dec (del' / 2) 1); lra. }
  assert (Hh : 0 < h /\ h < del
               /\ h <= UEBERGANG_MM cfg * Rmin (del' / 2) 1).
  { unfold h. split; [|split].
    - apply Rmin_glb_lt; [lra | nra].
    - pose proof (Rmin_l (del / 2)
                    (UEBERGANG_MM cfg * Rmin (del' / 2) 1)). lra.
    - apply Rmin_r. }
  destruct Hh as [Hh0 [Hh1 Hh2]].
  assert (Hhw : h <= UEBERGANG_MM cfg) by nra.
  assert (Ht : 0 < h / UEBERGANG_MM cfg < del').
  { split; [apply Rdiv_lt_0_compat; lra|].
    apply Rmult_lt_reg_r with (UEBERGANG_MM cfg); [lra|].
    unfold Rdiv. rewrite Rmult_assoc, Rinv_l by lra. nra. }
  assert (Hsine : Rabs (sine_transition (h / UEBERGANG_MM cfg)
                        - sine_transition 0) < eps).
  { apply (Hnear' (h / UEBERGANG_MM cfg)). split.
    - split; [exact I | lra].
    - simpl. unfold R_dist. rewrite Rabs_right; lra. }
  assert (Hf : Rabs (f (bs + h) - f bs) < eps).
  { apply (Hnear (bs + h)). split.
    - split; [exact I | lra].
    - simpl. unfold R_dist. rewrite Rabs_right; lra. }
  rewrite sine_transition_0 in Hsine.
  rewrite Hafter in Hf by lra. rewrite Hat in Hf. fold v in Hf.
  unfold eps in *.
  apply Rabs_def2 in Hsine. apply Rabs_def2 in Hf. lra.
Qed.

(** A strip of 292 mm: the one land the script places, at 230, covers the
    start of the butt section at 232. *)
Lemma mask_jumps_on_a_short_strip :
  compute_steg_positions reference 5 292 = Return [80 + 150]
  /\ ~ continuity_pt (fun x => compute_factor reference x 292 [80 + 150])
        (292 - BUTT_SOLID_MM reference).
Proof.
  split.
  - unfold compute_steg_positions. cbn [steg_loop TIP_SOLID_MM BUTT_SOLID_MM
      STEG_ABSTAND_MM reference]. settle. reflexivity.
  - apply (mask_jumps_where_a_land_meets_the_butt reference 292 [80 + 150]).
    + simpl; lra.
    + simpl; lra.
    + cbn [glue_lands STEG_BREITE_MM UEBERGANG_MM BUTT_SOLID_MM reference].
      settle. lra.
Defined.

(** ** The whole script *)

(** X10: with a positive step and a positive land pitch, on a table of at
    least two stations with increasing positions that starts at or before
    position 0, the script ends without an exception and, for every large
    enough fuel, returns one and the same program: the preamble, a body
    of moves, and the closing retract, home and program end. *)
Theorem main_returns_a_framed_program
    (cfg : config) (stations : list (R * R)) :
  0 < SCHRITT_MM cfg ->
  0 < STEG_ABSTAND_MM cfg ->
  (2 <= length stations)%nat ->
  increasing stations ->
  first_position stations <= 0 ->
  exists (fuel0 : nat) (body : list directive),
    (forall fuel : nat, (fuel0 <= fuel)%nat ->
        main cfg fuel stations
        = Return (preamble cfg ++ body ++ closing cfg))
    /\ filter is_motion body = body.
Proof.
  intros Hstep Hpitch Hlen Hinc Hfirst.
  destruct (steps_reach (TIP_SOLID_MM cfg + STEG_ABSTAND_MM cfg)
              (last_position stations - BUTT_SOLID_MM cfg)
              (STEG_ABSTAND_MM cfg) Hpitch) as [N1 HN1].
  destruct (steg_loop_spec cfg Hpitch _ N1 _ HN1) as [n [Hlands _]].
  set (lands := map (fun k => TIP_SOLID_MM cfg + STEG_ABSTAND_MM cfg
                              + INR k * STEG_ABSTAND_MM cfg) (seq 0 n)) in *.
  destruct (steps_reach 0 (last_position stations) (SCHRITT_MM cfg) Hstep)
    as [N2 HN2].
  destruct (build_loop_spec cfg stations lands Hstep Hlen Hinc N2 0 Hfirst HN2)
    as [samples [Hrun _]].
  exists (S (N1 + N2)), (fst (emit_path cfg samples [] false)). split.
  - intros fuel Hfuel.
    rewrite main_on_table
      by (intro Hnil; rewrite Hnil in Hlen; simpl in Hlen; lia).
    unfold compute_steg_positions.
    rewrite Hlands by lia. cbn [bind app]. fold lands.
    unfold build_toolpath. rewrite Hrun by lia. cbn [bind app fst].
    unfold generate_gcode. rewrite emit_path_frame. cbn [fst].
    rewrite <- app_assoc. reflexivity.
  - generalize false. generalize samples. clear.
    induction samples as [|[x z] rest IH]; intro cutting; [reflexivity|].
    cbn [emit_path].
    destruct (Rltb z (- 0.01)), cutting; cbn [negb];
      try rewrite emit_path_frame; cbn [fst];
      rewrite ?filter_app; cbn [filter is_motion app];
      rewrite ?IH; reflexivity.
Qed.

(** The script as the file sets it up. *)
Lemma main_returns_a_framed_program_reference :
  exists (fuel0 : nat) (body : list directive),
    (forall fuel : nat, (fuel0 <= fuel)%nat ->
        main reference fuel stations_mm
        = Return (preamble reference ++ body ++ closing reference))
    /\ filter is_motion body = body.
Proof.
  destruct reference_table_well_formed as [Hlen [Hinc [Hfirst _]]].
  apply (main_returns_a_framed_program reference stations_mm);
    [simpl; lra | simpl; lra | exact Hlen | exact Hinc | exact Hfirst].
Defined.

End HollowingMore.

(** * Further properties of the binary64 scan *)

Module F64More.
Import F64 F64Facts.

Lemma leb_nan (a : float) : (a <=? nan)%float = false.
Proof.
  rewrite leb_spec. unfold SFleb.
  replace (Prim2SF nan) with S754_nan by reflexivity.
  destruct (Prim2SF a); reflexivity.
Qed.

(** X11: in binary64, on a table of at least two stations with strictly
    increasing positions, the scan answers [None] exactly for the
    positions that fail [first <= x <= last] as binary64 comparisons; a NaN
    position fails them and is answered [None], not an exception. *)
Theorem binary64_none_exactly_outside
    (x : float) (stations : list (float * float)) :
  (2 <= length stations)%nat ->
  increasing stations = true ->
  (interpolate_dimension x stations = Return None
   <-> within_span x stations = false)
  /\ interpolate_dimension nan stations = Return None.
Proof.
  intros Hlen Hinc. split.
  - apply scan_none_iff_outside; assumption.
  - apply scan_none_iff_outside; [assumption | assumption |].
    unfold within_span. rewrite leb_nan. reflexivity.
Qed.

(** The reference table at 762 mm and at 2000 mm. *)
Lemma binary64_none_exactly_outside_reference :
  (interpolate_dimension 2000 stations_mm = Return None
   <-> within_span 2000 stations_mm = false)
  /\ interpolate_dimension nan stations_mm = Return None.
Proof.
  apply (binary64_none_exactly_outside 2000 stations_mm).
  - vm_compute. lia.
  - vm_compute. reflexivity.
Defined.

End F64More.

(** * Further properties of [griff_generator.py] *)

Module GriffMore.
Import Griff GriffFacts Reading Replay.
Local Open Scope R_scope.

(** Settle [always (at_clearance cfg)] for a list of lines written out. *)
Ltac clearance :=
  let cur := fresh "cur" in
  intro cur;
  cbn [z_in_effect z_after words word axis_eqb face_lines app];
  repeat (apply Forall_cons;
          [ let Hr := fresh in
            let Hw := fresh in
            intros Hr Hw; cbn [fst snd] in *;
            first [discriminate Hr | discriminate Hw | reflexivity] |]);
  apply Forall_nil.

(** ** The roughing passes *)

Lemma roughing_loop_spec (target_r : R) (N : nat) :
  forall r : R,
    r - INR N < target_r + 0.5 ->
    exists n : nat,
      (forall (fuel : nat) (roughing_steps : list (string * option R)),
          (N < fuel)%nat ->
          roughing_loop fuel roughing_steps r target_r
          = Return (roughing_steps
                    ++ map (fun k => ("roughing"%string, Some (r - INR k)))
                         (seq 0 n)))
      /\ (forall k : nat, target_r + 0.5 <= r - INR k <-> (k < n)%nat).
Proof.
  induction N as [|N IH]; intros r Hr.
  - simpl in Hr. exists O. split.
    + intros [|fuel] acc Hfuel; [lia|]. cbn [roughing_loop].
      assert (E : Rgeb r (target_r + 0.5) = false) by (apply Rleb_false; lra).
      rewrite E. simpl. rewrite app_nil_r. reflexivity.
    + intro k. split; [|lia]. intro Hk. pose proof (pos_INR k). lra.
  - destruct (Rgeb r (target_r + 0.5)) eqn:E.
    + destruct (IH (r - 1)) as [n [Hrun Hcount]];
        [rewrite S_INR in Hr; lra|].
      exists (S n). split.
      * intros [|fuel] acc Hfuel; [lia|]. cbn [roughing_loop].
        rewrite E, Hrun by lia. rewrite <- app_assoc. f_equal.
        cbn [seq map app].
        apply (f_equal2 (fun a l => acc ++ ("roughing"%string, Some a) :: l)).
        { simpl. lra. }
        rewrite <- seq_shift, map_map. apply map_ext. intro k.
        rewrite S_INR. do 2 f_equal. lra.
      * intro k. unfold Rgeb in E. apply Rleb_true in E.
        destruct k as [|k]; [simpl; split; [lia | lra]|].
        rewrite <- Nat.succ_lt_mono, <- Hcount, S_INR. split; intro; lra.
    + unfold Rgeb in E. pose proof E as E'. apply Rleb_false in E'.
      exists O. split.
      * intros [|fuel] acc Hfuel; [lia|]. cbn [roughing_loop].
        unfold Rgeb. rewrite E. simpl. rewrite app_nil_r. reflexivity.
      * intro k. split; [|lia]. intro Hk. pose proof (pos_INR k). lra.
Qed.

(** X13: the roughing loop ends for every start radius and target, and
    returns the radii [r], [r - 1], [r - 2], ... as long as they are at
    least 0.5 above the target, and no others: none at all when [r] is
    already closer than that. *)
Theorem roughing_steps_stop_above_target (r target_r : R) :
  exists n fuel0 : nat,
    (forall fuel : nat, (fuel0 <= fuel)%nat ->
        roughing_loop fuel [] r target_r
        = Return (map (fun k => ("roughing"%string, Some (r - INR k)))
                    (seq 0 n)))
    /\ (forall k : nat, target_r + 0.5 <= r - INR k <-> (k < n)%nat)
    /\ (r < target_r + 0.5 -> n = O).
Proof.
  destruct (nat_above (r - target_r)) as [N HN].
  destruct (roughing_loop_spec target_r N r) as [n [Hrun Hcount]]; [lra|].
  exists n, (S N). split; [|split].
  - intros fuel Hfuel. rewrite Hrun by lia. reflexivity.
  - exact Hcount.
  - intro Hclose. destruct n as [|n]; [reflexivity|].
    assert (H0 : (0 < S n)%nat) by lia.
    apply Hcount in H0. simpl in H0. lra.
Qed.

(** ** What the turning program never does *)

(** ** A grip of zero length *)

Section ZeroLength.

Variable cfg : config.
Hypothesis no_length : GRIFF_LAENGE_MM cfg = 0.

Lemma zero_length_pass (fixed_r : option R) (r : R) (fuel : nat)
    (lines : list directive) (a : R) :
  match fixed_r with
  | Some fixed => Return fixed
  | None =>
      if String.eqb (GRIFFTYP cfg) "konisch"
      then conical_radius cfg (X_START_MM cfg)
      else Return (ZIEL_RADIUS cfg)
  end = Return r ->
  pass_loop cfg (S fuel) fixed_r lines a (X_START_MM cfg)
  = Return
      (lines
       ++ [LINEAR_MOVE
             [(AX, X_START_MM cfg); (AZ, z_for_radius cfg r);
              (AA, a + 360 * rotations_per_mm * SCHRITT_MM cfg)]
             (FEED_CUT cfg) ""],
       a + 360 * rotations_per_mm * SCHRITT_MM cfg).
Proof.
  intro Hr. cbn [pass_loop].
  assert (Hmin : Rmin (X_START_MM cfg) (X_START_MM cfg + GRIFF_LAENGE_MM cfg)
                 = X_START_MM cfg)
    by (rewrite no_length, Rplus_0_r; apply Rmin_left; lra).
  rewrite Hmin, Hr. cbn [bind].
  assert (E : Rgeb (X_START_MM cfg) (X_START_MM cfg + GRIFF_LAENGE_MM cfg)
              = true)
    by (apply Rleb_true; rewrite no_length; lra).
  rewrite E. reflexivity.
Qed.

Lemma zero_length_roughing (fuel : nat) (radii : list R) :
  forall (lines : list directive) (a : R)
         (rest : list (string * option R)),
    exists (lines' : list directive) (a' : R),
      pass_sequence cfg (S fuel)
        (map (fun r => ("roughing"%string, Some r)) radii ++ rest) lines a
      = pass_sequence cfg (S fuel) rest lines' a'.
Proof.
  induction radii as [|r radii IH]; intros lines a rest.
  - exists lines, a. reflexivity.
  - cbn [map app pass_sequence].
    rewrite (zero_length_pass (Some r) r) by reflexivity.
    cbn [bind fst snd]. apply IH.
Qed.

Lemma zero_length_cone_pass (fuel : nat) (lines : list directive) (a x : R) :
  GRIFFTYP cfg = "konisch"%string ->
  pass_loop cfg (S fuel) None lines a x = ZeroDivisionError.
Proof.
  intro Htyp. cbn [pass_loop]. rewrite Htyp.
  cbn [String.eqb Ascii.eqb Bool.eqb]. unfold conical_radius.
  assert (E : Reqb (GRIFF_LAENGE_MM cfg) 0 = true)
    by (apply Reqb_true; exact no_length).
  rewrite E. reflexivity.
Qed.

Lemma zero_length_cylinder_passes
    (roughing_steps : list (string * option R)) :
  GRIFFTYP cfg = "zylindrisch"%string ->
  forall a : R,
    exists (new : list directive) (a' : R),
      forall (fuel : nat) (lines : list directive),
        pass_sequence cfg (S fuel) roughing_steps lines a
        = Return (lines ++ new, a').
Proof.
  intro Htyp.
  induction roughing_steps as [|[pass_type fixed_r] rest IH]; intro a.
  - exists [], a. intros fuel lines. cbn [pass_sequence].
    rewrite app_nil_r. reflexivity.
  - assert (Hr : exists r : R,
               match fixed_r with
               | Some fixed => Return fixed
               | None =>
                   if String.eqb (GRIFFTYP cfg) "konisch"
                   then conical_radius cfg (X_START_MM cfg)
                   else Return (ZIEL_RADIUS cfg)
               end = Return r).
    { destruct fixed_r as [fixed|]; [eexists; reflexivity|].
      rewrite Htyp. eexists. reflexivity. }
    destruct Hr as [r Hr].
    destruct (IH (a + 360 * rotations_per_mm * SCHRITT_MM cfg))
      as [new [a' Hrest]].
    do 2 eexists. intros fuel lines. cbn [pass_sequence].
    rewrite (zero_length_pass fixed_r r) by exact Hr.
    cbn [bind fst snd]. rewrite Hrest. rewrite <- !app_assoc. reflexivity.
Qed.

End ZeroLength.

(** X12: [conical_radius] raises [ZeroDivisionError] exactly when
    [GRIFF_LAENGE_MM] is 0, and then at every position.  With a grip length
    of 0 the generator of a conical grip raises [ZeroDivisionError]: the
    roughing passes are generated, and the finishing pass, which asks for
    the conical radius, raises; the generator of a cylindrical grip
    returns a program. *)
Theorem zero_length_cone_raises (cfg : config) :
  (forall x : R,
      conical_radius cfg x = ZeroDivisionError <-> GRIFF_LAENGE_MM cfg = 0)
  /\ (GRIFF_LAENGE_MM cfg = 0 ->
      GRIFFTYP cfg = "konisch"%string ->
      exists fuel0 : nat,
        forall fuel : nat, (fuel0 <= fuel)%nat ->
          generate_turning cfg fuel = ZeroDivisionError)
  /\ (GRIFF_LAENGE_MM cfg = 0 ->
      GRIFFTYP cfg = "zylindrisch"%string ->
      exists (fuel0 : nat) (lines : list directive),
        forall fuel : nat, (fuel0 <= fuel)%nat ->
          generate_turning cfg fuel = Return lines).
Proof.
  split; [|split].
  - intro x. unfold conical_radius.
    destruct (Reqb (GRIFF_LAENGE_MM cfg) 0) eqn:E.
    + apply Reqb_true in E. split; [intros _; exact E | reflexivity].
    + apply Reqb_false in E. split; [discriminate | contradiction].
  - intros H0 Htyp.
    set (target_r := Rmin (RADIUS_TIP cfg) (RADIUS_BUTT cfg)).
    destruct (nat_above (ROHLING_RADIUS cfg - 1 - target_r)) as [N HN].
    destruct (roughing_loop_spec target_r N (ROHLING_RADIUS cfg - 1))
      as [n [Hrough _]]; [lra|].
    exists (S N). intros fuel Hfuel. unfold generate_turning.
    rewrite Htyp. cbn [String.eqb Ascii.eqb Bool.eqb]. fold target_r.
    rewrite Hrough by lia. cbn [bind app].
    destruct fuel as [|fuel]; [lia|].
    rewrite <- (map_map (fun k => ROHLING_RADIUS cfg - 1 - INR k)
                  (fun r => ("roughing"%string, Some r))).
    destruct (zero_length_roughing cfg H0 fuel
                (map (fun k => ROHLING_RADIUS cfg - 1 - INR k) (seq 0 n))
                (turning_header cfg) 0 [("finishing"%string, None)])
      as [lines' [a' Hseq]].
    rewrite Hseq. cbn [pass_sequence].
    cbn [truthy].
    rewrite (zero_length_cone_pass cfg H0 fuel _ a' (X_START_MM cfg) Htyp).
    reflexivity.
  - intros H0 Htyp.
    set (target_r := ZIEL_RADIUS cfg).
    destruct (nat_above (ROHLING_RADIUS cfg - 1 - target_r)) as [N HN].
    destruct (roughing_loop_spec target_r N (ROHLING_RADIUS cfg - 1))
      as [n [Hrough _]]; [lra|].
    destruct (zero_length_cylinder_passes cfg H0
                (map (fun k => ("roughing"%string,
                                Some (ROHLING_RADIUS cfg - 1 - INR k)))
                   (seq 0 n) ++ [("finishing"%string, None)])
                Htyp 0)
      as [new [a' Hseq]].
    exists (S N), (turning_header cfg ++ new ++ turning_footer cfg).
    intros fuel Hfuel. unfold generate_turning.
    rewrite Htyp. cbn [String.eqb Ascii.eqb Bool.eqb]. fold target_r.
    rewrite Hrough by lia. cbn [bind app].
    destruct fuel as [|fuel]; [lia|].
    rewrite Hseq. cbn [bind fst]. rewrite <- app_assoc. reflexivity.
Qed.

(** The constants of the file with a grip length of 0. *)
Lemma zero_length_cone_raises_at_file_constants :
  (exists fuel0 : nat,
      forall fuel : nat, (fuel0 <= fuel)%nat ->
        generate_turning (zero_length "konisch") fuel = ZeroDivisionError)
  /\ (exists (fuel0 : nat) (lines : list directive),
        forall fuel : nat, (fuel0 <= fuel)%nat ->
          generate_turning (zero_length "zylindrisch") fuel = Return lines).
Proof.
  destruct (zero_length_cone_raises (zero_length "konisch")) as [_ [Hcone _]].
  destruct (zero_length_cone_raises (zero_length "zylindrisch"))
    as [_ [_ Hcyl]].
  split; [apply Hcone; reflexivity | apply Hcyl; reflexivity].
Defined.


Section TurningBounds.

Variable cfg : config.

Let x_end : R := X_START_MM cfg + GRIFF_LAENGE_MM cfg.

Let target_r : R :=
  if String.eqb (GRIFFTYP cfg) "zylindrisch" then ZIEL_RADIUS cfg
  else Rmin (RADIUS_TIP cfg) (RADIUS_BUTT cfg).


Hypothesis turned_shape :
  GRIFFTYP cfg = "zylindrisch"%string \/ GRIFFTYP cfg = "konisch"%string.
Hypothesis step_nonneg : 0 <= SCHRITT_MM cfg.







End TurningBounds.



(** ** Traversing at the clearance height *)

Lemma pass_loop_only_linear (cfg : config) (fuel : nat) (fixed_r : option R) :
  forall (lines : list directive) (a x : R)
         (lines' : list directive) (a' : R),
    pass_loop cfg fuel fixed_r lines a x = Return (lines', a') ->
    exists new : list directive,
      lines' = lines ++ new /\ Forall (fun d => is_rapid d = false) new.
Proof.
  induction fuel as [|fuel IH]; intros lines a x lines' a' Hrun;
    [discriminate|].
  cbn [pass_loop] in Hrun.
  destruct (match fixed_r with
            | Some fixed => Return fixed
            | None => _
            end) as [r| | |]; cbn [bind] in Hrun; try discriminate.
  destruct (Rgeb _ _).
  - apply Return_inj in Hrun. inversion Hrun; subst.
    eexists. split; [reflexivity|]. repeat constructor.
  - apply IH in Hrun. destruct Hrun as [new [Hl Hnew]].
    eexists. split; [rewrite Hl, <- app_assoc; reflexivity|].
    constructor; [reflexivity | exact Hnew].
Qed.

Lemma pass_sequence_at_clearance (cfg : config) (fuel : nat)
    (roughing_steps : list (string * option R)) :
  forall (lines : list directive) (a : R) (lines' : list directive) (a' : R),
    pass_sequence cfg fuel roughing_steps lines a = Return (lines', a') ->
    exists new : list directive,
      lines' = lines ++ new /\ always (at_clearance cfg) new.
Proof.
  induction roughing_steps as [|[pass_type fixed_r] rest IH];
    intros lines a lines' a' Hrun; cbn [pass_sequence] in Hrun.
  - apply Return_inj in Hrun. inversion Hrun; subst.
    exists []. split; [rewrite app_nil_r; reflexivity|].
    intro cur. constructor.
  - destruct (pass_loop cfg fuel fixed_r _ a (X_START_MM cfg))
      as [[l1 a1]| | |] eqn:Hpass; cbn [bind fst snd] in Hrun;
      try discriminate.
    apply pass_loop_only_linear in Hpass.
    destruct Hpass as [new1 [Hl1 Hnew1]].
    apply IH in Hrun. destruct Hrun as [new2 [Hl2 Hnew2]].
    eexists. split; [rewrite Hl2, Hl1, <- !app_assoc; reflexivity|].
    apply always_app; [destruct (truthy fixed_r); clearance|].
    apply always_app.
    { apply always_not_rapid; [|exact Hnew1].
      intros d cur Hd. unfold at_clearance. cbn [fst snd].
      intros Hr _. congruence. }
    apply always_app; [clearance | exact Hnew2].
Qed.

(** X15: in a turning program every rapid move that carries no Z word (a
    traverse along X, or the first positioning of X and A) is made with
    the Z word of the clearance height in effect: the tool is retracted
    before it travels back. *)
Theorem turning_traverses_at_clearance
    (cfg : config) (fuel : nat) (lines : list directive) :
  generate_turning cfg fuel = Return lines ->
  Forall (at_clearance cfg) (z_in_effect None lines).
Proof.
  unfold generate_turning. intro Hrun.
  destruct (roughing_loop fuel [] _ _) as [steps| | |];
    cbn [bind] in Hrun; try discriminate.
  destruct (pass_sequence cfg fuel _ _ 0) as [[l a']| | |] eqn:Hseq;
    cbn [bind fst] in Hrun; try discriminate.
  apply Return_inj in Hrun. subst lines.
  apply pass_sequence_at_clearance in Hseq. destruct Hseq as [new [Hl Hnew]].
  rewrite Hl, <- app_assoc.
  apply always_app; [|apply always_app; [exact Hnew|]].
  - unfold turning_header.
    destruct (String.eqb (GRIFFTYP cfg) "zylindrisch"); clearance.
  - unfold turning_footer. clearance.
Qed.

(** The cylindrical grip with the constants of the file. *)
Lemma turning_traverses_at_clearance_cylinder :
  exists (fuel : nat) (lines : list directive),
    generate_turning (turned "zylindrisch") fuel = Return lines
    /\ Forall (at_clearance (turned "zylindrisch")) (z_in_effect None lines).
Proof.
  assert (Hstep : 0 < SCHRITT_MM (turned "zylindrisch")) by (simpl; lra).
  assert (Hlen : GRIFF_LAENGE_MM (turned "zylindrisch") <> 0)
    by (simpl; lra).
  destruct (generate_turning_ends (turned "zylindrisch") Hstep Hlen)
    as [fuel0 [lines Hrun]].
  exists fuel0, lines. split; [apply Hrun; lia|].
  apply (turning_traverses_at_clearance (turned "zylindrisch") fuel0 lines).
  apply Hrun. lia.
Defined.

(** X16: the polygon program divides by zero when the face count is 0 and
    has no face at all when it is negative.  With a positive face count,
    its index angles are not negative, strictly increase and stay below
    360, and
    every rapid move without a Z word, each indexing of the A axis among
    them, is made with the Z word of the clearance height in effect: the
    workpiece is never turned with the tool at depth. *)
Theorem polygon_indexes_at_clearance (cfg : config) :
  ((POLYGON_SEITEN cfg = 0)%Z -> generate_polygon cfg = ZeroDivisionError)
  /\ ((POLYGON_SEITEN cfg < 0)%Z ->
      exists lines : list directive,
        generate_polygon cfg = Return lines
        /\ filter is_linear lines = []
        /\ select index_angle lines = [])
  /\ ((0 < POLYGON_SEITEN cfg)%Z ->
      exists lines : list directive,
        generate_polygon cfg = Return lines
        /\ Forall (fun a => 0 <= a < 360) (select index_angle lines)
        /\ strictly_increasing (select index_angle lines)
        /\ Forall (at_clearance cfg) (z_in_effect None lines)).
Proof.
  split; [|split].
  - intro H0. unfold generate_polygon. rewrite H0. reflexivity.
  - intro Hneg. eexists. split; [apply generate_polygon_program; lia|].
    replace (Z.to_nat (POLYGON_SEITEN cfg)) with O by lia.
    split; reflexivity.
  - intro Hpos. eexists. split; [apply generate_polygon_program; lia|].
    assert (HN : 0 < IZR (POLYGON_SEITEN cfg)) by (apply IZR_lt; exact Hpos).
    assert (Hangles :
              select index_angle
                (polygon_header cfg
                   (POLYGON_UMKREIS cfg * cos (PI / IZR (POLYGON_SEITEN cfg)))
                   (POLYGON_UMKREIS cfg * cos (PI / IZR (POLYGON_SEITEN cfg))
                    + FRAESER_RADIUS cfg)
                   (360 / IZR (POLYGON_SEITEN cfg))
                 ++ flat_map
                      (face_lines cfg (360 / IZR (POLYGON_SEITEN cfg))
                         (ROHLING_RADIUS cfg + FRAESER_RADIUS cfg)
                         (POLYGON_UMKREIS cfg
                          * cos (PI / IZR (POLYGON_SEITEN cfg))
                          + FRAESER_RADIUS cfg))
                      (seq 0 (Z.to_nat (POLYGON_SEITEN cfg)))
                 ++ polygon_footer cfg)
              = map (fun k => 0 + INR k * (360 / IZR (POLYGON_SEITEN cfg)))
                  (seq 0 (Z.to_nat (POLYGON_SEITEN cfg)))).
    { rewrite !select_app, !select_flat_map.
      cbn [face_lines select index_angle polygon_header polygon_footer app].
      rewrite flat_map_singleton, app_nil_r. apply map_ext. intro k. lra. }
    rewrite Hangles. split; [|split].
    + apply Forall_forall. intros a Ha. apply in_map_iff in Ha.
      destruct Ha as [k [<- Hk]]. apply in_seq in Hk.
      assert (Hk' : INR k < IZR (POLYGON_SEITEN cfg)).
      { rewrite <- (Z2Nat.id (POLYGON_SEITEN cfg)) by lia.
        rewrite <- INR_IZR_INZ. apply lt_INR. lia. }
      pose proof (pos_INR k) as Hk0.
      assert (Hs : 0 < 360 / IZR (POLYGON_SEITEN cfg))
        by (apply Rdiv_lt_0_compat; lra).
      split; [nra|].
      replace 360 with (IZR (POLYGON_SEITEN cfg)
                        * (360 / IZR (POLYGON_SEITEN cfg))) at 2
        by (field; lra).
      nra.
    + apply strictly_increasing_multiples. apply Rdiv_lt_0_compat; lra.
    + apply always_app; [unfold polygon_header; clearance|].
      apply always_app; [|unfold polygon_footer; clearance].
      apply always_flat_map. intro face. unfold face_lines. clearance.
Qed.

End GriffMore.

(** * Properties of [taper_gcode.py] *)

Module TaperFacts.
Import Taper Reading Replay GriffFacts.
Local Open Scope R_scope.

Lemma station_loop_flat_map (cfg : config) (stations : list (R * R)) :
  forall lines : list directive,
    station_loop cfg stations lines
    = lines
      ++ flat_map
           (fun xd =>
              [ Text "; Station X={x:.1f}mm, Dim={dim:.3f}mm -> Z={z:.4f}mm";
                LINEAR_MOVE [(AX, fst xd); (AZ, dimension_to_z cfg (snd xd))]
                  (FEED_RATE cfg) "" ])
           stations.
Proof.
  induction stations as [|[x dim] rest IH]; intro lines;
    cbn [station_loop flat_map].
  - rewrite app_nil_r. reflexivity.
  - rewrite IH, <- app_assoc. reflexivity.
Qed.

(** X17: on an empty table the script stops with an [IndexError].  On any
    other table it returns a program whose linear moves plunge to the
    depth [-(d/2) + Z_OFFSET] of the first station, pass through every later
    station at its position in millimetres and at the depth of its
    dimension, in table order, and end [EXTRA_LAENGE_MM] past the last
    station at the last station's depth; every rapid move without a Z
    word is made at the safe height. *)
Theorem taper_program_follows_the_table
    (cfg : config) (first : R * R) (later : list (R * R)) :
  main cfg [] = None
  /\ exists lines : list directive,
       main cfg (first :: later) = Some lines
       /\ select (linear_word AZ) lines
          = map (fun sd => dimension_to_z cfg (snd sd)) (first :: later)
            ++ [dimension_to_z cfg (snd (last (first :: later) first))]
       /\ select (linear_word AX) lines
          = map (fun sd => fst sd * ZOLL_ZU_MM) later
            ++ [fst (last (first :: later) first) * ZOLL_ZU_MM
                + EXTRA_LAENGE_MM cfg]
       /\ Forall (at_safe_height cfg) (z_in_effect None lines).
Proof.
  split; [reflexivity|].
  destruct first as [s0 d0]. unfold main. cbn [map fst snd].
  eexists. split; [reflexivity|].
  rewrite station_loop_flat_map.
  assert (Hlast : forall (l : list (R * R)) (a : R * R),
             last (map (fun sd => (fst sd * ZOLL_ZU_MM, snd sd)) l)
               (fst a * ZOLL_ZU_MM, snd a)
             = (fst (last l a) * ZOLL_ZU_MM, snd (last l a))).
  { induction l as [|b l IHl]; intro a; [reflexivity|].
    cbn [map]. destruct l as [|c l]; [reflexivity|].
    change (last (b :: c :: l) a) with (last (c :: l) a).
    rewrite <- IHl. reflexivity. }
  assert (Hlast' :
            last ((s0 * ZOLL_ZU_MM, d0)
                  :: map (fun sd => (fst sd * ZOLL_ZU_MM, snd sd)) later)
              (s0 * ZOLL_ZU_MM, d0)
            = (fst (last ((s0, d0) :: later) (s0, d0)) * ZOLL_ZU_MM,
               snd (last ((s0, d0) :: later) (s0, d0)))).
  { exact (Hlast ((s0, d0) :: later) (s0, d0)). }
  rewrite Hlast'. cbn [fst snd].
  split; [|split].
  - rewrite !select_app, select_flat_map.
    cbn [select linear_word word axis_eqb app fst snd].
    rewrite flat_map_singleton, map_map. reflexivity.
  - rewrite !select_app, select_flat_map.
    cbn [select linear_word word axis_eqb app fst snd].
    rewrite flat_map_singleton, map_map. reflexivity.
  - rewrite <- !app_assoc, !z_in_effect_app. cbn [app].
    cbn [fold_left z_after words word axis_eqb].
    apply Forall_app. split;
      [|apply Forall_app; split; [|apply Forall_app; split]].
    + cbn [z_in_effect z_after words word axis_eqb].
      repeat (apply Forall_cons;
              [intros Hr Hw; cbn [fst snd] in *;
               first [discriminate Hr | discriminate Hw | reflexivity] |]).
      apply Forall_nil.
    + cbn [z_in_effect z_after words word axis_eqb].
      repeat (apply Forall_cons;
              [intros Hr Hw; cbn [fst snd] in *;
               first [discriminate Hr | discriminate Hw | reflexivity] |]).
      apply Forall_nil.
    + apply always_not_rapid.
      * intros d cur Hd Hr. cbn [fst] in Hr. congruence.
      * apply Forall_forall. intros d Hd. apply in_flat_map in Hd.
        destruct Hd as [xd [_ [<-|[<-|[]]]]]; reflexivity.
    + match goal with
      | |- Forall _ (z_in_effect ?c _) => generalize c
      end.
      intro cur. cbn [z_in_effect z_after words word axis_eqb].
      repeat (apply Forall_cons;
              [intros Hr Hw; cbn [fst snd] in *;
               first [discriminate Hr | discriminate Hw | reflexivity] |]).
      apply Forall_nil.
Qed.

End TaperFacts.
